(** * KnowledgeOS: the knowledge-graph maintenance and retrieval engine

    A shallow embedding of the Python sources

      - [src/python/models/entities.py]            (module [Models])
      - [src/python/services/knowledge_graph.py]   (module [Graph])
      - [src/python/server.py]                     (module [Server])
      - [src/python/knowledge_agents.py]           (module [Agents])
      - [src/python/enhanced_knowledge_service.py] (modules [Search], [Content])
      - [src/python/coding_knowledge_service.py]   (modules [CodeSearch],
                                                    [ErrorSearch])

    followed by the properties of the specification that concern them.

    Conventions of the embedding.
    - A Python [dict] is a [gmap]; a [dict] whose iteration order is
      observable (the [combined] table of [rank_results]) is an association
      list in insertion order.
    - [datetime] values are integers (ticks of the wall clock).  Every call of
      [datetime.utcnow()] / [datetime.now()] is a read of the clock: methods
      that read it once take the reading as the argument [now]; methods of the
      graph manager, which read it several times, run in the monad [M], whose
      state counts the reads and which is given the sequence [utc] of readings.
    - Python [float] scores are rationals ([Q]), compared as numbers.  Where
      the rounding of binary64 arithmetic can decide a result (the sums of
      [rank_results]) a second definition takes the rounded operations as
      parameters ([rank_results_float]).
    - The items of a [gmap] are visited in the order of [map_to_list], those
      of a Python [dict] in insertion order; where the two differ
      ([merge_entity]) the order only decides which clock reading a new
      version gets.
    - An uncaught Python exception is the result [Raise]. *)

From Stdlib Require Import QArith DecimalString Ascii.
From stdpp Require Import gmap strings list fin_maps sorting.

Open Scope string_scope.
Open Scope list_scope.
Open Scope Z_scope.

(** ** Exceptions *)

Inductive exn : Type :=
| ValueError   (* e.g. [max()] of an empty sequence, numpy shape mismatch *)
| KeyError
| OperationalError.   (* sqlite3: e.g. a query that names a missing column *)

Inductive outcome (A : Type) : Type :=
| Ok (a : A)
| Raise (e : exn).
Arguments Ok {A} a.
Arguments Raise {A} e.

#[global] Instance outcome_ret : MRet outcome := λ A a, Ok a.
#[global] Instance outcome_bind : MBind outcome := λ A B f m,
  match m with Ok a => f a | Raise e => Raise e end.

(** [a > b] on Python [str]: lexicographic comparison of the code points. *)
Definition str_gt (a b : string) : bool :=
  match String.compare a b with Gt => true | _ => false end.

(** [sorted(xs, key=key, reverse=True)].  Python's sort is stable, also with
    [reverse=True]: elements with equal keys keep their original order.  The
    sorted list is determined by that, whatever the algorithm; the model is
    an insertion sort. *)
Section sorted_reverse.
Context {A : Type} (key : A → Q).

Fixpoint insert_reverse (x : A) (sorted : list A) : list A :=
  match sorted with
  | [] => [x]
  | y :: rest =>
      if Qle_bool (key y) (key x) then x :: y :: rest
      else y :: insert_reverse x rest
  end.

Definition sorted_reverse (xs : list A) : list A := foldr insert_reverse [] xs.
End sorted_reverse.

(** [xs[:limit]]: a negative [limit] counts from the end. *)
Definition slice_to {A : Type} (limit : Z) (xs : list A) : list A :=
  if 0 <=? limit then take (Z.to_nat limit) xs
  else take (Z.to_nat (Z.of_nat (length xs) + limit)) xs.

(** [str(n)] for an [int]. *)
Definition str_of_int (n : Z) : string := NilZero.string_of_int (Z.to_int n).

(** ** models/entities.py *)

Module Models.

Inductive EntityType : Type :=
| PERSON | ORGANIZATION | PROJECT | SKILL | LOCATION
| EVENT | CONCEPT | DOCUMENT | TASK | GOAL.

Inductive RelationType : Type :=
| WORKS_AT | KNOWS | LOCATED_IN | PART_OF | RELATED_TO
| CREATED_BY | MANAGES | REPORTS_TO | COLLABORATES_WITH | DEPENDS_ON.

Inductive ConfidenceLevel : Type :=
| VERIFIED | HIGH | MEDIUM | LOW | UNCERTAIN.

#[global] Instance EntityType_eq_dec : EqDecision EntityType.
Proof. solve_decision. Defined.
#[global] Instance RelationType_eq_dec : EqDecision RelationType.
Proof. solve_decision. Defined.
#[global] Instance ConfidenceLevel_eq_dec : EqDecision ConfidenceLevel.
Proof. solve_decision. Defined.

(** [ConfidenceLevel] is a [str]-valued [Enum]: [c.value] is the string. *)
Definition confidence_value (c : ConfidenceLevel) : string :=
  match c with
  | VERIFIED => "verified"
  | HIGH => "high"
  | MEDIUM => "medium"
  | LOW => "low"
  | UNCERTAIN => "uncertain"
  end.

(** [a.value > b.value], as written in [add_attribute] and
    [add_relationship]. *)
Definition confidence_value_gt (a b : ConfidenceLevel) : bool :=
  str_gt (confidence_value a) (confidence_value b).

(** [class Attribute(BaseModel)]; [Value] stands for the payload type [Any],
    compared with [==]. *)
Module Attribute.
Record t (Value : Type) : Type := mk {
  key : string;
  value : Value;
  confidence : ConfidenceLevel;
  source : string;
  timestamp : Z;
  version : Z
}.
Arguments mk {Value}.
Arguments key {Value}.
Arguments value {Value}.
Arguments confidence {Value}.
Arguments source {Value}.
Arguments timestamp {Value}.
Arguments version {Value}.

Definition with_confidence {Value} (a : t Value) (c : ConfidenceLevel) : t Value :=
  mk (key a) (value a) c (source a) (timestamp a) (version a).
Definition with_timestamp {Value} (a : t Value) (ts : Z) : t Value :=
  mk (key a) (value a) (confidence a) (source a) ts (version a).

(** [Attribute(key=.., value=.., source=.., confidence=..)]: [timestamp] comes
    from its default factory (one clock read), [version] defaults to 1. *)
Definition new {Value} (key : string) (value : Value) (source : string)
    (confidence : ConfidenceLevel) (now : Z) : t Value :=
  mk key value confidence source now 1.
End Attribute.

(** [class Entity(BaseModel)] *)
Module Entity.
Record t (Value : Type) : Type := mk {
  id : string;
  type : EntityType;
  name : string;
  aliases : list string;
  attributes : gmap string (list (Attribute.t Value));
  embeddings : option (list Q);
  canonical_file : option string;
  confidence : ConfidenceLevel;
  created_at : Z;
  updated_at : Z;
  sources : list string
}.
Arguments mk {Value}.
Arguments id {Value}.
Arguments type {Value}.
Arguments name {Value}.
Arguments aliases {Value}.
Arguments attributes {Value}.
Arguments embeddings {Value}.
Arguments canonical_file {Value}.
Arguments confidence {Value}.
Arguments created_at {Value}.
Arguments updated_at {Value}.
Arguments sources {Value}.

Definition with_attributes {Value} (e : t Value)
    (a : gmap string (list (Attribute.t Value))) : t Value :=
  mk (id e) (type e) (name e) (aliases e) a (embeddings e) (canonical_file e)
     (confidence e) (created_at e) (updated_at e) (sources e).
Definition with_aliases {Value} (e : t Value) (a : list string) : t Value :=
  mk (id e) (type e) (name e) a (attributes e) (embeddings e) (canonical_file e)
     (confidence e) (created_at e) (updated_at e) (sources e).
Definition with_embeddings {Value} (e : t Value) (v : option (list Q)) : t Value :=
  mk (id e) (type e) (name e) (aliases e) (attributes e) v (canonical_file e)
     (confidence e) (created_at e) (updated_at e) (sources e).
Definition with_updated_at {Value} (e : t Value) (ts : Z) : t Value :=
  mk (id e) (type e) (name e) (aliases e) (attributes e) (embeddings e)
     (canonical_file e) (confidence e) (created_at e) ts (sources e).

(** The keyword arguments of [Entity(...)]: a field with a default may be
    absent. *)
Record kwargs (Value : Type) : Type := mk_kwargs {
  kw_id : string;
  kw_type : EntityType;
  kw_name : string;
  kw_aliases : option (list string);
  kw_attributes : option (gmap string (list (Attribute.t Value)));
  kw_embeddings : option (list Q);
  kw_canonical_file : option string;
  kw_confidence : option ConfidenceLevel;
  kw_created_at : option Z;
  kw_updated_at : option Z;
  kw_sources : option (list string)
}.
Arguments mk_kwargs {Value}.
Arguments kw_id {Value}.
Arguments kw_type {Value}.
Arguments kw_name {Value}.
Arguments kw_aliases {Value}.
Arguments kw_attributes {Value}.
Arguments kw_embeddings {Value}.
Arguments kw_canonical_file {Value}.
Arguments kw_confidence {Value}.
Arguments kw_created_at {Value}.
Arguments kw_updated_at {Value}.
Arguments kw_sources {Value}.

(** [@validator('updated_at', pre=True, always=True)
     def set_updated_at(cls, v): return datetime.utcnow()]
    [v] is the value the caller supplied, if any. *)
Definition set_updated_at (v : option Z) (now : Z) : Z := now.

(** Construction / validation of an [Entity].  [now_created] is the clock
    read of the [created_at] default factory (used only when the field is
    absent), [now_validated] the one of the [updated_at] validator, which
    runs always. *)
Definition init {Value} (kw : kwargs Value) (now_created now_validated : Z)
    : t Value :=
  mk (kw_id kw) (kw_type kw) (kw_name kw)
     (default [] (kw_aliases kw))
     (default ∅ (kw_attributes kw))
     (kw_embeddings kw)
     (kw_canonical_file kw)
     (default HIGH (kw_confidence kw))
     (default now_created (kw_created_at kw))
     (set_updated_at (kw_updated_at kw) now_validated)
     (default [] (kw_sources kw)).

(** The stored data of an entity, as [e.dict()] gives it back. *)
Definition dict {Value} (e : t Value) : kwargs Value :=
  mk_kwargs (id e) (type e) (name e) (Some (aliases e)) (Some (attributes e))
    (embeddings e) (canonical_file e) (Some (confidence e))
    (Some (created_at e)) (Some (updated_at e)) (Some (sources e)).

Section methods.
Context {Value : Type} `{!EqDecision Value}.

(** The version list of a key ([[]] when the key is absent). *)
Definition versions (self : t Value) (key : string) : list (Attribute.t Value) :=
  default [] (attributes self !! key).

(** The body of the [if existing:] branch of [add_attribute]. *)
Definition reobserve (confidence : ConfidenceLevel) (now : Z)
    (existing : Attribute.t Value) : Attribute.t Value :=
  let existing :=
    if confidence_value_gt confidence (Attribute.confidence existing)
    then Attribute.with_confidence existing confidence
    else existing in
  Attribute.with_timestamp existing now.

(** [def add_attribute(self, key, value, source="user",
                       confidence=ConfidenceLevel.HIGH)].
    The method mutates [self]; the result is [self] afterwards.  It reads the
    clock once, in either branch. *)
Definition add_attribute (self : t Value) (key : string) (value : Value)
    (source : string) (confidence : ConfidenceLevel) (now : Z) : t Value :=
  (* if key not in self.attributes: self.attributes[key] = [] *)
  let stored := versions self key in
  (* existing = next((attr for attr in ... if attr.value == value), None) *)
  match list_find (λ attr, Attribute.value attr = value) stored with
  | Some (i, existing) =>
      with_attributes self
        (<[key := <[i := reobserve confidence now existing]> stored]>
           (attributes self))
  | None =>
      with_attributes self
        (<[key := stored ++ [Attribute.new key value source confidence now]]>
           (attributes self))
  end.

(** [max(xs, key=k)]: the first element whose key is maximal; [ValueError]
    on an empty sequence. *)
Definition py_max {A : Type} (key_gt : A → A → bool) (xs : list A) : outcome A :=
  match xs with
  | [] => Raise ValueError
  | x :: xs => Ok (fold_left (λ best y, if key_gt y best then y else best) xs x)
  end.

(** [a.timestamp > b.timestamp] *)
Definition timestamp_gt (a b : Attribute.t Value) : bool :=
  Attribute.timestamp b <? Attribute.timestamp a.

(** [(a.confidence.value, a.timestamp) > (b.confidence.value, b.timestamp)]:
    tuples compare lexicographically. *)
Definition confidence_timestamp_gt (a b : Attribute.t Value) : bool :=
  match String.compare (confidence_value (Attribute.confidence a))
                       (confidence_value (Attribute.confidence b)) with
  | Gt => true
  | Lt => false
  | Eq => timestamp_gt a b
  end.

(** [def get_latest_attribute(self, key)] *)
Definition get_latest_attribute (self : t Value) (key : string)
    : outcome (option (Attribute.t Value)) :=
  match attributes self !! key with
  | None => Ok None
  | Some [] => Ok None
  | Some xs => best ← py_max timestamp_gt xs; mret (Some best)
  end.

(** [def get_best_attribute(self, key)] *)
Definition get_best_attribute (self : t Value) (key : string)
    : outcome (option (Attribute.t Value)) :=
  match attributes self !! key with
  | None => Ok None
  | Some [] => Ok None
  | Some xs => best ← py_max confidence_timestamp_gt xs; mret (Some best)
  end.

End methods.
End Entity.

(** [class Relationship(BaseModel)] *)
Module Relationship.
Record t (Value : Type) : Type := mk {
  id : string;
  type : RelationType;
  source_entity_id : string;
  target_entity_id : string;
  attributes : gmap string Value;
  confidence : ConfidenceLevel;
  temporal_context : option string;
  created_at : Z;
  updated_at : Z;
  source : string
}.
Arguments mk {Value}.
Arguments id {Value}.
Arguments type {Value}.
Arguments source_entity_id {Value}.
Arguments target_entity_id {Value}.
Arguments attributes {Value}.
Arguments confidence {Value}.
Arguments temporal_context {Value}.
Arguments created_at {Value}.
Arguments updated_at {Value}.
Arguments source {Value}.

Definition with_confidence {Value} (r : t Value) (c : ConfidenceLevel) : t Value :=
  mk (id r) (type r) (source_entity_id r) (target_entity_id r) (attributes r) c
     (temporal_context r) (created_at r) (updated_at r) (source r).
Definition with_updated_at {Value} (r : t Value) (ts : Z) : t Value :=
  mk (id r) (type r) (source_entity_id r) (target_entity_id r) (attributes r)
     (confidence r) (temporal_context r) (created_at r) ts (source r).
End Relationship.

End Models.

(** ** services/knowledge_graph.py *)

Module Graph.
Import Models.

(** The mutable state of a [KnowledgeGraphManager] ([self.entities],
    [self.relationships]) together with the number of clock reads made so
    far. *)
Record State (Value : Type) : Type := mkState {
  entities : gmap string (Entity.t Value);
  relationships : list (Relationship.t Value);
  clock_reads : nat
}.
Arguments mkState {Value}.
Arguments entities {Value}.
Arguments relationships {Value}.
Arguments clock_reads {Value}.

(** Computations of the manager: they may change the state and may raise.
    The state reached when an exception is raised is kept, as in Python. *)
Definition M (Value A : Type) : Type := State Value → outcome A * State Value.

#[global] Instance M_ret {Value} : MRet (M Value) := λ A a s, (Ok a, s).
#[global] Instance M_bind {Value} : MBind (M Value) := λ A B f m s,
  match m s with
  | (Ok a, s') => f a s'
  | (Raise e, s') => (Raise e, s')
  end.

(** [for x in xs: body(x)] *)
Fixpoint for_each {Value A} (xs : list A) (body : A → M Value ()) : M Value () :=
  match xs with
  | [] => mret ()
  | x :: xs => body x;; for_each xs body
  end.

(** [self.canonical_mappings] *)
Definition canonical_mappings (ty : EntityType) : option (gmap string string) :=
  match ty with
  | PERSON => Some (<["work" := "Professional Journey.md"]>
                   (<["personal" := "Personal Info.md"]>
                   (<["projects" := "Projects.md"]> ∅)))
  | ORGANIZATION => Some {["default" := "Professional Journey.md"]}
  | PROJECT => Some {["default" := "Projects.md"]}
  | _ => None
  end.

(** [d[k]]: [KeyError] when the key is absent. *)
Definition subscript (d : gmap string string) (k : string) : outcome string :=
  match d !! k with Some v => Ok v | None => Raise KeyError end.

Definition work_attrs : list string := ["job"; "position"; "company"; "work"].
Definition personal_attrs : list string := ["family"; "hobby"; "personal"].

(** [(np.array(a) + np.array(b)) / 2).tolist()] on one-dimensional arrays:
    element-wise when the lengths agree, broadcast when one of them is 1,
    [ValueError] otherwise. *)
Definition np_mean (a b : list Q) : outcome (list Q) :=
  let mean (x y : Q) : Q := ((x + y) / 2)%Q in
  if decide (length a = length b) then Ok (zip_with mean a b)
  else match a, b with
       | [x], _ => Ok (map (mean x) b)
       | _, [y] => Ok (map (λ x, mean x y) a)
       | _, _ => Raise ValueError
       end.

(** Truth value of an [Optional[List[float]]]. *)
Definition truthy (v : option (list Q)) : bool :=
  match v with Some (_ :: _) => true | _ => false end.

Section manager.
Context {Value : Type} `{!EqDecision Value}.
(** [utc n] is what the clock shows at its [n]-th read. *)
Variable utc : nat → Z.

Definition utcnow : M Value Z := λ s,
  (Ok (utc (clock_reads s)),
   mkState (entities s) (relationships s) (S (clock_reads s))).

Definition lift {A} (o : outcome A) : M Value A := λ s, (o, s).

(** [self.entities.get(k)] *)
Definition get_entity (k : string) : M Value (option (Entity.t Value)) := λ s,
  (Ok (entities s !! k), s).

(** [self.entities[k] = e] *)
Definition put_entity (k : string) (e : Entity.t Value) : M Value () := λ s,
  (Ok (), mkState (<[k := e]> (entities s)) (relationships s) (clock_reads s)).

(** A mutation of the entity object stored under [k]: the store holds the
    object itself, so the mutation is visible there at once. *)
Definition modify_entity (k : string) (f : Entity.t Value → Entity.t Value)
    : M Value () := λ s,
  (Ok (), mkState (alter f k (entities s)) (relationships s) (clock_reads s)).

(** [async def merge_entity(self, new_entity, source)] *)
Definition merge_entity (new_entity : Entity.t Value) (source : string)
    : M Value (Entity.t Value) :=
  let k := Entity.id new_entity in
  existing ← get_entity k;
  match existing with
  | None =>
      put_entity k new_entity;;
      mret new_entity
  | Some _ =>
      (* Merge attributes *)
      for_each (map_to_list (Entity.attributes new_entity)) (λ '(key, attributes),
        for_each attributes (λ attr,
          now ← utcnow;
          modify_entity k (λ existing,
            Entity.add_attribute existing key (Attribute.value attr) source
              (Attribute.confidence attr) now)));;
      (* Update aliases if new ones found *)
      for_each (Entity.aliases new_entity) (λ alias,
        modify_entity k (λ existing,
          if decide (alias ∈ Entity.aliases existing) then existing
          else Entity.with_aliases existing (Entity.aliases existing ++ [alias])));;
      (* Update embeddings (average them) *)
      existing ← get_entity k;
      match existing with
      | Some existing =>
          (if truthy (Entity.embeddings new_entity) && truthy (Entity.embeddings existing)
           then
             v ← lift (np_mean (default [] (Entity.embeddings existing))
                               (default [] (Entity.embeddings new_entity)));
             modify_entity k (λ existing, Entity.with_embeddings existing (Some v))
           else mret ());;
          now ← utcnow;
          modify_entity k (λ existing, Entity.with_updated_at existing now);;
          merged ← get_entity k;
          mret (default existing merged)
      | None => mret new_entity (* unreachable: the key was found above *)
      end
  end.

(** The duplicate test of [add_relationship]. *)
Definition same_triple (a b : Relationship.t Value) : Prop :=
  Relationship.source_entity_id a = Relationship.source_entity_id b
  ∧ Relationship.target_entity_id a = Relationship.target_entity_id b
  ∧ Relationship.type a = Relationship.type b.

#[global] Instance same_triple_dec a b : Decision (same_triple a b).
Proof. unfold same_triple. apply _. Defined.

(** [async def add_relationship(self, relationship)] *)
Definition add_relationship (relationship : Relationship.t Value) : M Value () := λ s,
  match list_find (λ r, same_triple r relationship) (relationships s) with
  | None =>
      (Ok (), mkState (entities s) (relationships s ++ [relationship]) (clock_reads s))
  | Some (i, existing) =>
      let existing :=
        if confidence_value_gt (Relationship.confidence relationship)
                               (Relationship.confidence existing)
        then Relationship.with_confidence existing (Relationship.confidence relationship)
        else existing in
      let existing := Relationship.with_updated_at existing (utc (clock_reads s)) in
      (Ok (), mkState (entities s) (<[i := existing]> (relationships s))
                      (S (clock_reads s)))
  end.

(** The destination of one entity in [determine_canonical_locations]:
    [None] when the loop body leaves [file_mappings] untouched. *)
Definition canonical_location (entity : Entity.t Value) : outcome (option string) :=
  match canonical_mappings (Entity.type entity) with
  | Some mappings =>
      if decide (Entity.type entity = PERSON) then
        let has_work :=
          existsb (λ key, bool_decide (key ∈ dom (Entity.attributes entity))) work_attrs in
        let has_personal :=
          existsb (λ key, bool_decide (key ∈ dom (Entity.attributes entity))) personal_attrs in
        if has_work then f ← subscript mappings "work"; mret (Some f)
        else if has_personal then f ← subscript mappings "personal"; mret (Some f)
        else f ← subscript mappings "personal"; mret (Some f)
      else Ok (Some (default "Knowledge Base.md" (mappings !! "default")))
  | None => Ok None
  end.

(** [async def determine_canonical_locations(self, entities)] *)
Fixpoint determine_canonical_locations_from (file_mappings : gmap string string)
    (entities : list (Entity.t Value)) : outcome (gmap string string) :=
  match entities with
  | [] => Ok file_mappings
  | entity :: entities =>
      loc ← canonical_location entity;
      determine_canonical_locations_from
        (match loc with
         | Some f => <[Entity.id entity := f]> file_mappings
         | None => file_mappings
         end) entities
  end.

Definition determine_canonical_locations (entities : list (Entity.t Value))
    : outcome (gmap string string) :=
  determine_canonical_locations_from ∅ entities.

(** The loop of [resolve_conflicts]:
    [for key, attributes in entity.attributes.items():
         best = max(attributes, key=lambda x: (x.confidence.value, x.timestamp))
         resolved_attributes[key] = [best]] *)
Definition resolved_attributes (attrs : gmap string (list (Attribute.t Value)))
    : outcome (gmap string (list (Attribute.t Value))) :=
  map_fold (λ key attributes acc,
      resolved ← acc;
      best ← Entity.py_max Entity.confidence_timestamp_gt attributes;
      mret (<[key := [best]]> resolved))
    (Ok ∅) attrs.

(** [async def resolve_conflicts(self, entity_id)] *)
Definition resolve_conflicts (entity_id : string) : M Value (option (Entity.t Value)) :=
  entity ← get_entity entity_id;
  match entity with
  | None => mret None
  | Some entity =>
      resolved ← lift (resolved_attributes (Entity.attributes entity));
      modify_entity entity_id (λ entity, Entity.with_attributes entity resolved);;
      entity ← get_entity entity_id;
      mret entity
  end.

(** The operations that change attribute histories, as a caller may issue
    them one after the other. *)
Inductive op : Type :=
| OpMerge (new_entity : Entity.t Value) (source : string)
| OpAddAttribute (entity_id key : string) (value : Value) (source : string)
    (confidence : ConfidenceLevel)
| OpResolve (entity_id : string).

Definition run_op (o : op) : M Value () :=
  match o with
  | OpMerge new_entity source => merge_entity new_entity source;; mret ()
  | OpAddAttribute entity_id key value source confidence =>
      now ← utcnow;
      modify_entity entity_id (λ e, Entity.add_attribute e key value source confidence now)
  | OpResolve entity_id => resolve_conflicts entity_id;; mret ()
  end.

Definition run_ops (os : list op) : M Value () := for_each os run_op.

(** What [query_knowledge] returns: the dict [results]. *)
Record query_results : Type := mk_query_results {
  results_entities : list (Entity.kwargs Value);
  results_relationships : list (Relationship.t Value);
  results_suggested_files : list string
}.

Section query.
(** The cosine similarity of the embedding of the query with the embedding
    of an entity, as numpy computes it: [ValueError] when the two have
    different dimensions. *)
Variable similarity : list Q → outcome Q.

(** The loop of [query_knowledge] over [self.entities.items()]. *)
Fixpoint entity_scores (items : list (string * Entity.t Value))
    : outcome (list (Entity.t Value * Q)) :=
  match items with
  | [] => Ok []
  | (entity_id, entity) :: items =>
      if truthy (Entity.embeddings entity) then
        similarity ← similarity (default [] (Entity.embeddings entity));
        entity_scores ← entity_scores items;
        mret ((entity, similarity) :: entity_scores)
      else entity_scores items
  end.

(** [async def query_knowledge(self, context)]; [max_results] and
    [include_related] are the fields of [context] that are read.  The order
    of [list(set(..))] is not specified by Python; the model takes the one of
    [elements]. *)
Definition query_knowledge (max_results : Z) (include_related : bool)
    : M Value query_results := λ s,
  (* Find relevant entities by similarity *)
  (entity_scores ← entity_scores (map_to_list (entities s));
   (* Sort by similarity and filter by threshold *)
   let entity_scores := sorted_reverse snd entity_scores in
   let relevant_entities :=
     (* [if score > 0.3] *)
     (filter (λ x, Qle_bool x.2 (3 # 10) = false)
        (slice_to max_results entity_scores)).*1 in
   (* Get relationships for relevant entities *)
   let relevant_relationships :=
     if include_related then
       let entity_ids : gset string := list_to_set (Entity.id <$> relevant_entities) in
       filter (λ r, Relationship.source_entity_id r ∈ entity_ids
                    ∨ Relationship.target_entity_id r ∈ entity_ids)
         (relationships s)
     else [] in
   (* Suggest files to search *)
   file_mappings ← determine_canonical_locations relevant_entities;
   mret (mk_query_results (Entity.dict <$> relevant_entities) relevant_relationships
           (elements (list_to_set (map_to_list file_mappings).*2 : gset string))),
   s).

End query.

End manager.
End Graph.

(** ** server.py *)

Module Server.
Import Models Graph.

(** What a handler gives back to the HTTP layer: a success body, or an
    [HTTPException], which the framework turns into an error response. *)
Inductive response (A : Type) : Type :=
| Success (data : A)
| HTTPException (status_code : Z) (detail : string).
Arguments Success {A} data.
Arguments HTTPException {A} status_code detail.

Section handlers.
Context {Value : Type} `{!EqDecision Value}.

(** [@app.post("/resolve-conflicts/{entity_id}")] *)
Definition resolve_entity_conflicts (entity_id : string)
    : M Value (response (Entity.kwargs Value)) :=
  entity ← resolve_conflicts entity_id;
  match entity with
  | None => mret (HTTPException 404 ("Entity " +:+ entity_id +:+ " not found"))
  | Some entity => mret (Success (Entity.dict entity))
  end.

(** [@app.put("/entities/{entity_id}")]; [attributes] and [source] are the
    fields of the request.  [add_attribute] is called without a confidence,
    that is, with its default [HIGH]. *)
Definition update_entity (utc : nat → Z) (entity_id : string)
    (attributes : gmap string Value) (source : string)
    : M Value (response (Entity.kwargs Value)) :=
  entity ← get_entity entity_id;
  match entity with
  | None => mret (HTTPException 404 ("Entity " +:+ entity_id +:+ " not found"))
  | Some _ =>
      (* Add attributes *)
      for_each (map_to_list attributes) (λ '(key, value),
        now ← utcnow utc;
        modify_entity entity_id (λ entity,
          Entity.add_attribute entity key value source HIGH now));;
      (* Resolve conflicts if needed *)
      entity ← resolve_conflicts entity_id;
      match entity with
      | Some entity => mret (Success (Entity.dict entity))
      | None =>
          (* not reached: the id was found above; [None.dict()] would end
             the request with status 500 *)
          mret (HTTPException 500 "Internal Server Error")
      end
  end.

End handlers.
End Server.

(** ** knowledge_agents.py *)

Module Agents.

Inductive EntityType : Type :=
| PERSON | ORGANIZATION | LOCATION | CONCEPT | EVENT | OBJECT.

Inductive InformationStatus : Type :=
| CURRENT | HISTORICAL | PLANNED | UNCERTAIN.

(** [class Confidence(BaseModel)]: [value] is a float in [0, 1]. *)
Module Confidence.
Record t : Type := mk {
  value : Q;
  source : string;
  timestamp : Z
}.
End Confidence.

(** [a > b] on scores. *)
Definition Qgt_bool (a b : Q) : bool := negb (Qle_bool a b).

(** [class Entity(BaseModel)] *)
Module Entity.
Record t (Value : Type) : Type := mk {
  id : string;
  type : EntityType;
  canonical_name : string;
  aliases : list string;
  properties : gmap string Value;
  embeddings : option (list Q);
  confidence : Confidence.t;
  created_at : Z;
  updated_at : Z
}.
Arguments mk {Value}.
Arguments id {Value}.
Arguments type {Value}.
Arguments canonical_name {Value}.
Arguments aliases {Value}.
Arguments properties {Value}.
Arguments embeddings {Value}.
Arguments confidence {Value}.
Arguments created_at {Value}.
Arguments updated_at {Value}.

(** [def merge_with(self, other)]; [self] is mutated and returned.  The order
    of [list(set(..))] is not specified by Python; the model takes the one of
    [elements]. *)
Definition merge_with {Value} (self other : t Value) (now : Z) : t Value :=
  let properties :=
    map_fold (λ key value properties,
        match properties !! key with
        | None => <[key := value]> properties
        | Some _ =>
            if Qgt_bool (Confidence.value (confidence other))
                        (Confidence.value (confidence self))
            then <[key := value]> properties
            else properties
        end)
      (properties self) (properties other) in
  let aliases :=
    elements (list_to_set (aliases self ++ aliases other) : gset string) in
  mk (id self) (type self) (canonical_name self) aliases properties
     (embeddings self) (confidence self) (created_at self) now.
End Entity.

Section agents.
Context {Value : Type}.

(** [CanonicalLocationAgent.routing_rules]: a dict of dicts of lambdas. *)
Definition routing_rules (status : InformationStatus)
    : option (EntityType → option (Entity.t Value → string)) :=
  match status with
  | CURRENT => Some (λ ty,
      match ty with
      | PERSON => Some (λ e, "entities/person/" +:+ Entity.id e +:+ "/current.json")
      | ORGANIZATION => Some (λ e, "entities/org/" +:+ Entity.id e +:+ "/current.json")
      | _ => None
      end)
  | HISTORICAL => Some (λ ty,
      match ty with
      | PERSON => Some (λ e, "entities/person/" +:+ Entity.id e +:+ "/history.json")
      | ORGANIZATION => Some (λ e, "entities/org/" +:+ Entity.id e +:+ "/history.json")
      | _ => None
      end)
  | _ => None
  end.

(** The fallback of [CanonicalLocationAgent.process]. *)
Definition generic_location (entity_id : string) : string :=
  "entities/generic/" +:+ entity_id +:+ "/data.json".

(** [CanonicalLocationAgent.process(self, entity, status)]:
    [rule = self.routing_rules.get(status, {}).get(entity.type)] *)
Definition route (entity : Entity.t Value) (status : InformationStatus) : string :=
  match default (λ _, None) (routing_rules status) (Entity.type entity) with
  | Some rule => rule entity
  | None => generic_location (Entity.id entity)
  end.

(** [ConflictResolutionAgent.resolve_by_time(self, old, new)] *)
Definition resolve_by_time (old new : Entity.t Value) : Entity.t Value := new.

(** [ConflictResolutionAgent.resolve_by_confidence(self, low, high)] *)
Definition resolve_by_confidence (low high : Entity.t Value) : Entity.t Value := high.

(** [ConflictResolutionAgent.resolve_by_detail(self, sparse, detailed)] *)
Definition resolve_by_detail (sparse detailed : Entity.t Value) (now : Z)
    : Entity.t Value :=
  if decide (size (Entity.properties sparse) < size (Entity.properties detailed))%nat
  then Entity.merge_with detailed sparse now
  else Entity.merge_with sparse detailed now.

Definition trusted_sources : list string :=
  ["user_input"; "verified_api"; "official_document"].

(** [ConflictResolutionAgent.resolve_by_source(self, a, b)] *)
Definition resolve_by_source (a b : Entity.t Value) : Entity.t Value :=
  if decide (Confidence.source (Entity.confidence a) ∈ trusted_sources) then a else b.

(** [ConflictResolutionAgent.process(self, existing, incoming)] *)
Definition process (existing incoming : Entity.t Value) (now : Z) : Entity.t Value :=
  if Entity.updated_at existing <? Entity.updated_at incoming then
    resolve_by_time existing incoming
  else if Qgt_bool (Confidence.value (Entity.confidence incoming))
                   (Confidence.value (Entity.confidence existing)) then
    resolve_by_confidence existing incoming
  else
    Entity.merge_with existing incoming now.

End agents.

(** [a / b] on two [int]s: [ZeroDivisionError] when [b] is zero. *)
Inductive quotient : Type :=
| Quotient (q : Q)
| ZeroDivisionError.

Definition true_div (a b : nat) : quotient :=
  if decide (b = 0)%nat then ZeroDivisionError
  else Quotient (Z.of_nat a # Pos.of_nat b).

Section memory.
Context {Value : Type} `{!EqDecision Value}.

(** [KnowledgeAgent.get_confidence_for_action(self, action)] *)
Definition get_confidence_for_action (success_patterns : list (gmap string Value))
    (action : Value) : quotient :=
  (* successes = [p for p in self.success_patterns if p.get('action') == action] *)
  let successes := filter (λ p, p !! "action" = Some action) success_patterns in
  match successes with
  | [] => Quotient (1 # 2)
  | _ => true_div (length successes) (length success_patterns)
  end.

End memory.
End Agents.

(** ** enhanced_knowledge_service.py: retrieval *)

Module Search.

(** A search result: the dict built by [semantic_search], [keyword_search]
    and [entity_search].  [type] names the strategy that found it. *)
Module Result.
Record t : Type := mk {
  id : string;
  title : string;
  content : string;
  score : Q;
  type : string;
  matched_entity : option string
}.
End Result.

(** [def deduplicate_results(self, results)] *)
Fixpoint deduplicate_results_from (seen : gset string) (results : list Result.t)
    : list Result.t :=
  match results with
  | [] => []
  | result :: results =>
      if decide (Result.id result ∈ seen) then deduplicate_results_from seen results
      else result :: deduplicate_results_from ({[Result.id result]} ∪ seen) results
  end.

Definition deduplicate_results (results : list Result.t) : list Result.t :=
  deduplicate_results_from ∅ results.

(** [{'semantic': 1.0, 'keyword': 0.8, 'entity': 1.2}.get(type, 1.0)] *)
Definition weight (type : string) : Q :=
  if decide (type = "semantic") then 1
  else if decide (type = "keyword") then 8 # 10
  else if decide (type = "entity") then 12 # 10
  else 1.

(** An entry of the [combined] table of [rank_results].  An entry is made at
    the first access of [combined[doc_id]], with score 0, and its [result] is
    set at once to the result at hand. *)
Module Combined.
Record t : Type := mk {
  score : Q;
  result : Result.t
}.
End Combined.

(** One turn of the loop of [rank_results]; [combined] is a dict, in
    insertion order. *)
Fixpoint combine (combined : list (string * Combined.t)) (result : Result.t)
    : list (string * Combined.t) :=
  let weighted := (Result.score result * weight (Result.type result))%Q in
  match combined with
  | [] => [(Result.id result, Combined.mk (0 + weighted)%Q result)]
  | (doc_id, entry) :: rest =>
      if decide (doc_id = Result.id result)
      then (doc_id, Combined.mk (Combined.score entry + weighted)%Q
                      (Combined.result entry)) :: rest
      else (doc_id, entry) :: combine rest result
  end.

(** The [combined] table after the loop. *)
Definition combined_scores (results : list Result.t) : list (string * Combined.t) :=
  fold_left combine results [].

(** [def rank_results(self, results, query)] *)
Definition rank_results (results : list Result.t) : list Result.t :=
  let ranked := sorted_reverse Combined.score (map snd (combined_scores results)) in
  map Combined.result ranked.

(** [rank_results] with the arithmetic of the interpreter.  Python holds the
    weights, the products and the sums in binary64: [literal q] is the float
    that the literal written for [q] denotes, [fmul] and [fadd] are the
    rounded product and sum.  With exact arithmetic these definitions are
    [weight], [combine], [combined_scores] and [rank_results] above. *)
Section float_ranking.
Variable literal : Q → Q.
Variable fmul fadd : Q → Q → Q.

Definition weight_float (type : string) : Q :=
  if decide (type = "semantic") then literal 1
  else if decide (type = "keyword") then literal (8 # 10)
  else if decide (type = "entity") then literal (12 # 10)
  else literal 1.

Fixpoint combine_float (combined : list (string * Combined.t)) (result : Result.t)
    : list (string * Combined.t) :=
  let weighted := fmul (Result.score result) (weight_float (Result.type result)) in
  match combined with
  | [] => [(Result.id result, Combined.mk (fadd 0 weighted) result)]
  | (doc_id, entry) :: rest =>
      if decide (doc_id = Result.id result)
      then (doc_id, Combined.mk (fadd (Combined.score entry) weighted)
                      (Combined.result entry)) :: rest
      else (doc_id, entry) :: combine_float rest result
  end.

Definition combined_scores_float (results : list Result.t)
    : list (string * Combined.t) :=
  fold_left combine_float results [].

Definition rank_results_float (results : list Result.t) : list Result.t :=
  let ranked :=
    sorted_reverse Combined.score (map snd (combined_scores_float results)) in
  map Combined.result ranked.

End float_ranking.

(** [def search_knowledge(self, query, search_type='hybrid')].
    [embedder] tells whether [self.embedder] is set; [semantic], [keyword]
    and [entity] are what [semantic_search], [keyword_search] and
    [entity_search] return for the query (they read the document store). *)
Definition search_knowledge (embedder : bool)
    (semantic keyword entity : list Result.t) (search_type : string)
    : list Result.t :=
  let results := [] in
  let results :=
    if bool_decide (search_type ∈ ["semantic"; "hybrid"]) && embedder
    then results ++ semantic else results in
  let results :=
    if bool_decide (search_type ∈ ["keyword"; "hybrid"])
    then results ++ keyword else results in
  let results :=
    if bool_decide (search_type ∈ ["entity"; "hybrid"])
    then results ++ entity else results in
  (* Deduplicate and rank results *)
  let unique_results := deduplicate_results results in
  let ranked_results := rank_results unique_results in
  take 10 ranked_results.

(** An entity as [extract_entities] builds it and as it is read back from
    the [entities] column of a document: a dict.  [deduplicate_entities]
    reads the keys [name], [canonical_name] and [confidence], which a dict
    may lack. *)
Module EntityDict.
Record t : Type := mk {
  id : string;
  type : string;
  name : option string;
  canonical_name : option string;
  confidence : option Q
}.
End EntityDict.

Section deduplicate_entities.
(** [str.lower] *)
Variable lower : string → string.

(** [entity.get('canonical_name', entity['name']).lower()]: the default
    [entity['name']] is evaluated before [get] is called, so that a dict
    without [name] raises [KeyError] even when it has a [canonical_name]. *)
Definition canonical (entity : EntityDict.t) : outcome string :=
  match EntityDict.name entity with
  | None => Raise KeyError
  | Some name => Ok (lower (default name (EntityDict.canonical_name entity)))
  end.

(** The loop of [deduplicate_entities], with its dict [seen] and its list
    [unique]. *)
Fixpoint deduplicate_entities_from (seen : gmap string EntityDict.t)
    (unique : list EntityDict.t) (entities : list EntityDict.t)
    : outcome (list EntityDict.t) :=
  match entities with
  | [] => Ok unique
  | entity :: entities =>
      canonical ← canonical entity;
      match seen !! canonical with
      | None =>
          deduplicate_entities_from (<[canonical := entity]> seen) (unique ++ [entity])
            entities
      | Some existing =>
          (* Merge attributes if needed *)
          if Agents.Qgt_bool (default 0%Q (EntityDict.confidence entity))
                             (default 0%Q (EntityDict.confidence existing))
          then deduplicate_entities_from (<[canonical := entity]> seen) unique entities
          else deduplicate_entities_from seen unique entities
      end
  end.

(** [def deduplicate_entities(self, entities)] *)
Definition deduplicate_entities (entities : list EntityDict.t)
    : outcome (list EntityDict.t) :=
  deduplicate_entities_from ∅ [] entities.

End deduplicate_entities.

End Search.

(** ** coding_knowledge_service.py: retrieval *)

Module CodeSearch.

(** A result of [search_code]: [type] is the table name, [id] the record id.
    Keyword results carry [text] and [metadata], semantic ones do not. *)
Module Result.
Record t : Type := mk {
  type : string;
  id : Z;
  text : option string;
  metadata : option (gmap string string);
  score : Q
}.
End Result.

(** A row of the full-text index, with its metadata already decoded. *)
Module Row.
Record t : Type := mk {
  table_name : string;
  record_id : Z;
  searchable_text : string;
  metadata : option (gmap string string)
}.
End Row.

(** The result made from a row of the full-text query. *)
Definition of_row (row : Row.t) : Result.t :=
  Result.mk (Row.table_name row) (Row.record_id row)
    (Some (String.substring 0 500 (Row.searchable_text row)))
    (Some (default ∅ (Row.metadata row)))
    1.

(** [f"{result['type']}_{result['id']}"] *)
Definition dedup_key (result : Result.t) : string :=
  Result.type result +:+ "_" +:+ str_of_int (Result.id result).

(** The deduplication loop of [search_code]. *)
Fixpoint unique_results_from (seen : gset string) (results : list Result.t)
    : list Result.t :=
  match results with
  | [] => []
  | result :: results =>
      let key := dedup_key result in
      if decide (key ∈ seen) then unique_results_from seen results
      else result :: unique_results_from ({[key]} ∪ seen) results
  end.

(** The columns of the full-text table, as [init_database] creates it:
    [CREATE VIRTUAL TABLE IF NOT EXISTS search_fts
       USING fts5(table_name, record_id, searchable_text, content=search_index)]. *)
Definition search_fts_columns : list string :=
  ["table_name"; "record_id"; "searchable_text"].

(** The columns that the full-text query of [search_code] selects:
    [SELECT table_name, record_id, searchable_text, metadata FROM search_fts
     WHERE searchable_text MATCH ? LIMIT ?]. *)
Definition selected_columns : list string :=
  ["table_name"; "record_id"; "searchable_text"; "metadata"].

(** [cursor.execute(query, (query, limit))] followed by [cursor.fetchall()].
    [fts_columns] are the columns of the table [search_fts] in the database
    file and [fts_rows] the rows that the query matches.  sqlite3 raises
    [OperationalError] (no such column) for a column that the table does not
    have; [search_code] does not catch it. *)
Definition fts_query (fts_columns : list string) (fts_rows : list Row.t)
    : outcome (list Row.t) :=
  if forallb (λ column, bool_decide (column ∈ fts_columns)) selected_columns
  then Ok fts_rows
  else Raise OperationalError.

(** [def search_code(self, query, search_type='hybrid', limit=10)].
    [fts_columns] and [fts_rows] are the arguments of [fts_query];
    [embeddings_available] is the flag [EMBEDDINGS_AVAILABLE];
    [query_embedding] tells whether [_generate_embedding] gave an embedding
    (not [None]); [code_examples] and [api_references] are what the two calls
    of [_semantic_search] return. *)
Definition search_code (fts_columns : list string) (fts_rows : list Row.t)
    (embeddings_available query_embedding : bool)
    (code_examples api_references : list Result.t)
    (search_type : string) (limit : Z) : outcome (list Result.t) :=
  let results := [] in
  results ←
    (if bool_decide (search_type ∈ ["keyword"; "hybrid"])
     then
       (* Full-text search *)
       rows ← fts_query fts_columns fts_rows;
       mret (results ++ map of_row rows)
     else mret results);
  let results :=
    if bool_decide (search_type ∈ ["semantic"; "hybrid"]) && embeddings_available
    then
      if query_embedding then (results ++ code_examples) ++ api_references
      else results
    else results in
  (* Remove duplicates and sort by relevance *)
  let unique_results := unique_results_from ∅ results in
  let unique_results := sorted_reverse Result.score unique_results in
  mret (slice_to limit unique_results).

Section semantic_search.
(** The cosine similarity of a stored embedding (bytes) with the embedding
    of the query, as numpy computes it: [ValueError] for bytes that are no
    array of [float32] or an array of another dimension than the query. *)
Variable similarity : list Byte.byte → outcome Q.

(** The loop of [_semantic_search] over the rows [(id, embeddings)] of the
    table. *)
Fixpoint semantic_results (table_name : string) (rows : list (Z * list Byte.byte))
    : outcome (list Result.t) :=
  match rows with
  | [] => Ok []
  | (row_id, embedding_bytes) :: rows =>
      match embedding_bytes with
      | [] => semantic_results table_name rows
      | _ =>
          similarity ← similarity embedding_bytes;
          results ← semantic_results table_name rows;
          (* Threshold for relevance *)
          mret (if Agents.Qgt_bool similarity (5 # 10)
                then Result.mk table_name row_id None None similarity :: results
                else results)
      end
  end.

(** [def _semantic_search(self, cursor, table_name, query_embedding, limit)] *)
Definition semantic_search (table_name : string) (rows : list (Z * list Byte.byte))
    (limit : Z) : outcome (list Result.t) :=
  results ← semantic_results table_name rows;
  (* Sort by similarity and return top results *)
  mret (slice_to limit (sorted_reverse Result.score results)).

End semantic_search.

End CodeSearch.

(** ** enhanced_knowledge_service.py: merging of content *)

Module Content.

(** [s[:n]], [s[n:]] and [s[-n:]] (for [n ≥ 1]) on [str]. *)
Fixpoint slice_until (n : nat) (s : string) : string :=
  match n, s with
  | S n, String c s => String c (slice_until n s)
  | _, _ => ""
  end.

Fixpoint slice_from (n : nat) (s : string) : string :=
  match n, s with
  | S n, String _ s => slice_from n s
  | _, _ => s
  end.

Definition slice_last (n : nat) (s : string) : string :=
  slice_from (String.length s - n) s.

(** [sub in s] *)
Fixpoint contains (s sub : string) : bool :=
  String.prefix sub s ||
  match s with
  | "" => false
  | String _ s => contains s sub
  end.

(** The loop of [find_overlap]: [for i in range(i, 0, -1)]. *)
Fixpoint find_overlap_from (i : nat) (text1 text2 : string) : string :=
  match i with
  | O => ""
  | S j =>
      if decide (slice_last i text1 = slice_until i text2) then slice_until i text2
      else find_overlap_from j text1 text2
  end.

(** [def find_overlap(self, text1, text2)] *)
Definition find_overlap (text1 text2 : string) : string :=
  let max_overlap := (String.length text1 `min` String.length text2)%nat in
  find_overlap_from max_overlap text1 text2.

Definition newline : string := String (ascii_of_nat 10) "".
Definition separator : string := newline +:+ newline +:+ "---" +:+ newline +:+ newline.

(** [def merge_content(self, existing, new)].  The test
    [len(overlap) > len(new) * 0.5] is exact on these sizes: it is
    [2 * len(overlap) > len(new)]. *)
Definition merge_content (existing new : string) : string :=
  if contains existing new then existing
  else
    let overlap := find_overlap existing new in
    if decide (String.length new < 2 * String.length overlap)%nat
    then existing +:+ slice_from (String.length overlap) new
    else existing +:+ separator +:+ new.

End Content.

(** ** coding_knowledge_service.py: solutions for an error message *)

Module ErrorSearch.
Import CodeSearch.

Definition stop_words : list string :=
  ["the"; "is"; "at"; "which"; "on"; "a"; "an"; "as"; "are"; "was"; "were";
   "been"; "be"].

Definition error_keywords : list string :=
  ["error"; "exception"; "fix"; "solution"; "resolve"; "handle"].

Section error_search.
(** [str.lower], and [re.findall(pattern, ·)] for the pattern of
    [_extract_error_terms]. *)
Variable lower : string → string.
Variable findall : string → list string.

(** [def _extract_error_terms(self, error_message)] *)
Definition extract_error_terms (error_message : string) : list string :=
  filter (λ term, (lower term ∉ stop_words) ∧ (2 < String.length term)%nat)
    (findall error_message).

(** [def _is_error_relevant(self, result, error_message)] *)
Definition is_error_relevant (result : Result.t) (error_message : string) : bool :=
  let text_lower := lower (default "" (Result.text result)) in
  (* Check for error-related keywords *)
  existsb (λ keyword, Content.contains text_lower keyword) error_keywords
  (* Check if error terms appear in the result *)
  || existsb (λ term, Content.contains text_lower (lower term))
       (extract_error_terms error_message).

(** [def search_by_error(self, error_message)].  The other arguments are
    those of the model of [search_code], for the call
    [search_code(' '.join(error_terms), 'hybrid', limit=20)]; an exception
    of that call is not caught. *)
Definition search_by_error (fts_columns : list string) (fts_rows : list Row.t)
    (embeddings_available query_embedding : bool)
    (code_examples api_references : list Result.t) (error_message : string)
    : outcome (list Result.t) :=
  results ←
    search_code fts_columns fts_rows embeddings_available query_embedding
      code_examples api_references "hybrid" 20;
  mret (List.filter (λ result, is_error_relevant result error_message) results).

End error_search.
End ErrorSearch.

(** * Sample data and auxiliary notions used in the statements *)

(** The rank of a level in the order the specification names:
    verified > high > medium > low > uncertain. *)
Definition ordinal (c : Models.ConfidenceLevel) : Z :=
  match c with
  | Models.VERIFIED => 4 | Models.HIGH => 3 | Models.MEDIUM => 2 | Models.LOW => 1 | Models.UNCERTAIN => 0
  end.

(** The rank of a level in the order of the strings:
    "verified" > "uncertain" > "medium" > "low" > "high". *)
Definition lexical (c : Models.ConfidenceLevel) : Z :=
  match c with
  | Models.VERIFIED => 4 | Models.UNCERTAIN => 3 | Models.MEDIUM => 2 | Models.LOW => 1 | Models.HIGH => 0
  end.

(** Julian, a person with a [company] attribute, is filed under the work
    destination. *)
Definition julian : Models.Entity.t string :=
  Models.Entity.mk "person_julian" Models.PERSON "Julian" []
    {["company" := [Models.Attribute.mk "company" "Apple" Models.HIGH "user" 10 1]]}
    None None Models.HIGH 10 10 [].

(** Two versions of one entity: [version_A] is the older and the more
    confident, [version_B] the newer and the less confident. *)
Definition version_A : Agents.Entity.t string :=
  Agents.Entity.mk "person_julian" Agents.PERSON "Julian" []
    {["employer" := "Apple"]} None (Agents.Confidence.mk (9 # 10) "user" 10) 10 10.

Definition version_B : Agents.Entity.t string :=
  Agents.Entity.mk "person_julian" Agents.PERSON "Julian" []
    {["employer" := "Google"]} None (Agents.Confidence.mk (3 # 10) "user" 20) 20 20.


(** ** Notions used to state how attribute histories evolve *)

Section history.
Import Models.
Context {Value : Type}.

(** Two records of one observation: the key, the value, the source and the
    version number agree (the confidence and the timestamp may differ). *)
Definition same_observation (a a' : Attribute.t Value) : Prop :=
  Attribute.key a' = Attribute.key a
  ∧ Attribute.value a' = Attribute.value a
  ∧ Attribute.source a' = Attribute.source a
  ∧ Attribute.version a' = Attribute.version a.

(** [new] keeps every version of [old], in place, and may have more. *)
Definition history_extends (old new : list (Attribute.t Value)) : Prop :=
  (length old ≤ length new)%nat
  ∧ ∀ i a, old !! i = Some a → ∃ a', new !! i = Some a' ∧ same_observation a a'.

End history.

Section evolution.
Import Models Graph.
Context {Value : Type}.
(** A relation between an entity and what it has become. *)
Variable R : Entity.t Value → Entity.t Value → Prop.
(** The number of clock reads from which on the readings are constrained. *)
Variable n0 : nat.

(** From [s] to [s'] the clock has not gone back and every stored entity is
    still stored, related by [R] to what it was. *)
Definition evolves (s s' : State Value) : Prop :=
  (clock_reads s ≤ clock_reads s')%nat
  ∧ ∀ k e, entities s !! k = Some e → ∃ e', entities s' !! k = Some e' ∧ R e e'.

(** The computation [m], started after [n0] clock reads or more, makes the
    state evolve, and a value it returns satisfies [post]. *)
Definition keeps {A : Type} (post : A → Prop) (m : M Value A) : Prop :=
  ∀ s o s', (n0 ≤ clock_reads s)%nat → m s = (o, s') →
    evolves s s' ∧ ∀ a, o = Ok a → post a.

End evolution.

Definition is_resolve {Value : Type} (o : Graph.op (Value := Value)) : bool :=
  match o with Graph.OpResolve _ => true | _ => false end.

(** ** Sample states of the graph manager *)

(** A clock that shows 100 at its first read and advances by one tick per
    read. *)
Definition sample_clock (n : nat) : Z := 100 + Z.of_nat n.

Definition apple : Models.Attribute.t string :=
  Models.Attribute.mk "company" "Apple" Models.HIGH "user" 10 1.
Definition google : Models.Attribute.t string :=
  Models.Attribute.mk "company" "Google" Models.HIGH "user" 20 1.

(** Julian with two versions of [company]. *)
Definition julian_two_companies : Models.Entity.t string :=
  Models.Entity.mk "person_julian" Models.PERSON "Julian" []
    {["company" := [apple; google]]} None None Models.HIGH 10 20 [].

Definition store_julian : Graph.State string :=
  Graph.mkState {["person_julian" := julian_two_companies]} [] 0.

(** Clara, whose key [nickname] maps to an empty version list. *)
Definition clara : Models.Entity.t string :=
  Models.Entity.mk "person_clara" Models.PERSON "Clara" []
    {["nickname" := []]} None None Models.HIGH 10 10 [].

Definition store_clara : Graph.State string :=
  Graph.mkState {["person_clara" := clara]} [] 0.

(** A [works_at] relationship, stored with confidence [HIGH], and the same
    relationship observed again with confidence [LOW]. *)
Definition works_at_high : Models.Relationship.t string :=
  Models.Relationship.mk "rel_person_julian_organization_apple_works_at"
    Models.WORKS_AT "person_julian" "organization_apple" ∅ Models.HIGH None 10 10
    "user".
Definition works_at_low : Models.Relationship.t string :=
  Models.Relationship.mk "rel_person_julian_organization_apple_works_at"
    Models.WORKS_AT "person_julian" "organization_apple" ∅ Models.LOW None 50 50
    "user".

Definition store_works_at : Graph.State string :=
  Graph.mkState ∅ [works_at_high] 0.

(** The keyword arguments of a freshly extracted entity, with a stale
    [updated_at] supplied by the caller. *)
Definition kwargs_julian : Models.Entity.kwargs string :=
  Models.Entity.mk_kwargs "person_julian" Models.PERSON "Julian" None None None
    None None None (Some 3) None.

(** ** Notions and sample data for retrieval *)

(** The deduplication loop of both services, for any key: the first result
    with each key is kept. *)
Fixpoint dedup_from {A K : Type} `{Countable K} (key : A → K) (seen : gset K)
    (xs : list A) : list A :=
  match xs with
  | [] => []
  | x :: xs =>
      if decide (key x ∈ seen) then dedup_from key seen xs
      else x :: dedup_from key ({[key x]} ∪ seen) xs
  end.

(** [r] is, in [found], the first result with its key. *)
Definition first_with_key {A K : Type} `{EqDecision K} (key : A → K)
    (found : list A) (r : A) : Prop :=
  ∃ i, list_find (λ x, key x = key r) found = Some (i, r).

(** The sum of the weighted scores of the results in [found] that have the
    document id [doc_id]. *)
Definition weighted_sum (doc_id : string) (found : list Search.Result.t) : Q :=
  foldr (λ r acc,
      if decide (Search.Result.id r = doc_id)
      then (Search.Result.score r * Search.weight (Search.Result.type r) + acc)%Q
      else acc)
    0%Q found.

(** The combined score that the table of [rank_results] holds for a document
    id (0 when it holds none). *)
Fixpoint combined_score (doc_id : string)
    (combined : list (string * Search.Combined.t)) : Q :=
  match combined with
  | [] => 0%Q
  | (k, entry) :: rest =>
      if decide (k = doc_id) then Search.Combined.score entry
      else combined_score doc_id rest
  end.

(** Document A is found by the semantic and by the keyword strategy,
    document B by the keyword strategy only. *)
Definition doc_a_semantic : Search.Result.t :=
  Search.Result.mk "doc_a" "Apple" "Julian works at Apple" (6 # 10) "semantic" None.
Definition doc_a_keyword : Search.Result.t :=
  Search.Result.mk "doc_a" "Apple" "Julian works at Apple" 3 "keyword" None.
Definition doc_b_keyword : Search.Result.t :=
  Search.Result.mk "doc_b" "Pears" "Apple and pear" 2 "keyword" None.

(** * Notions used for the further properties of the code *)

(** The order of Python tuples of two integers. *)
Definition lex_lt (p q : Z * Z) : Prop :=
  p.1 < q.1 ∨ (p.1 = q.1 ∧ p.2 < q.2).

(** The key of [get_latest_attribute], as a pair. *)
Definition latest_rank {Value : Type} (a : Models.Attribute.t Value) : Z * Z :=
  (0, Models.Attribute.timestamp a).

(** The key of [get_best_attribute] and of [resolve_conflicts], with the
    confidence given by its place in the order of the strings. *)
Definition best_rank {Value : Type} (a : Models.Attribute.t Value) : Z * Z :=
  (lexical (Models.Attribute.confidence a), Models.Attribute.timestamp a).

Section triples.
Import Graph.
Context {Value : Type}.

(** Started in a state that satisfies [pre], the computation [m] ends with a
    result and a state that satisfy [post]. *)
Definition triple {A : Type} (pre : State Value → Prop) (m : M Value A)
    (post : outcome A → State Value → Prop) : Prop :=
  ∀ s, pre s → post (m s).1 (m s).2.

(** [m] keeps the invariant [inv], whether it returns or raises. *)
Definition preserves {A : Type} (inv : State Value → Prop) (m : M Value A) : Prop :=
  triple inv m (λ _ s, inv s).

(** The invariant does not depend on the number of clock reads. *)
Definition clock_free (inv : State Value → Prop) : Prop :=
  ∀ s n, inv s → inv (mkState (entities s) (relationships s) n).

(** The store is keyed by the ids of the entities. *)
Definition keyed_by_id (s : State Value) : Prop :=
  ∀ k e, entities s !! k = Some e → Models.Entity.id e = k.

(** The fields of an entity that say what it is. *)
Definition same_identity (e e' : Models.Entity.t Value) : Prop :=
  Models.Entity.id e' = Models.Entity.id e
  ∧ Models.Entity.type e' = Models.Entity.type e
  ∧ Models.Entity.name e' = Models.Entity.name e
  ∧ Models.Entity.canonical_file e' = Models.Entity.canonical_file e
  ∧ Models.Entity.confidence e' = Models.Entity.confidence e
  ∧ Models.Entity.created_at e' = Models.Entity.created_at e
  ∧ Models.Entity.sources e' = Models.Entity.sources e.

End triples.

(** The mutations that the manager makes on a stored entity. *)
Inductive entity_step {Value : Type} `{!EqDecision Value}
    : (Models.Entity.t Value → Models.Entity.t Value) → Prop :=
| step_add_attribute key value source confidence now :
    entity_step (λ e, Models.Entity.add_attribute e key value source confidence now)
| step_alias alias :
    entity_step (λ e,
      if decide (alias ∈ Models.Entity.aliases e) then e
      else Models.Entity.with_aliases e (Models.Entity.aliases e ++ [alias]))
| step_embeddings v :
    entity_step (λ e, Models.Entity.with_embeddings e v)
| step_updated_at now :
    entity_step (λ e, Models.Entity.with_updated_at e now)
| step_attributes attrs :
    entity_step (λ e, Models.Entity.with_attributes e attrs).

(** The triple that identifies a relationship in [add_relationship]. *)
Definition relation_triple {Value : Type} (r : Models.Relationship.t Value)
    : string * string * Models.RelationType :=
  (Models.Relationship.source_entity_id r, Models.Relationship.target_entity_id r,
   Models.Relationship.type r).

Section merge_phases.
Import Models Graph.
Context {Value : Type} `{!EqDecision Value}.
Variable utc : nat → Z.

(** Started in a state that satisfies [pre], the computation [m] returns (it
    does not raise) a result and a state that satisfy [post]. *)
Definition returns {A : Type} (pre : State Value → Prop) (m : M Value A)
    (post : A → State Value → Prop) : Prop :=
  triple pre m (λ o s, ∃ a, o = Ok a ∧ post a s).

(** An entity with the property [P] is stored under [k]. *)
Definition stored_with (k : string) (P : Entity.t Value → Prop) (s : State Value)
    : Prop :=
  ∃ e, entities s !! k = Some e ∧ P e.

(** Some version of [key] holds the value [v]. *)
Definition has_value (e : Entity.t Value) (key : string) (v : Value) : Prop :=
  v ∈ Attribute.value <$> Entity.versions e key.

(** The three parts of [merge_entity] when the id is stored already. *)
Definition merge_attributes (k : string) (new_entity : Entity.t Value)
    (source : string) : M Value () :=
  for_each (map_to_list (Entity.attributes new_entity)) (λ '(key, attributes),
    for_each attributes (λ attr,
      now ← utcnow utc;
      modify_entity k (λ existing,
        Entity.add_attribute existing key (Attribute.value attr) source
          (Attribute.confidence attr) now))).

Definition merge_aliases (k : string) (new_entity : Entity.t Value) : M Value () :=
  for_each (Entity.aliases new_entity) (λ alias,
    modify_entity k (λ existing,
      if decide (alias ∈ Entity.aliases existing) then existing
      else Entity.with_aliases existing (Entity.aliases existing ++ [alias]))).

Definition merge_embeddings (k : string) (new_entity : Entity.t Value)
    : M Value (Entity.t Value) :=
  existing ← get_entity k;
  match existing with
  | Some existing =>
      (if truthy (Entity.embeddings new_entity) && truthy (Entity.embeddings existing)
       then
         v ← lift (np_mean (default [] (Entity.embeddings existing))
                           (default [] (Entity.embeddings new_entity)));
         modify_entity k (λ existing, Entity.with_embeddings existing (Some v))
       else mret ());;
      now ← utcnow utc;
      modify_entity k (λ existing, Entity.with_updated_at existing now);;
      merged ← get_entity k;
      mret (default existing merged)
  | None => mret new_entity
  end.

End merge_phases.

(** The key under which [deduplicate_entities] files an entity that has a
    name: its canonical name, or else its name, in lower case. *)
Definition canonical_key (lower : string → string) (entity : Search.EntityDict.t)
    : string :=
  lower (default (default "" (Search.EntityDict.name entity))
           (Search.EntityDict.canonical_name entity)).

(** [str.lower] on ASCII text. *)
Definition lower_ascii (c : ascii) : ascii :=
  let n := nat_of_ascii c in
  if (65 <=? n)%nat && (n <=? 90)%nat then ascii_of_nat (n + 32) else c.

Fixpoint lowercase (s : string) : string :=
  match s with
  | "" => ""
  | String c s => String (lower_ascii c) (lowercase s)
  end.

(** Two extracted entities with the same canonical name; the second one is
    the more confident. *)
Definition apple_inc : Search.EntityDict.t :=
  Search.EntityDict.mk "org_1" "organization" (Some "Apple Inc") (Some "apple")
    (Some (7 # 10)).
Definition apple_upper : Search.EntityDict.t :=
  Search.EntityDict.mk "org_2" "organization" (Some "APPLE") (Some "Apple")
    (Some (9 # 10)).

(** A semantic hit, as [_semantic_search] builds it, and a row of the
    full-text index. *)
Definition semantic_hit : CodeSearch.Result.t :=
  CodeSearch.Result.mk "code_examples" 7 None None (9 # 10).
Definition error_row : CodeSearch.Row.t :=
  CodeSearch.Row.mk "api_references" 3 "How to handle a KeyError" None.

(** The rules of [CanonicalLocationAgent]: the four registered ones and the
    generic fallback, with the text each puts before and after the id. *)
Inductive destination_kind : Type :=
| PersonCurrent | OrganizationCurrent | PersonHistorical | OrganizationHistorical
| GenericData.

Definition kind_of (ty : Agents.EntityType) (status : Agents.InformationStatus)
    : destination_kind :=
  match status, ty with
  | Agents.CURRENT, Agents.PERSON => PersonCurrent
  | Agents.CURRENT, Agents.ORGANIZATION => OrganizationCurrent
  | Agents.HISTORICAL, Agents.PERSON => PersonHistorical
  | Agents.HISTORICAL, Agents.ORGANIZATION => OrganizationHistorical
  | _, _ => GenericData
  end.

Definition kind_prefix (k : destination_kind) : string :=
  match k with
  | PersonCurrent | PersonHistorical => "entities/person/"
  | OrganizationCurrent | OrganizationHistorical => "entities/org/"
  | GenericData => "entities/generic/"
  end.

Definition kind_suffix (k : destination_kind) : string :=
  match k with
  | PersonCurrent | OrganizationCurrent => "/current.json"
  | PersonHistorical | OrganizationHistorical => "/history.json"
  | GenericData => "/data.json"
  end.

(** A stored person with an embedding, for [query_knowledge]. *)
Definition ada : Models.Entity.t string :=
  Models.Entity.mk "person_ada" Models.PERSON "Ada" []
    {["company" := [Models.Attribute.mk "company" "Apple" Models.HIGH "user" 10 1]]}
    (Some [1%Q; 0%Q]) None Models.HIGH 10 10 [].

Definition store_ada : Graph.State string :=
  Graph.mkState {["person_ada" := ada]} [works_at_high] 0.

(** The score that the loop of [rank_results] reaches for a document id: the
    weighted scores of the results with that id are added one after the
    other, in the order of the results, with the arithmetic of the
    interpreter (0 when there is no such result). *)
Definition accumulated (literal : Q → Q) (fmul fadd : Q → Q → Q)
    (doc_id : string) (found : list Search.Result.t) : Q :=
  fold_left (λ acc r,
      if decide (Search.Result.id r = doc_id)
      then fadd acc (fmul (Search.Result.score r)
                       (Search.weight_float literal (Search.Result.type r)))
      else acc)
    found 0%Q.

(** Vienna, stored in the graph with the declared type [LOCATION]. *)
Definition vienna : Models.Entity.t string :=
  Models.Entity.mk "location_vienna" Models.LOCATION "Vienna" [] ∅ None None
    Models.HIGH 10 10 [].
(** * Properties *)

(** ** Merging of content ([merge_content], [find_overlap]) *)

Section content_facts.
Import Content.

Lemma append_cons (ch : ascii) (a b : string) :
  String ch a +:+ b = String ch (a +:+ b).
Proof. reflexivity. Qed.

Lemma append_empty_l (a : string) : "" +:+ a = a.
Proof. reflexivity. Qed.

Lemma append_assoc (a b c : string) : (a +:+ b) +:+ c = a +:+ (b +:+ c).
Proof.
  induction a as [|ch a IH]; [done |].
  by rewrite !append_cons, IH.
Qed.

Lemma append_empty_r (a : string) : a +:+ "" = a.
Proof.
  induction a as [|ch a IH]; [done |].
  by rewrite append_cons, IH.
Qed.

Lemma prefix_append (sub rest : string) : String.prefix sub (sub +:+ rest) = true.
Proof.
  induction sub as [|ch sub IH]; [by destruct rest |].
  rewrite append_cons. simpl. by destruct (ascii_dec ch ch).
Qed.

Lemma contains_prefix (s sub : string) :
  String.prefix sub s = true → contains s sub = true.
Proof. intros H. destruct s; cbn [contains]; by rewrite H. Qed.

(** [contains] finds every occurrence of a substring. *)
Lemma contains_infix (before sub after : string) :
  contains (before +:+ sub +:+ after) sub = true.
Proof.
  induction before as [|ch before IH].
  - rewrite append_empty_l. apply contains_prefix, prefix_append.
  - rewrite append_cons. cbn [contains]. rewrite IH. apply orb_true_r.
Qed.

Lemma slice_until_from (n : nat) (s : string) :
  slice_until n s +:+ slice_from n s = s.
Proof.
  revert s. induction n as [|n IH]; intros [|ch s]; simpl; try done.
  by rewrite append_cons, IH.
Qed.

Lemma slice_from_length (s : string) : slice_from (String.length s) s = "".
Proof. induction s as [|ch s IH]; simpl; done. Qed.

(** What [find_overlap] returns is a prefix of [text2] that [text1] ends
    with. *)
Lemma find_overlap_from_spec (i : nat) (text1 text2 : string) :
  ∃ n, find_overlap_from i text1 text2 = slice_until n text2
       ∧ slice_last n text1 = slice_until n text2.
Proof.
  induction i as [|i IH]; simpl.
  - exists 0%nat. unfold slice_last.
    rewrite Nat.sub_0_r, slice_from_length. by destruct text2.
  - case_decide as Heq; [by exists (S i) | done].
Qed.

Lemma find_overlap_spec (text1 text2 : string) :
  ∃ before, text1 = before +:+ find_overlap text1 text2
    ∧ find_overlap text1 text2
        +:+ slice_from (String.length (find_overlap text1 text2)) text2 = text2.
Proof.
  destruct (find_overlap_from_spec
              (String.length text1 `min` String.length text2) text1 text2)
    as (n & Hov & Hlast).
  unfold find_overlap. rewrite Hov.
  exists (slice_until (String.length text1 - n) text1). split.
  - rewrite <- Hlast. unfold slice_last. by rewrite slice_until_from.
  - clear. revert text2. induction n as [|n IH]; intros [|c t]; simpl; try done.
    by rewrite append_cons, IH.
Qed.

(** After a merge the new content occurs in the result. *)
Lemma merge_content_contains (existing new : string) :
  contains (merge_content existing new) new = true.
Proof.
  unfold merge_content.
  destruct (contains existing new) eqn:Hin; [done |].
  case_decide.
  - destruct (find_overlap_spec existing new) as (before & Hbefore & Hnew).
    set (rest := slice_from _ new) in *.
    transitivity (contains (before +:+ new +:+ "") new);
      [| apply contains_infix].
    f_equal. rewrite append_empty_r, <- Hnew at 1.
    rewrite <- append_assoc. by rewrite <- Hbefore.
  - rewrite <- append_assoc.
    rewrite <- (append_empty_r new) at 1. apply contains_infix.
Qed.

(** Merging the same content a second time changes nothing. *)
Lemma merge_content_twice (existing new : string) :
  merge_content (merge_content existing new) new = merge_content existing new.
Proof.
  unfold merge_content at 1. by rewrite merge_content_contains.
Qed.

(** C10. Appending content that already occurs in the existing content
    returns the existing content unchanged; whatever the two strings are, the
    result of [merge_content] starts with the existing content; and appending
    the same content once more changes nothing. *)
Theorem merge_content_idempotent_prefix (existing new : string) :
  ((∃ before after, existing = before +:+ new +:+ after) →
     merge_content existing new = existing)
  ∧ (∃ appended, merge_content existing new = existing +:+ appended)
  ∧ merge_content (merge_content existing new) new = merge_content existing new.
Proof.
  split; [| split].
  - intros (before & after & ->). unfold merge_content.
    by rewrite contains_infix.
  - unfold merge_content.
    destruct (contains existing new).
    + exists "". by rewrite append_empty_r.
    + case_decide; eauto.
  - apply merge_content_twice.
Qed.

Lemma merge_content_idempotent_prefix_witness :
  merge_content "Julian works at Apple" "works" = "Julian works at Apple".
Proof.
  apply (proj1 (merge_content_idempotent_prefix "Julian works at Apple" "works")).
  by exists "Julian ", " at Apple".
Defined.

End content_facts.

(** ** Routing to canonical locations *)

Section agent_routing_facts.
Import Agents.
Context {Value : Type}.

Lemma append_not_empty (ch : ascii) (a b : string) : String ch a +:+ b ≠ "".
Proof. by rewrite append_cons. Qed.

(** The rules that are registered: persons and organisations, for the
    statuses [CURRENT] and [HISTORICAL]. *)
Lemma routing_rules_registered (status : InformationStatus) (ty : EntityType) :
  is_Some (routing_rules (Value := Value) status ≫= λ rules, rules ty)
  ↔ (status = CURRENT ∨ status = HISTORICAL) ∧ (ty = PERSON ∨ ty = ORGANIZATION).
Proof.
  destruct status, ty; simpl; split;
    try (intros [? [=]]); try (intros [[[=]|[=]] [[=]|[=]]]); eauto.
Qed.

End agent_routing_facts.

Section graph_routing_facts.
Import Models Graph.
Context {Value : Type} `{!EqDecision Value}.

Lemma existsb_bool_decide_dom (keys : gset string) (vocabulary : list string) :
  existsb (λ key, bool_decide (key ∈ keys)) vocabulary = true
  ↔ keys ∩ list_to_set vocabulary ≠ ∅.
Proof.
  rewrite existsb_exists. split.
  - intros (key & Hin & Hdom). apply bool_decide_eq_true in Hdom.
    apply list_elem_of_In in Hin. set_solver.
  - intros [key [Hdom Hin]%elem_of_intersection]%set_choose_L.
    apply elem_of_list_to_set in Hin.
    exists key. split; [by apply list_elem_of_In | by apply bool_decide_eq_true].
Qed.

(** The loop body of [determine_canonical_locations] on a person. *)
Lemma canonical_location_person (entity : Entity.t Value) :
  Entity.type entity = PERSON →
  canonical_location entity
  = Ok (Some (if decide (dom (Entity.attributes entity) ∩ list_to_set work_attrs ≠ ∅)
              then "Professional Journey.md" else "Personal Info.md")).
Proof.
  intros Hty. unfold canonical_location. rewrite Hty. cbn [canonical_mappings].
  case_decide; [| done].
  destruct (existsb _ work_attrs) eqn:Hwork.
  - apply existsb_bool_decide_dom in Hwork. case_decide; [reflexivity | done].
  - case_decide as Hne.
    + apply existsb_bool_decide_dom in Hne. congruence.
    + destruct (existsb _ personal_attrs); reflexivity.
Qed.

(** The loop body never raises. *)
Lemma canonical_location_ok (entity : Entity.t Value) :
  ∃ loc, canonical_location entity = Ok loc.
Proof.
  unfold canonical_location.
  destruct (Entity.type entity) eqn:Hty; cbn [canonical_mappings];
    try case_decide; try done; eauto.
  destruct (existsb _ work_attrs); [eauto |].
  destruct (existsb _ personal_attrs); eauto.
Qed.

Lemma determine_canonical_locations_from_spec
    (entities : list (Entity.t Value)) (file_mappings : gmap string string) :
  ∃ result,
    determine_canonical_locations_from file_mappings entities = Ok result
    ∧ (∀ entity f,
         entity ∈ entities →
         (∀ other, other ∈ entities → Entity.id other = Entity.id entity →
                   other = entity) →
         canonical_location entity = Ok (Some f) →
         result !! Entity.id entity = Some f)
    ∧ (∀ k, k ∉ map Entity.id entities → result !! k = file_mappings !! k).
Proof.
  revert file_mappings.
  induction entities as [|x entities IH]; intros file_mappings.
  - exists file_mappings. split; [done |].
    split; [by intros ? ? ?%elem_of_nil | done].
  - simpl. destruct (canonical_location_ok x) as [loc Hloc]. rewrite Hloc. simpl.
    destruct (IH (match loc with
                  | Some f => <[Entity.id x := f]> file_mappings
                  | None => file_mappings
                  end)) as (result & Hres & Hin & Hout).
    exists result. split; [done |]. split.
    + intros entity f Hentity Hunique Hf.
      assert (Hrest : entity ∈ entities → result !! Entity.id entity = Some f).
      { intros He. apply Hin; [done | | done].
        intros other Hother. apply Hunique. by apply list_elem_of_further. }
      apply elem_of_cons in Hentity as [->|He]; [| by apply Hrest].
      destruct (decide (Entity.id x ∈ map Entity.id entities)) as [Hdup|Hfresh].
      * apply list_elem_of_fmap in Hdup as (other & Hid & Hother).
        apply Hrest. rewrite <- (Hunique other); [done | | done].
        by apply list_elem_of_further.
      * rewrite Hout by done. rewrite Hloc in Hf. injection Hf as ->.
        apply lookup_insert_eq.
    + intros k [Hk1 Hk2]%not_elem_of_cons. rewrite Hout by done.
      destruct loc; [by rewrite lookup_insert_ne | done].
Qed.

(** [determine_canonical_locations] never raises. *)
Lemma determine_canonical_locations_ok (entities : list (Entity.t Value)) :
  ∃ file_mappings, determine_canonical_locations entities = Ok file_mappings.
Proof.
  destruct (determine_canonical_locations_from_spec entities ∅) as (m & Hm & _).
  eauto.
Qed.

(** C7. In [determine_canonical_locations] a person goes to the work
    destination when one of its attribute keys is in the work vocabulary
    (whether or not a personal key is there too), and to the personal
    destination otherwise: when a key is in the personal vocabulary, and also
    when no key of either vocabulary is present.  The entity is any member of
    the list given to the router, provided no other entity of the list bears
    its id. *)
Theorem person_routing (entities : list (Entity.t Value)) (entity : Entity.t Value) :
  entity ∈ entities →
  (∀ other, other ∈ entities → Entity.id other = Entity.id entity → other = entity) →
  Entity.type entity = PERSON →
  let keys := dom (Entity.attributes entity) in
  let work : gset string := {["job"; "position"; "company"; "work"]} in
  let personal : gset string := {["family"; "hobby"; "personal"]} in
  ∃ file_mappings,
    determine_canonical_locations entities = Ok file_mappings
    ∧ (keys ∩ work ≠ ∅ →
         file_mappings !! Entity.id entity = Some "Professional Journey.md")
    ∧ (keys ∩ work = ∅ → keys ∩ personal ≠ ∅ →
         file_mappings !! Entity.id entity = Some "Personal Info.md")
    ∧ (keys ∩ work = ∅ → keys ∩ personal = ∅ →
         file_mappings !! Entity.id entity = Some "Personal Info.md").
Proof.
  intros Hin Hunique Hty keys work personal.
  destruct (determine_canonical_locations_from_spec entities ∅)
    as (file_mappings & Hres & Hloc & _).
  exists file_mappings. split; [done |].
  pose proof (canonical_location_person entity Hty) as Hperson.
  assert (Hwork : list_to_set work_attrs = work).
  { unfold work_attrs, work. simpl. by rewrite (right_id_L ∅ (∪)). }
  rewrite Hwork in Hperson. fold keys in Hperson.
  repeat split.
  - intros Hne. apply Hloc; [done | done |]. by rewrite Hperson, decide_True.
  - intros He _. apply Hloc; [done | done |].
    rewrite Hperson, decide_False; [done |]. by intros [].
  - intros He _. apply Hloc; [done | done |].
    rewrite Hperson, decide_False; [done |]. by intros [].
Qed.

End graph_routing_facts.

Lemma person_routing_witness :
  ∃ file_mappings,
    Graph.determine_canonical_locations [julian] = Ok file_mappings
    ∧ file_mappings !! "person_julian" = Some "Professional Journey.md".
Proof.
  destruct (person_routing [julian] julian) as (file_mappings & Hres & Hwork & _).
  - apply list_elem_of_singleton. reflexivity.
  - intros other Hother%list_elem_of_singleton _. exact Hother.
  - reflexivity.
  - exists file_mappings. split; [exact Hres |].
    apply Hwork. apply (bool_decide_unpack _). vm_compute. exact I.
Defined.

Section unregistered_types.
Import Models Graph.
Context {Value : Type} `{!EqDecision Value}.

(** [determine_canonical_locations] has no status argument and no generic
    fallback: an entity whose type has no entry in [canonical_mappings] gets
    no destination. *)
Lemma canonical_location_unregistered (entity : Entity.t Value) :
  canonical_mappings (Entity.type entity) = None →
  canonical_location entity = Ok None.
Proof. intros H. unfold canonical_location. by rewrite H. Qed.

End unregistered_types.

(** ** Conflict resolution between two versions of an entity *)

Section agent_conflict_facts.
Import Agents.
Context {Value : Type}.

(** C2, amended. In [ConflictResolutionAgent.process] the temporal test comes
    first: when the incoming version is strictly newer than the existing one
    it wins outright, whatever the two confidences are. *)
Theorem process_incoming_newer_wins (existing incoming : Entity.t Value) (now : Z) :
  Entity.updated_at existing < Entity.updated_at incoming →
  process existing incoming now = incoming.
Proof.
  intros Hnewer. unfold process, resolve_by_time.
  by rewrite (proj2 (Z.ltb_lt _ _) Hnewer).
Qed.

(** When the incoming version is not newer, its confidence decides: a
    strictly higher one makes it win. *)
Lemma process_incoming_more_confident (existing incoming : Entity.t Value) (now : Z) :
  Entity.updated_at incoming ≤ Entity.updated_at existing →
  (Confidence.value (Entity.confidence existing)
     < Confidence.value (Entity.confidence incoming))%Q →
  process existing incoming now = incoming.
Proof.
  intros Hold Hconf. unfold process, resolve_by_confidence, Qgt_bool.
  rewrite (proj2 (Z.ltb_ge _ _) Hold).
  destruct (Qle_bool _ _) eqn:Hle; [| done].
  apply Qle_bool_iff in Hle. by apply Qle_not_lt in Hle.
Qed.

(** Otherwise the existing version is kept and the incoming one is merged
    into it. *)
Lemma process_existing_kept (existing incoming : Entity.t Value) (now : Z) :
  Entity.updated_at incoming ≤ Entity.updated_at existing →
  (Confidence.value (Entity.confidence incoming)
     <= Confidence.value (Entity.confidence existing))%Q →
  process existing incoming now = Entity.merge_with existing incoming now.
Proof.
  intros Hold Hconf. unfold process, Qgt_bool.
  rewrite (proj2 (Z.ltb_ge _ _) Hold).
  by rewrite (proj2 (Qle_bool_iff _ _) Hconf).
Qed.

End agent_conflict_facts.

Lemma process_incoming_newer_wins_witness :
  Agents.process version_A version_B 30 = version_B.
Proof. apply process_incoming_newer_wins. reflexivity. Defined.

(** C2, as stated, fails: when the newer version is the stored one and the
    older version comes in with a strictly higher confidence, [process] gives
    the older version. *)
Lemma process_older_incoming_wins :
  Agents.Entity.id version_A = Agents.Entity.id version_B
  ∧ Agents.Entity.updated_at version_A < Agents.Entity.updated_at version_B
  ∧ (Agents.Confidence.value (Agents.Entity.confidence version_B)
       < Agents.Confidence.value (Agents.Entity.confidence version_A))%Q
  ∧ Agents.process version_B version_A 30 = version_A.
Proof. repeat split. Qed.

(** [resolve_conflicts] of the graph manager orders the versions of a key by
    confidence first and by timestamp second: an older version of higher
    confidence is kept rather than a newer one. *)
Lemma resolve_conflicts_confidence_first :
  Models.Entity.py_max Models.Entity.confidence_timestamp_gt
    [Models.Attribute.mk "company" "Apple" Models.VERIFIED "user" 10 1;
     Models.Attribute.mk "company" "Google" Models.LOW "user" 20 1]
  = Ok (Models.Attribute.mk (Value := string) "company" "Apple" Models.VERIFIED "user" 10 1).
Proof. reflexivity. Qed.

(** ** The order on confidence levels that the code uses *)

Section confidence_order.
Import Models.

(** [a.value > b.value] compares the names of the levels as strings. *)
Lemma confidence_value_gt_lexical (a b : ConfidenceLevel) :
  confidence_value_gt a b = bool_decide (lexical b < lexical a).
Proof. by destruct a, b. Qed.

End confidence_order.

(** ** [Entity.add_attribute] and the version lists *)

Section attribute_facts.
Import Models.
Context {Value : Type} `{!EqDecision Value}.
Implicit Types (self : Entity.t Value) (a : Attribute.t Value).

Lemma same_observation_refl a : same_observation a a.
Proof. by repeat split. Qed.

Lemma same_observation_trans a b c :
  same_observation a b → same_observation b c → same_observation a c.
Proof. unfold same_observation. intros (?&?&?&?) (?&?&?&?). repeat split; congruence. Qed.

Lemma history_extends_refl (l : list (Attribute.t Value)) : history_extends l l.
Proof. split; [done |]. intros i a Hi. eauto using same_observation_refl. Qed.

Lemma history_extends_trans (l1 l2 l3 : list (Attribute.t Value)) :
  history_extends l1 l2 → history_extends l2 l3 → history_extends l1 l3.
Proof.
  intros [Hlen12 H12] [Hlen23 H23]. split; [lia |].
  intros i a Hi. destruct (H12 i a Hi) as (b & Hb & Hab).
  destruct (H23 i b Hb) as (c & Hc & Hbc).
  eauto using same_observation_trans.
Qed.

Lemma same_observation_reobserve confidence now a :
  same_observation a (Entity.reobserve confidence now a).
Proof. unfold Entity.reobserve. by destruct (confidence_value_gt _ _). Qed.

(** The version lists after [add_attribute]. *)
Lemma versions_add_attribute self key value source confidence now k :
  Entity.versions (Entity.add_attribute self key value source confidence now) k
  = if decide (k = key) then
      match list_find (λ attr, Attribute.value attr = value)
                      (Entity.versions self key) with
      | Some (i, existing) =>
          <[i := Entity.reobserve confidence now existing]> (Entity.versions self key)
      | None =>
          Entity.versions self key
            ++ [Attribute.new key value source confidence now]
      end
    else Entity.versions self k.
Proof.
  unfold Entity.add_attribute.
  destruct (list_find _ _) as [[i existing]|] eqn:Hfind;
    unfold Entity.versions at 1; simpl;
    (case_decide as Hk; [subst k; by rewrite lookup_insert_eq
                        | by rewrite lookup_insert_ne]).
Qed.

(** One call of [add_attribute]: no version list gets shorter, every version
    keeps its place and its observation, and only the version whose value is
    observed again is touched. *)
Lemma add_attribute_history self key value source confidence now k :
  let self' := Entity.add_attribute self key value source confidence now in
  (length (Entity.versions self k) ≤ length (Entity.versions self' k))%nat
  ∧ ∀ i a, Entity.versions self k !! i = Some a →
      ∃ a', Entity.versions self' k !! i = Some a'
            ∧ same_observation a a'
            ∧ (k ≠ key ∨ Attribute.value a ≠ value → a' = a).
Proof.
  intros self'. unfold self'. rewrite versions_add_attribute.
  case_decide as Hk; [subst k |].
  - destruct (list_find _ _) as [[j existing]|] eqn:Hfind.
    + apply list_find_Some in Hfind as (Hj & Hvalue & _).
      split; [by rewrite length_insert |].
      intros i a Hi. destruct (decide (i = j)) as [->|Hij].
      * rewrite Hj in Hi. injection Hi as <-.
        exists (Entity.reobserve confidence now existing). split.
        { apply list_lookup_insert_eq. by eapply lookup_lt_Some. }
        split; [apply same_observation_reobserve |].
        by intros [?|?].
      * exists a. rewrite list_lookup_insert_ne by done.
        eauto using same_observation_refl.
    + split; [rewrite length_app; lia |].
      intros i a Hi. exists a. rewrite lookup_app_l by by eapply lookup_lt_Some.
      eauto using same_observation_refl.
  - split; [done |]. intros i a Hi. exists a. eauto using same_observation_refl.
Qed.

Lemma add_attribute_history_extends self key value source confidence now k :
  history_extends (Entity.versions self k)
    (Entity.versions (Entity.add_attribute self key value source confidence now) k).
Proof.
  destruct (add_attribute_history self key value source confidence now k)
    as [Hlen Hkeep].
  split; [done |]. intros i a Hi. destruct (Hkeep i a Hi) as (a' & ? & ? & _). eauto.
Qed.

(** [max] gives an element of the sequence. *)
Lemma py_max_elem_of {A : Type} (key_gt : A → A → bool) (xs : list A) (best : A) :
  Entity.py_max key_gt xs = Ok best → best ∈ xs.
Proof.
  destruct xs as [|x xs]; [done |]. simpl. intros [= <-].
  revert x. induction xs as [|y xs IH]; intros x; simpl; [apply list_elem_of_here |].
  destruct (key_gt y x).
  - apply list_elem_of_further, IH.
  - specialize (IH x). apply elem_of_cons in IH as [->|?];
      [apply list_elem_of_here | by do 2 apply list_elem_of_further].
Qed.

(** [max] raises on the empty sequence only. *)
Lemma py_max_raises {A : Type} (key_gt : A → A → bool) (xs : list A) (e : exn) :
  Entity.py_max key_gt xs = Raise e ↔ xs = [] ∧ e = ValueError.
Proof.
  destruct xs; simpl; split.
  - by intros [= <-].
  - by intros [_ ->].
  - intros [=].
  - by intros [[=] _].
Qed.

End attribute_facts.

(** ** The graph manager: what its operations keep *)

Section manager_facts.
Import Models Graph.
Context {Value : Type} `{!EqDecision Value}.
Variable utc : nat → Z.

Lemma bind_get_entity {A} (k : string) (f : option (Entity.t Value) → M Value A)
    (s : State Value) :
  (get_entity k ≫= f) s = f (entities s !! k) s.
Proof. reflexivity. Qed.

Lemma bind_put_entity {A} (k : string) (e : Entity.t Value) (f : () → M Value A)
    (s : State Value) :
  (put_entity k e ≫= f) s
  = f () (mkState (<[k := e]> (entities s)) (relationships s) (clock_reads s)).
Proof. reflexivity. Qed.

Lemma bind_lift {A B} (o : outcome A) (f : A → M Value B) (s : State Value) :
  (lift o ≫= f) s = match o with Ok a => f a s | Raise e => (Raise e, s) end.
Proof. by destruct o. Qed.

Lemma bind_modify_entity {A} (k : string) (g : Entity.t Value → Entity.t Value)
    (f : () → M Value A) (s : State Value) :
  (modify_entity k g ≫= f) s
  = f () (mkState (alter g k (entities s)) (relationships s) (clock_reads s)).
Proof. reflexivity. Qed.

Section preservation.
Variable R : Entity.t Value → Entity.t Value → Prop.
Variable T : Z → Prop.
Variable n0 : nat.
Variable resolve_allowed : Prop.
Hypothesis R_refl : ∀ e, R e e.
Hypothesis R_trans : ∀ a b c, R a b → R b c → R a c.
Hypothesis T_utc : ∀ n, (n0 ≤ n)%nat → T (utc n).
Hypothesis R_add_attribute : ∀ e key value source confidence now,
  T now → R e (Entity.add_attribute e key value source confidence now).
Hypothesis R_aliases : ∀ e l, R e (Entity.with_aliases e l).
Hypothesis R_embeddings : ∀ e v, R e (Entity.with_embeddings e v).
Hypothesis R_updated_at : ∀ e now, T now → R e (Entity.with_updated_at e now).
Hypothesis R_attributes :
  resolve_allowed → ∀ e attrs, R e (Entity.with_attributes e attrs).

Lemma evolves_refl (s : State Value) : evolves R s s.
Proof. split; [done |]. eauto. Qed.

Lemma evolves_trans (s1 s2 s3 : State Value) :
  evolves R s1 s2 → evolves R s2 s3 → evolves R s1 s3.
Proof.
  intros [Hc12 H12] [Hc23 H23]. split; [lia |].
  intros k e He. destruct (H12 k e He) as (e2 & He2 & HR2).
  destruct (H23 k e2 He2) as (e3 & He3 & HR3). eauto.
Qed.

Lemma keeps_ret {A} (post : A → Prop) (a : A) : post a → keeps R n0 post (mret a).
Proof.
  intros Ha s o s' _ [= <- <-]. split; [apply evolves_refl | by intros ? [= <-]].
Qed.

Lemma keeps_bind {A B} (mid : A → Prop) (post : B → Prop)
    (m : M Value A) (f : A → M Value B) :
  keeps R n0 mid m → (∀ a, mid a → keeps R n0 post (f a)) →
  keeps R n0 post (m ≫= f).
Proof.
  intros Hm Hf s o s' Hn Hrun. unfold mbind, M_bind in Hrun.
  destruct (m s) as [[a|e] s1] eqn:Hms.
  - destruct (Hm s (Ok a) s1 Hn Hms) as [Hev Ha].
    assert (Hn1 : (n0 ≤ clock_reads s1)%nat) by (destruct Hev; lia).
    destruct (Hf a (Ha a eq_refl) s1 o s' Hn1 Hrun) as [Hev' Hb].
    split; [by eapply evolves_trans | done].
  - injection Hrun as <- <-.
    destruct (Hm s (Raise e) s1 Hn Hms) as [Hev _].
    split; [done | by intros ? [=]].
Qed.

Lemma keeps_weaken {A} (post post' : A → Prop) (m : M Value A) :
  (∀ a, post a → post' a) → keeps R n0 post m → keeps R n0 post' m.
Proof.
  intros Himp Hm s o s' Hn Hrun. destruct (Hm s o s' Hn Hrun) as [Hev Ha].
  split; [done |]. eauto.
Qed.

Lemma keeps_utcnow : keeps R n0 T (utcnow utc).
Proof.
  intros s o s' Hn [= <- <-]. split.
  - split; [simpl; lia |]. eauto.
  - intros a [= <-]. by apply T_utc.
Qed.

Lemma keeps_lift {A} (o : outcome A) : keeps R n0 (λ _, True) (lift o).
Proof. intros s o' s' _ [= <- <-]. split; [apply evolves_refl | done]. Qed.

Lemma keeps_get_entity (k : string) : keeps R n0 (λ _, True) (get_entity k).
Proof. intros s o s' _ [= <- <-]. split; [apply evolves_refl | done]. Qed.

Lemma keeps_modify_entity (k : string) (g : Entity.t Value → Entity.t Value) :
  (∀ e, R e (g e)) → keeps R n0 (λ _, True) (modify_entity k g).
Proof.
  intros Hg s o s' _ [= <- <-]. split; [| done]. split; [done |].
  intros k' e He. simpl. rewrite lookup_alter. case_decide as Hk.
  - subst k'. rewrite He. simpl. eauto.
  - eauto.
Qed.

Lemma keeps_for_each {A} (xs : list A) (body : A → M Value ()) :
  (∀ x, keeps R n0 (λ _, True) (body x)) →
  keeps R n0 (λ _, True) (for_each xs body).
Proof.
  intros Hbody. induction xs as [|x xs IH]; simpl.
  - by apply keeps_ret.
  - eapply keeps_bind; [apply Hbody | done].
Qed.

Lemma keeps_merge_entity (new_entity : Entity.t Value) (source : string) :
  keeps R n0 (λ _, True) (merge_entity utc new_entity source).
Proof.
  intros s o s' Hn Hrun. unfold merge_entity in Hrun.
  rewrite bind_get_entity in Hrun.
  destruct (entities s !! Entity.id new_entity) as [stored|] eqn:Hstored.
  - clear Hstored. revert s o s' Hn Hrun. fold (keeps R n0 (A := Entity.t Value)).
    apply (keeps_bind (λ _, True)).
    { apply keeps_for_each. intros [key attributes].
      apply keeps_for_each. intros attr.
      apply (keeps_bind T); [apply keeps_utcnow |].
      intros now Hnow. apply keeps_modify_entity. eauto. }
    intros _ _. apply (keeps_bind (λ _, True)).
    { apply keeps_for_each. intros alias. apply keeps_modify_entity.
      intros e. by case_decide. }
    intros _ _. apply (keeps_bind (λ _, True)); [apply keeps_get_entity |].
    intros [existing|] _; [| by apply keeps_ret].
    apply (keeps_bind (λ _, True)).
    { destruct (truthy _ && truthy _); [| by apply keeps_ret].
      apply (keeps_bind (λ _, True)); [apply keeps_lift |].
      intros v _. by apply keeps_modify_entity. }
    intros _ _. apply (keeps_bind T); [apply keeps_utcnow |].
    intros now Hnow. apply (keeps_bind (λ _, True)).
    { apply keeps_modify_entity. eauto. }
    intros _ _. apply (keeps_bind (λ _, True)); [apply keeps_get_entity |].
    intros merged _. by apply keeps_ret.
  - rewrite bind_put_entity in Hrun. injection Hrun as <- <-.
    split; [| done]. split; [done |].
    intros k e He. simpl. destruct (decide (k = Entity.id new_entity)) as [->|Hk].
    + congruence.
    + rewrite lookup_insert_ne by done. eauto.
Qed.

Lemma keeps_resolve_conflicts (entity_id : string) :
  resolve_allowed →
  keeps R n0 (λ _, True) (resolve_conflicts entity_id).
Proof.
  intros Hallowed. unfold resolve_conflicts.
  apply (keeps_bind (λ _, True)); [apply keeps_get_entity |].
  intros [entity|] _; [| by apply keeps_ret].
  apply (keeps_bind (λ _, True)); [apply keeps_lift |].
  intros resolved _. apply (keeps_bind (λ _, True)).
  { apply keeps_modify_entity. eauto. }
  intros _ _. apply (keeps_bind (λ _, True)); [apply keeps_get_entity |].
  intros e _. by apply keeps_ret.
Qed.

Lemma keeps_run_op (o : op) :
  (is_resolve o = true → resolve_allowed) →
  keeps R n0 (λ _, True) (run_op utc o).
Proof.
  intros Hallowed. destruct o as [new_entity source|entity_id key value source c|entity_id];
    simpl.
  - apply (keeps_bind (λ _, True)); [apply keeps_merge_entity |].
    intros _ _. by apply keeps_ret.
  - apply (keeps_bind T); [apply keeps_utcnow |].
    intros now Hnow. apply keeps_modify_entity. eauto.
  - apply (keeps_bind (λ _, True)); [by apply keeps_resolve_conflicts, Hallowed |].
    intros _ _. by apply keeps_ret.
Qed.

Lemma keeps_run_ops (os : list op) :
  Forall (λ o, is_resolve o = true → resolve_allowed) os →
  keeps R n0 (λ _, True) (run_ops utc os).
Proof.
  unfold run_ops. induction 1 as [|o os Ho Hos IH]; simpl.
  - by apply keeps_ret.
  - apply (keeps_bind (λ _, True)); [by apply keeps_run_op | done].
Qed.

End preservation.
End manager_facts.

(** ** Attribute histories under the operations of the manager *)

Section history_facts.
Import Models Graph.
Context {Value : Type} `{!EqDecision Value}.

(** C1, amended. On the ingest and merge path ([Entity.add_attribute],
    [merge_entity]) histories only grow: a call of [add_attribute] shortens no
    version list, keeps every stored version in its place with its key,
    value, source and version number, and touches only the version whose
    value is observed again; and after any sequence of merges and attribute
    additions every stored entity is still stored and each of its version
    lists extends what it was.  Conflict resolution is left out: it does not
    keep histories. *)
Theorem attribute_history_append_only :
  (∀ (self : Entity.t Value) key value source confidence now k,
     let self' := Entity.add_attribute self key value source confidence now in
     (length (Entity.versions self k) ≤ length (Entity.versions self' k))%nat
     ∧ ∀ i a, Entity.versions self k !! i = Some a →
         ∃ a', Entity.versions self' k !! i = Some a'
               ∧ same_observation a a'
               ∧ (k ≠ key ∨ Attribute.value a ≠ value → a' = a))
  ∧ (∀ (utc : nat → Z) (os : list op) (s s' : State Value) (o : outcome ()),
       Forall (λ o, is_resolve o = false) os →
       run_ops utc os s = (o, s') →
       ∀ entity_id e, entities s !! entity_id = Some e →
         ∃ e', entities s' !! entity_id = Some e'
               ∧ ∀ k, history_extends (Entity.versions e k) (Entity.versions e' k)).
Proof.
  split; [apply add_attribute_history |].
  intros utc os s s' o Hos Hrun entity_id e He.
  pose (R := λ e e' : Entity.t Value,
          ∀ k, history_extends (Entity.versions e k) (Entity.versions e' k)).
  assert (Hkeeps : keeps R 0 (λ _, True) (run_ops utc os)).
  { apply (keeps_run_ops utc R (λ _, True) 0 False); unfold R.
    - intros ? ?. apply history_extends_refl.
    - intros a b c Hab Hbc k. eapply history_extends_trans; eauto.
    - done.
    - intros ? ? ? ? ? ? _ k. apply add_attribute_history_extends.
    - intros ? ? k. apply history_extends_refl.
    - intros ? ? k. apply history_extends_refl.
    - intros ? ? _ k. apply history_extends_refl.
    - done.
    - eapply Forall_impl; [exact Hos |]. simpl. intros ? -> [=]. }
  destruct (Hkeeps s o s' (Nat.le_0_l _) Hrun) as [[_ Hev] _].
  exact (Hev entity_id e He).
Qed.

End history_facts.

Lemma attribute_history_append_only_witness :
  ∃ e', Graph.entities
          (Graph.run_ops sample_clock
             [Graph.OpAddAttribute "person_julian" "company" "Apple" "user" Models.LOW]
             store_julian).2 !! "person_julian" = Some e'
        ∧ ∀ k, history_extends (Models.Entity.versions julian_two_companies k)
                 (Models.Entity.versions e' k).
Proof.
  apply (proj2 attribute_history_append_only sample_clock
           [Graph.OpAddAttribute "person_julian" "company" "Apple" "user" Models.LOW]
           store_julian _ (Ok ())).
  - repeat constructor.
  - reflexivity.
  - reflexivity.
Defined.

(** C1, as stated, fails twice: [resolve_conflicts] removes versions (of the
    two versions of [company] one is left), and [add_attribute] overwrites the
    timestamp of the version it observes again. *)
Lemma history_not_append_only :
  Models.Entity.versions julian_two_companies "company" = [apple; google]
  ∧ (∃ e' s',
       Graph.resolve_conflicts "person_julian" store_julian = (Ok (Some e'), s')
       ∧ Graph.entities s' !! "person_julian" = Some e'
       ∧ Models.Entity.versions e' "company" = [google])
  ∧ Models.Entity.versions
      (Models.Entity.add_attribute julian_two_companies "company" "Apple" "user"
         Models.HIGH 50) "company"
    = [Models.Attribute.with_timestamp apple 50; google].
Proof.
  split; [reflexivity |]. split; [| reflexivity].
  eexists _, _. split; [reflexivity |]. split; reflexivity.
Qed.

(** ** [resolve_conflicts] *)

Section resolve_facts.
Import Models Graph.
Context {Value : Type} `{!EqDecision Value}.

(** The loop of [resolve_conflicts] raises exactly when some key maps to an
    empty version list; otherwise every key is left with one version, taken
    from its list. *)
Lemma resolved_attributes_spec (attrs : gmap string (list (Attribute.t Value))) :
  match resolved_attributes attrs with
  | Ok resolved =>
      ∀ key,
        match attrs !! key with
        | None => resolved !! key = None
        | Some attributes =>
            ∃ best, Entity.py_max Entity.confidence_timestamp_gt attributes = Ok best
                    ∧ resolved !! key = Some [best]
        end
  | Raise e => e = ValueError ∧ ∃ key, attrs !! key = Some []
  end.
Proof.
  unfold resolved_attributes.
  apply (map_fold_weak_ind (λ r m,
    match r with
    | Ok resolved =>
        ∀ key,
          match m !! key with
          | None => resolved !! key = None
          | Some attributes =>
              ∃ best, Entity.py_max Entity.confidence_timestamp_gt attributes = Ok best
                      ∧ resolved !! key = Some [best]
          end
    | Raise e => e = ValueError ∧ ∃ key, m !! key = Some []
    end)).
  - intros key. by rewrite !lookup_empty.
  - intros key attributes m r Hfresh IH. destruct r as [resolved|e]; simpl.
    + destruct (Entity.py_max _ attributes) as [best|e] eqn:Hmax; simpl.
      * intros key'. destruct (decide (key' = key)) as [->|Hne].
        -- rewrite !lookup_insert_eq. eauto.
        -- rewrite !lookup_insert_ne by done. apply IH.
      * apply py_max_raises in Hmax as [-> ->]. split; [done |].
        exists key. apply lookup_insert_eq.
    + destruct IH as [-> [key' Hkey']]. split; [done |].
      exists key'. rewrite lookup_insert_ne; [done |]. congruence.
Qed.

(** An unknown entity id: [resolve_conflicts] returns [None], the state is
    untouched, and the handler answers 404. *)
Lemma resolve_conflicts_unknown (entity_id : string) (s : State Value) :
  entities s !! entity_id = None →
  resolve_conflicts entity_id s = (Ok None, s)
  ∧ Server.resolve_entity_conflicts entity_id s
    = (Ok (Server.HTTPException 404 ("Entity " +:+ entity_id +:+ " not found")), s).
Proof.
  intros Hnone.
  assert (H : resolve_conflicts entity_id s = (Ok None, s)).
  { unfold resolve_conflicts. rewrite bind_get_entity. by rewrite Hnone. }
  split; [done |].
  unfold Server.resolve_entity_conflicts, mbind, M_bind. by rewrite H.
Qed.

(** An entity without attributes: resolution changes nothing. *)
Lemma resolve_conflicts_no_attributes (entity_id : string) (s : State Value)
    (entity : Entity.t Value) :
  entities s !! entity_id = Some entity →
  Entity.attributes entity = ∅ →
  resolve_conflicts entity_id s = (Ok (Some entity), s).
Proof.
  intros Hsome Hempty. unfold resolve_conflicts.
  rewrite bind_get_entity, Hsome, Hempty.
  unfold resolved_attributes. rewrite map_fold_empty.
  rewrite bind_lift, bind_modify_entity, bind_get_entity. simpl.
  assert (Hsame : Entity.with_attributes entity ∅ = entity).
  { destruct entity. simpl in *. by subst. }
  assert (Hstore : alter (λ e : Entity.t Value, Entity.with_attributes e ∅)
                     entity_id (entities s) = entities s).
  { apply map_eq. intros k. rewrite lookup_alter. case_decide; [| done].
    subst k. rewrite Hsome. simpl. by rewrite Hsame. }
  rewrite Hstore, Hsome. by destruct s.
Qed.

(** A key that maps to an empty version list makes [resolve_conflicts]
    raise. *)
Lemma resolve_conflicts_empty_history (entity_id key : string) (s : State Value)
    (entity : Entity.t Value) :
  entities s !! entity_id = Some entity →
  Entity.attributes entity !! key = Some [] →
  resolve_conflicts entity_id s = (Raise ValueError, s).
Proof.
  intros Hsome Hkey. unfold resolve_conflicts.
  rewrite bind_get_entity, Hsome, bind_lift.
  pose proof (resolved_attributes_spec (Entity.attributes entity)) as Hspec.
  destruct (resolved_attributes _) as [resolved|e].
  - specialize (Hspec key). rewrite Hkey in Hspec.
    by destruct Hspec as (best & [=] & _).
  - by destruct Hspec as [-> _].
Qed.

(** The sibling methods guard against the empty list. *)
Lemma get_best_attribute_empty (entity : Entity.t Value) (key : string) :
  Entity.attributes entity !! key = Some [] →
  Entity.get_best_attribute entity key = Ok None
  ∧ Entity.get_latest_attribute entity key = Ok None.
Proof.
  intros H. unfold Entity.get_best_attribute, Entity.get_latest_attribute.
  by rewrite H.
Qed.

End resolve_facts.

(** C8. For an unknown id and for an entity without attributes
    [resolve_conflicts] is a no-op (the two lemmas above), but for a stored
    entity with a key that maps to an empty version list it raises
    [ValueError]: [max] is called on the empty list. *)
Theorem resolve_conflicts_raises_on_empty_history :
  Graph.entities store_clara !! "person_clara" = Some clara
  ∧ Models.Entity.attributes clara !! "nickname" = Some []
  ∧ Graph.resolve_conflicts "person_clara" store_clara = (Raise ValueError, store_clara)
  ∧ Server.resolve_entity_conflicts "person_clara" store_clara
    = (Raise ValueError, store_clara).
Proof. repeat split. Qed.

(** ** Re-observation and the confidence of the stored record *)

(** C3. What the code does where the claim fails: observing again a value
    stored with confidence [HIGH], now with confidence [LOW], lowers the
    stored confidence to [LOW], for an attribute and for a relationship
    alike, because the levels are compared by their names. *)
Theorem reobservation_lowers_confidence :
  ordinal Models.LOW < ordinal Models.HIGH
  ∧ Models.confidence_value_gt Models.LOW Models.HIGH = true
  ∧ Models.Entity.versions
      (Models.Entity.add_attribute julian "company" "Apple" "user" Models.LOW 50)
      "company"
    = [Models.Attribute.mk "company" "Apple" Models.LOW "user" 50 1]
  ∧ Graph.add_relationship sample_clock works_at_low store_works_at
    = (Ok (),
       Graph.mkState ∅
         [Models.Relationship.with_updated_at
            (Models.Relationship.with_confidence works_at_high Models.LOW) 100]
         1).
Proof. repeat split. Qed.

(** ** [updated_at] *)

Section updated_at_facts.
Import Models Graph.
Context {Value : Type} `{!EqDecision Value}.

(** C9. Construction (or validation) of an [Entity] sets [updated_at] to the
    clock reading taken by the validator, whatever the caller supplied, also
    when the entity is rebuilt from stored data; and as long as the clock does
    not go back behind that reading, no operation of the manager leaves the
    stored entity with an earlier [updated_at]. *)
Theorem updated_at_is_construction_time :
  (∀ (kw : Entity.kwargs Value) now_created now_validated,
     Entity.updated_at (Entity.init kw now_created now_validated) = now_validated)
  ∧ (∀ (stored : Entity.t Value) now_created now_validated,
       Entity.updated_at (Entity.init (Entity.dict stored) now_created now_validated)
       = now_validated)
  ∧ (∀ (utc : nat → Z) (kw : Entity.kwargs Value) now_created now_validated
       (os : list op) (s s' : State Value) (o : outcome ()) (entity_id : string),
       (∀ n, (clock_reads s ≤ n)%nat → now_validated ≤ utc n) →
       entities s !! entity_id = Some (Entity.init kw now_created now_validated) →
       run_ops utc os s = (o, s') →
       ∃ e', entities s' !! entity_id = Some e'
             ∧ now_validated ≤ Entity.updated_at e').
Proof.
  split; [done |]. split; [done |].
  intros utc kw now_created now_validated os s s' o entity_id Hclock He Hrun.
  pose (R := λ e e' : Entity.t Value,
          now_validated ≤ Entity.updated_at e → now_validated ≤ Entity.updated_at e').
  assert (Hkeeps : keeps R (clock_reads s) (λ _, True) (run_ops utc os)).
  { apply (keeps_run_ops utc R (λ now, now_validated ≤ now) (clock_reads s) True);
      unfold R; try done.
    - eauto.
    - intros e key value source confidence now _ He0.
      unfold Entity.add_attribute. by destruct (list_find _ _) as [[? ?]|].
    - by apply Forall_forall. }
  destruct (Hkeeps s o s' (le_n _) Hrun) as [[_ Hev] _].
  destruct (Hev entity_id _ He) as (e' & He' & HR).
  exists e'. split; [done |]. by apply HR.
Qed.

End updated_at_facts.

Lemma updated_at_is_construction_time_witness :
  ∃ e', Graph.entities
          (Graph.run_ops sample_clock [Graph.OpMerge julian "user"]
             (Graph.mkState
                {["person_julian" := Models.Entity.init kwargs_julian 100 100]} [] 1)).2
          !! "person_julian" = Some e'
        ∧ 100 ≤ Models.Entity.updated_at e'.
Proof.
  apply (proj2 (proj2 updated_at_is_construction_time) sample_clock kwargs_julian
           100 100 [Graph.OpMerge julian "user"]
           (Graph.mkState
              {["person_julian" := Models.Entity.init kwargs_julian 100 100]} [] 1)
           _ (Ok ())).
  - intros n _. unfold sample_clock. lia.
  - reflexivity.
  - reflexivity.
Defined.

(** ** Retrieval: deduplication and ranking *)

Section dedup_facts.
Context {A K : Type} `{Countable K} (key : A → K).

Lemma list_find_cons_ne (P : A → Prop) {Pdec : ∀ x, Decision (P x)} (x : A) (xs : list A)
    (i : nat) (r : A) :
  ¬ P x → list_find P xs = Some (i, r) → list_find P (x :: xs) = Some (S i, r).
Proof. intros Hx Hfind. simpl. rewrite decide_False by done. by rewrite Hfind. Qed.

(** The loop keeps, for each key not seen before, the first element with
    that key, and nothing else. *)
Lemma dedup_from_spec (seen : gset K) (xs : list A) :
  NoDup (map key (dedup_from key seen xs))
  ∧ ∀ r, r ∈ dedup_from key seen xs → (key r ∉ seen) ∧ first_with_key key xs r.
Proof.
  revert seen. induction xs as [|x xs IH]; intros seen; simpl.
  - split; [constructor | by intros r ?%elem_of_nil].
  - case_decide as Hseen.
    + destruct (IH seen) as [Hnodup Hfirst]. split; [done |].
      intros r Hr. destruct (Hfirst r Hr) as [Hnew [i Hi]]. split; [done |].
      exists (S i). apply list_find_cons_ne; [congruence | done].
    + destruct (IH ({[key x]} ∪ seen)) as [Hnodup Hfirst]. split.
      * simpl. apply NoDup_cons. split; [| done].
        intros (r & Hkey & Hr)%list_elem_of_fmap.
        destruct (Hfirst r Hr) as [Hnew _]. apply Hnew.
        apply elem_of_union. left. by apply elem_of_singleton.
      * intros r [->|Hr]%elem_of_cons.
        -- split; [done |]. exists 0%nat. simpl. by rewrite decide_True.
        -- destruct (Hfirst r Hr) as [Hnew [i Hi]].
           apply not_elem_of_union in Hnew as [Hne%not_elem_of_singleton Hnew].
           split; [done |].
           exists (S i). apply list_find_cons_ne; [congruence | done].
Qed.

Lemma first_with_key_elem_of (xs : list A) (r : A) :
  first_with_key key xs r → r ∈ xs.
Proof.
  intros [i (Hi & _)%list_find_Some]. by eapply list_elem_of_lookup_2.
Qed.

(** The first element with a key is also the first one with any finer
    key. *)
Lemma first_with_key_finer {K' : Type} `{EqDecision K'} (key' : A → K')
    (xs : list A) (r : A) :
  (∀ x, key' x = key' r → key x = key r) →
  first_with_key key xs r → first_with_key key' xs r.
Proof.
  intros Hfiner [i (Hi & _ & Hbefore)%list_find_Some].
  exists i. apply list_find_Some. split; [done |]. split; [done |].
  intros j y Hj Hlt Hy. eapply Hbefore; eauto.
Qed.

Lemma NoDup_map_finer {K' : Type} (key' : A → K') (xs : list A) :
  (∀ x y, key' x = key' y → key x = key y) →
  NoDup (map key xs) → NoDup (map key' xs).
Proof.
  intros Hfiner. induction xs as [|x xs IH]; simpl; [constructor |].
  intros [Hx Hxs]%NoDup_cons. apply NoDup_cons. split; [| by apply IH].
  intros (y & Hkey & Hy)%list_elem_of_fmap. apply Hx.
  apply list_elem_of_fmap. exists y. split; [by apply Hfiner | done].
Qed.

End dedup_facts.

Section sorted_reverse_facts.
Context {A : Type} (key : A → Q).

Lemma insert_reverse_Permutation (x : A) (xs : list A) :
  insert_reverse key x xs ≡ₚ x :: xs.
Proof.
  induction xs as [|y xs IH]; simpl; [done |].
  destruct (Qle_bool _ _); [done |]. rewrite IH. apply Permutation_swap.
Qed.

(** Sorting keeps the elements. *)
Lemma sorted_reverse_Permutation (xs : list A) : sorted_reverse key xs ≡ₚ xs.
Proof.
  induction xs as [|x xs IH]; simpl; [done |].
  by rewrite insert_reverse_Permutation, IH.
Qed.

(** The sorted list is in descending order of the keys. *)
Lemma insert_reverse_descending (x : A) (xs : list A) :
  StronglySorted (λ a b, (key b <= key a)%Q) xs →
  StronglySorted (λ a b, (key b <= key a)%Q) (insert_reverse key x xs).
Proof.
  induction 1 as [|y xs Hsorted IH Hy]; simpl.
  - repeat constructor.
  - destruct (Qle_bool (key y) (key x)) eqn:Hle.
    + apply Qle_bool_iff in Hle. constructor; [by constructor |].
      constructor; [done |].
      eapply Forall_impl; [exact Hy |]. simpl. intros b Hb.
      by apply Qle_trans with (key y).
    + assert (Hlt : (key x < key y)%Q).
      { apply Qnot_le_lt. intros H. apply Qle_bool_iff in H. congruence. }
      constructor; [done |].
      rewrite insert_reverse_Permutation. constructor; [| done].
      by apply Qlt_le_weak.
Qed.

Lemma sorted_reverse_descending (xs : list A) :
  StronglySorted (λ a b, (key b <= key a)%Q) (sorted_reverse key xs).
Proof.
  induction xs as [|x xs IH]; simpl; [constructor |].
  by apply insert_reverse_descending.
Qed.

(** The sort is stable: the elements with a given key stay in their
    original order. *)
Lemma insert_reverse_stable (k : Q) (x : A) (xs : list A) :
  List.filter (λ a, Qeq_bool (key a) k) (insert_reverse key x xs)
  = List.filter (λ a, Qeq_bool (key a) k) (x :: xs).
Proof.
  induction xs as [|y xs IH]; [done |].
  cbn [insert_reverse]. destruct (Qle_bool (key y) (key x)) eqn:Hle; [done |].
  cbn [List.filter] in *. rewrite IH.
  destruct (Qeq_bool (key x) k) eqn:Hx, (Qeq_bool (key y) k) eqn:Hy; try done.
  apply Qeq_bool_iff in Hx, Hy.
  assert (Hxy : Qle_bool (key y) (key x) = true); [| congruence].
  apply Qle_bool_iff. rewrite Hx, Hy. apply Qle_refl.
Qed.

Lemma sorted_reverse_stable (k : Q) (xs : list A) :
  List.filter (λ a, Qeq_bool (key a) k) (sorted_reverse key xs)
  = List.filter (λ a, Qeq_bool (key a) k) xs.
Proof.
  induction xs as [|x xs IH]; [done |].
  cbn [sorted_reverse foldr]. rewrite insert_reverse_stable.
  cbn [List.filter]. fold (sorted_reverse key xs). by rewrite IH.
Qed.

Lemma slice_to_sublist (limit : Z) (xs : list A) : slice_to limit xs `sublist_of` xs.
Proof. unfold slice_to. destruct (0 <=? limit); apply sublist_take. Qed.

End sorted_reverse_facts.

Section search_facts.
Import Search.

Lemma deduplicate_results_from_eq (seen : gset string) (results : list Result.t) :
  deduplicate_results_from seen results = dedup_from Result.id seen results.
Proof.
  revert seen. induction results as [|r results IH]; intros seen; simpl; [done |].
  case_decide; by rewrite IH.
Qed.

(** One turn of the loop of [rank_results]: a result with a new id adds an
    entry at the end of the table, a result with a known id adds none. *)
Lemma combine_fst (combined : list (string * Combined.t)) (r : Result.t) :
  map fst (combine combined r)
  = if decide (Result.id r ∈ map fst combined) then map fst combined
    else map fst combined ++ [Result.id r].
Proof.
  induction combined as [|[doc_id entry] combined IH]; simpl; [done |].
  destruct (decide (doc_id = Result.id r)) as [Hid|Hid]; simpl.
  - subst doc_id. rewrite decide_True; [done |]. apply list_elem_of_here.
  - rewrite IH. destruct (decide (Result.id r ∈ map fst combined)) as [Hin|Hin].
    + rewrite decide_True; [done |]. by apply list_elem_of_further.
    + rewrite decide_False; [done |].
      intros [?|?]%elem_of_cons; [congruence | done].
Qed.

Lemma combine_result (combined : list (string * Combined.t)) (r : Result.t) :
  map (λ p, Combined.result p.2) (combine combined r)
  = if decide (Result.id r ∈ map fst combined)
    then map (λ p, Combined.result p.2) combined
    else map (λ p, Combined.result p.2) combined ++ [r].
Proof.
  induction combined as [|[doc_id entry] combined IH]; simpl; [done |].
  destruct (decide (doc_id = Result.id r)) as [Hid|Hid]; simpl.
  - subst doc_id. rewrite decide_True; [done |]. apply list_elem_of_here.
  - rewrite IH. destruct (decide (Result.id r ∈ map fst combined)) as [Hin|Hin].
    + rewrite decide_True; [done |]. by apply list_elem_of_further.
    + rewrite decide_False; [done |].
      intros [?|?]%elem_of_cons; [congruence | done].
Qed.

Lemma fold_combine_result (results : list Result.t)
    (combined : list (string * Combined.t)) :
  map (λ p, Combined.result p.2) (fold_left combine results combined)
  = map (λ p, Combined.result p.2) combined
    ++ dedup_from Result.id (list_to_set (map fst combined)) results.
Proof.
  revert combined. induction results as [|r results IH]; intros combined; simpl.
  - by rewrite app_nil_r.
  - rewrite IH, combine_result, combine_fst.
    destruct (decide (Result.id r ∈ map fst combined)) as [Hin|Hnew].
    + rewrite decide_True; [done |]. by apply elem_of_list_to_set.
    + rewrite decide_False by by rewrite elem_of_list_to_set.
      rewrite <- app_assoc. simpl. do 3 f_equal.
      rewrite list_to_set_app_L, list_to_set_singleton_L. apply (comm_L (∪)).
Qed.

(** The table of [rank_results] holds, in the order of discovery, the first
    result of every document id. *)
Lemma combined_scores_result (results : list Result.t) :
  map (λ p, Combined.result p.2) (combined_scores results)
  = deduplicate_results results.
Proof.
  unfold combined_scores, deduplicate_results.
  by rewrite fold_combine_result, deduplicate_results_from_eq.
Qed.

(** [rank_results] returns these results, in another order. *)
Lemma rank_results_Permutation (results : list Result.t) :
  rank_results results ≡ₚ deduplicate_results results.
Proof.
  unfold rank_results. rewrite sorted_reverse_Permutation.
  rewrite <- combined_scores_result. by rewrite map_map.
Qed.

Lemma search_knowledge_hybrid (embedder : bool)
    (semantic keyword entity : list Result.t) :
  search_knowledge embedder semantic keyword entity "hybrid"
  = take 10 (rank_results (deduplicate_results
               ((if embedder then semantic else []) ++ keyword ++ entity))).
Proof.
  unfold search_knowledge. destruct embedder; simpl; [| done].
  by rewrite app_assoc.
Qed.

End search_facts.

Section code_search_facts.
Import CodeSearch.

Lemma unique_results_from_eq (seen : gset string) (results : list Result.t) :
  unique_results_from seen results = dedup_from dedup_key seen results.
Proof.
  revert seen. induction results as [|r results IH]; intros seen; simpl; [done |].
  case_decide; by rewrite IH.
Qed.

(** The full-text query returns the matching rows when the table has the
    columns it selects, and raises otherwise. *)
Lemma fts_query_cases (fts_columns : list string) (fts_rows : list Row.t) :
  (selected_columns ⊆ fts_columns ∧ fts_query fts_columns fts_rows = Ok fts_rows)
  ∨ (¬ selected_columns ⊆ fts_columns
     ∧ fts_query fts_columns fts_rows = Raise OperationalError).
Proof.
  unfold fts_query.
  destruct (forallb _ selected_columns) eqn:Hall.
  - left. split; [| done]. intros column Hin.
    rewrite forallb_forall in Hall. apply list_elem_of_In, Hall in Hin.
    by apply bool_decide_eq_true in Hin.
  - right. split; [| done]. intros Hsub.
    apply not_true_iff_false in Hall. apply Hall, forallb_forall.
    intros column Hin. apply bool_decide_eq_true, Hsub. by apply list_elem_of_In.
Qed.

(** [search_code] raises when it runs the full-text query on a table that
    lacks a selected column; otherwise it returns the unique results, sorted
    and sliced. *)
Lemma search_code_cases (fts_columns : list string) (fts_rows : list Row.t)
    (embeddings_available query_embedding : bool)
    (code_examples api_references : list Result.t) (search_type : string) (limit : Z) :
  let found :=
    (if bool_decide (search_type ∈ ["keyword"; "hybrid"])
     then map of_row fts_rows else [])
    ++ (if bool_decide (search_type ∈ ["semantic"; "hybrid"])
           && embeddings_available && query_embedding
        then code_examples ++ api_references else []) in
  ((search_type ∈ ["keyword"; "hybrid"] → selected_columns ⊆ fts_columns)
   ∧ search_code fts_columns fts_rows embeddings_available query_embedding
       code_examples api_references search_type limit
     = Ok (slice_to limit (sorted_reverse Result.score
             (unique_results_from ∅ found))))
  ∨ (search_type ∈ ["keyword"; "hybrid"] ∧ ¬ selected_columns ⊆ fts_columns
     ∧ search_code fts_columns fts_rows embeddings_available query_embedding
         code_examples api_references search_type limit
       = Raise OperationalError).
Proof.
  intros found. unfold found, search_code.
  destruct (bool_decide (search_type ∈ ["keyword"; "hybrid"])) eqn:Hkeyword.
  - apply bool_decide_eq_true in Hkeyword.
    destruct (fts_query_cases fts_columns fts_rows) as [[Hsub ->]|[Hsub ->]].
    + left. split; [done |].
      destruct (bool_decide (search_type ∈ ["semantic"; "hybrid"])),
        embeddings_available, query_embedding;
        simpl; by rewrite ?app_nil_r, <- ?app_assoc.
    + right. by repeat split.
  - apply bool_decide_eq_false in Hkeyword. left. split; [done |].
    destruct (bool_decide (search_type ∈ ["semantic"; "hybrid"])),
      embeddings_available, query_embedding;
      simpl; by rewrite ?app_nil_r, <- ?app_assoc.
Qed.

(** What the results of a returning [search_code] are made of. *)
Lemma search_code_results (found : list Result.t) (limit : Z) :
  let results :=
    slice_to limit (sorted_reverse Result.score (unique_results_from ∅ found)) in
  NoDup (map (λ r, (Result.type r, Result.id r)) results)
  ∧ (∀ r, r ∈ results →
       first_with_key (λ r, (Result.type r, Result.id r)) found r)
  ∧ StronglySorted (λ a b, (Result.score b <= Result.score a)%Q) results
  ∧ (0 ≤ limit → Z.of_nat (length results) ≤ limit)
  ∧ (limit < 0 →
       Z.of_nat (length results)
       = 0 `max` (Z.of_nat (length (unique_results_from ∅ found)) + limit)).
Proof.
  intros results. unfold results. rewrite unique_results_from_eq.
  set (unique := dedup_from dedup_key ∅ found).
  destruct (dedup_from_spec dedup_key ∅ found) as [Hnodup Hfirst].
  fold unique in Hnodup, Hfirst.
  assert (Hfiner : ∀ x y : Result.t,
            (Result.type x, Result.id x) = (Result.type y, Result.id y) →
            dedup_key x = dedup_key y).
  { intros x y [= Hty Hid]. unfold dedup_key. by rewrite Hty, Hid. }
  split; [| split; [| split; [| split]]].
  - eapply sublist_NoDup; [| apply fmap_sublist, slice_to_sublist].
    change (NoDup ((λ r, (Result.type r, Result.id r))
                     <$> sorted_reverse Result.score unique)).
    rewrite sorted_reverse_Permutation.
    by apply (NoDup_map_finer dedup_key).
  - intros r Hr.
    apply (first_with_key_finer dedup_key); [intros x; apply Hfiner |].
    apply Hfirst. rewrite <- (sorted_reverse_Permutation Result.score).
    eapply elem_of_sublist; [exact Hr | apply slice_to_sublist].
  - unfold slice_to.
    pose proof (sorted_reverse_descending Result.score unique) as Hsorted.
    rewrite <- (take_drop (if 0 <=? limit then Z.to_nat limit
                  else Z.to_nat (Z.of_nat (length (sorted_reverse Result.score unique))
                                 + limit))
                  (sorted_reverse Result.score unique)) in Hsorted.
    apply StronglySorted_app_1_l in Hsorted. by destruct (0 <=? limit).
  - intros Hlimit. unfold slice_to. rewrite (proj2 (Z.leb_le _ _) Hlimit).
    pose proof (firstn_le_length (Z.to_nat limit)
                  (sorted_reverse Result.score unique)). lia.
  - intros Hlimit. unfold slice_to.
    rewrite (proj2 (Z.leb_gt _ _) Hlimit), length_take.
    rewrite (Permutation_length (sorted_reverse_Permutation Result.score unique)).
    lia.
Qed.

End code_search_facts.

(** C5. In hybrid mode both services return a list in which no two results
    have the same type and id, and every result they return is the first one,
    among all that the strategies found, with its id
    ([search_knowledge]) or with its type and id ([search_code]).
    [search_code] returns when the full-text table has the columns that its
    query selects; on a table without one of them the query raises
    [OperationalError] and nothing is returned. *)
Theorem hybrid_results_unique :
  (∀ (embedder : bool) (semantic keyword entity : list Search.Result.t),
     let found := (if embedder then semantic else []) ++ keyword ++ entity in
     let results := Search.search_knowledge embedder semantic keyword entity "hybrid" in
     NoDup (map (λ r, (Search.Result.type r, Search.Result.id r)) results)
     ∧ ∀ r, r ∈ results → first_with_key Search.Result.id found r)
  ∧ (∀ (fts_columns : list string) (fts_rows : list CodeSearch.Row.t)
       (embeddings_available query_embedding : bool)
       (code_examples api_references : list CodeSearch.Result.t) (limit : Z),
       let found :=
         map CodeSearch.of_row fts_rows
           ++ (if embeddings_available && query_embedding
               then code_examples ++ api_references else []) in
       match
         CodeSearch.search_code fts_columns fts_rows embeddings_available
           query_embedding code_examples api_references "hybrid" limit
       with
       | Ok results =>
           CodeSearch.selected_columns ⊆ fts_columns
           ∧ NoDup (map (λ r, (CodeSearch.Result.type r, CodeSearch.Result.id r))
                      results)
           ∧ ∀ r, r ∈ results →
               first_with_key
                 (λ r, (CodeSearch.Result.type r, CodeSearch.Result.id r)) found r
       | Raise e =>
           e = OperationalError ∧ ¬ CodeSearch.selected_columns ⊆ fts_columns
       end).
Proof.
  split.
  - intros embedder semantic keyword entity found results.
    unfold results. rewrite search_knowledge_hybrid. fold found.
    set (unique := Search.deduplicate_results found).
    assert (Hunique : unique = dedup_from Search.Result.id ∅ found)
      by apply deduplicate_results_from_eq.
    pose proof (rank_results_Permutation unique) as Hranked.
    unfold Search.deduplicate_results in Hranked.
    rewrite deduplicate_results_from_eq in Hranked.
    destruct (dedup_from_spec Search.Result.id ∅ unique) as [Hnodup Hfirst].
    destruct (dedup_from_spec Search.Result.id ∅ found) as [_ Hfound].
    split.
    + apply (NoDup_map_finer Search.Result.id); [by intros x y [= _ ?] |].
      eapply sublist_NoDup; [| apply fmap_sublist, sublist_take].
      change (NoDup (Search.Result.id <$> Search.rank_results unique)).
      by rewrite Hranked.
    + intros r Hr. apply Hfound. rewrite <- Hunique.
      apply (first_with_key_elem_of Search.Result.id), Hfirst.
      rewrite <- Hranked. eapply elem_of_sublist; [exact Hr | apply sublist_take].
  - intros fts_columns fts_rows embeddings_available query_embedding code_examples
      api_references limit found.
    assert (Hhybrid : "hybrid" ∈ ["keyword"; "hybrid"])
      by apply list_elem_of_further, list_elem_of_here.
    destruct (search_code_cases fts_columns fts_rows embeddings_available
                query_embedding code_examples api_references "hybrid" limit)
      as [[Hsub ->]|(_ & Hsub & ->)]; [| done].
    split; [by apply Hsub |].
    destruct (search_code_results found limit) as (Hnodup & Hfirst & _).
    split; [exact Hnodup | exact Hfirst].
Qed.

Section ranking_facts.
Import Search.

Lemma combined_score_combine (combined : list (string * Combined.t))
    (r : Result.t) (doc_id : string) :
  (combined_score doc_id (combine combined r)
   == combined_score doc_id combined
      + (if decide (Result.id r = doc_id)
         then Result.score r * weight (Result.type r) else 0))%Q.
Proof.
  induction combined as [|[k entry] combined IH]; simpl.
  - destruct (decide (Result.id r = doc_id)); simpl; ring.
  - destruct (decide (k = Result.id r)) as [->|Hk]; simpl.
    + destruct (decide (Result.id r = doc_id)); simpl; ring.
    + destruct (decide (k = doc_id)) as [->|Hne]; simpl.
      * rewrite decide_False by done. ring.
      * apply IH.
Qed.

Lemma fold_combine_score (results : list Result.t)
    (combined : list (string * Combined.t)) (doc_id : string) :
  (combined_score doc_id (fold_left combine results combined)
   == combined_score doc_id combined + weighted_sum doc_id results)%Q.
Proof.
  revert combined. induction results as [|r results IH]; intros combined; simpl.
  - ring.
  - rewrite IH, combined_score_combine.
    destruct (decide (Result.id r = doc_id)); ring.
Qed.

(** The loop of [rank_results] adds up, for every document id, the weighted
    scores of all the results it is given for that id. *)
Lemma rank_results_accumulates (results : list Result.t) (doc_id : string) :
  (combined_score doc_id (combined_scores results)
   == weighted_sum doc_id results)%Q.
Proof. unfold combined_scores. rewrite fold_combine_score. simpl. ring. Qed.

End ranking_facts.

(** On the three results found for documents A and B, [rank_results] by
    itself ranks A (0.6 * 1.0 + 3 * 0.8 = 3.0) before B (2 * 0.8 = 1.6). *)
Lemma rank_results_on_all_results :
  Search.rank_results [doc_a_semantic; doc_a_keyword; doc_b_keyword]
  = [doc_a_semantic; doc_b_keyword].
Proof. reflexivity. Qed.

(** C6. What the code does where the claim fails: [search_knowledge] removes
    the duplicates before it ranks, so that a document found by two
    strategies is scored with the first of them only.  Document A, whose
    weighted scores add up to 3.0, is ranked with 0.6 and comes after
    document B, whose score is 1.6. *)
Theorem hybrid_scores_not_accumulated :
  let found := [doc_a_semantic; doc_a_keyword; doc_b_keyword] in
  let ranked := Search.combined_scores (Search.deduplicate_results found) in
  (weighted_sum "doc_a" found == 3)%Q
  ∧ (weighted_sum "doc_b" found == 16 # 10)%Q
  ∧ Search.deduplicate_results found = [doc_a_semantic; doc_b_keyword]
  ∧ (combined_score "doc_a" ranked == 6 # 10)%Q
  ∧ (combined_score "doc_b" ranked == 16 # 10)%Q
  ∧ Search.search_knowledge true [doc_a_semantic] [doc_a_keyword; doc_b_keyword] []
      "hybrid"
    = [doc_b_keyword; doc_a_semantic].
Proof. repeat split. Qed.

Lemma hybrid_results_unique_witness :
  first_with_key Search.Result.id [doc_a_semantic; doc_a_keyword; doc_b_keyword]
    doc_a_semantic.
Proof.
  apply (proj2 (proj1 hybrid_results_unique true [doc_a_semantic]
                  [doc_a_keyword; doc_b_keyword] [])).
  apply list_elem_of_further, list_elem_of_here.
Defined.

(** * Further properties of the code *)

Set Warnings "-clear-no-such-hyp".

(** ** [max] *)

Section py_max_facts.
Import Models.
Context {A : Type} (key_gt : A → A → bool) (rank : A → Z * Z).
Hypothesis key_gt_rank : ∀ a b, key_gt a b = true ↔ lex_lt (rank b) (rank a).

Lemma py_max_fold (ys before mid : list A) (best : A) :
  (∀ x, x ∈ before → lex_lt (rank x) (rank best)) →
  (∀ x, x ∈ mid → ¬ lex_lt (rank best) (rank x)) →
  ∃ before' after,
    before ++ best :: mid ++ ys
    = before' ++ fold_left (λ best y, if key_gt y best then y else best) ys best
        :: after
    ∧ (∀ x, x ∈ before' →
         lex_lt (rank x)
           (rank (fold_left (λ best y, if key_gt y best then y else best) ys best)))
    ∧ (∀ x, x ∈ after →
         ¬ lex_lt
             (rank (fold_left (λ best y, if key_gt y best then y else best) ys best))
             (rank x)).
Proof.
  revert before mid best. induction ys as [|y ys IH]; intros before mid best Hb Hm.
  - exists before, mid. by rewrite app_nil_r.
  - simpl. destruct (key_gt y best) eqn:Hgt.
    + apply key_gt_rank in Hgt.
      destruct (IH (before ++ best :: mid) [] y) as (before' & after & Heq & H1 & H2).
      * intros x Hx. apply elem_of_app in Hx as [Hx|Hx].
        { specialize (Hb x Hx). unfold lex_lt in *. lia. }
        apply elem_of_cons in Hx as [Hx|Hx]; [by subst x |].
        specialize (Hm x Hx). unfold lex_lt in *. lia.
      * by intros x ?%elem_of_nil.
      * exists before', after. split; [| done].
        rewrite <- Heq. simpl. by rewrite <- !app_assoc.
    + assert (Hle : ¬ lex_lt (rank best) (rank y)).
      { intros H. apply key_gt_rank in H. congruence. }
      destruct (IH before (mid ++ [y]) best) as (before' & after & Heq & H1 & H2).
      * done.
      * intros x Hx. apply elem_of_app in Hx as [Hx|Hx]; [by apply Hm |].
        apply list_elem_of_singleton in Hx. by subst x.
      * exists before', after. split; [| done].
        rewrite <- Heq. by rewrite <- !app_assoc.
Qed.

(** What [max] returns: the first element of the greatest key.  Every element
    before it has a strictly smaller key, no element after it has a greater
    one. *)
Lemma py_max_spec (xs : list A) (best : A) :
  Entity.py_max key_gt xs = Ok best →
  ∃ before after,
    xs = before ++ best :: after
    ∧ (∀ x, x ∈ before → lex_lt (rank x) (rank best))
    ∧ (∀ x, x ∈ after → ¬ lex_lt (rank best) (rank x)).
Proof.
  destruct xs as [|x xs]; [done |]. simpl. intros [= <-].
  destruct (py_max_fold xs [] [] x) as (before & after & Heq & H1 & H2);
    [by intros ? ?%elem_of_nil | by intros ? ?%elem_of_nil |].
  exists before, after. split; [| done]. by rewrite <- Heq.
Qed.

End py_max_facts.

(** ** The methods of [Entity] *)

Section entity_method_facts.
Import Models.
Context {Value : Type} `{!EqDecision Value}.
Implicit Types (self : Entity.t Value) (a : Attribute.t Value).

Lemma timestamp_gt_rank a b :
  Entity.timestamp_gt a b = true ↔ lex_lt (latest_rank b) (latest_rank a).
Proof.
  unfold Entity.timestamp_gt, lex_lt, latest_rank. simpl.
  rewrite Z.ltb_lt. lia.
Qed.

Lemma confidence_timestamp_gt_rank a b :
  Entity.confidence_timestamp_gt a b = true ↔ lex_lt (best_rank b) (best_rank a).
Proof.
  unfold Entity.confidence_timestamp_gt, Entity.timestamp_gt, lex_lt, best_rank.
  destruct a as [? ? ca ? ta ?], b as [? ? cb ? tb ?]. simpl.
  destruct ca, cb; simpl; rewrite ?Z.ltb_lt; split; intros H; try done; lia.
Qed.

(** X3. [get_latest_attribute] never raises.  It gives [None] when the key is
    absent or maps to an empty list; otherwise it gives the first of the
    stored versions with the greatest timestamp. *)
Theorem get_latest_attribute_spec self (key : string) :
  match Entity.attributes self !! key with
  | None | Some [] => Entity.get_latest_attribute self key = Ok None
  | Some xs =>
      ∃ before latest after,
        xs = before ++ latest :: after
        ∧ Entity.get_latest_attribute self key = Ok (Some latest)
        ∧ (∀ x, x ∈ before → Attribute.timestamp x < Attribute.timestamp latest)
        ∧ (∀ x, x ∈ after → Attribute.timestamp x ≤ Attribute.timestamp latest)
  end.
Proof.
  unfold Entity.get_latest_attribute.
  destruct (Entity.attributes self !! key) as [[|x xs]|]; [done | | done].
  destruct (Entity.py_max Entity.timestamp_gt (x :: xs)) as [best|e] eqn:Hmax;
    [| done].
  destruct (py_max_spec _ _ timestamp_gt_rank _ _ Hmax)
    as (before & after & Heq & Hb & Ha).
  exists before, best, after. split; [done |]. split; [done |].
  unfold lex_lt, latest_rank in *. simpl in *. split.
  - intros y Hy. specialize (Hb y Hy). lia.
  - intros y Hy. specialize (Ha y Hy). lia.
Qed.

(** X4. [get_best_attribute] never raises.  It gives [None] when the key is
    absent or maps to an empty list; otherwise it gives the first of the
    stored versions that is greatest for the pair (confidence value,
    timestamp), the confidence values being ordered as strings:
    "verified" > "uncertain" > "medium" > "low" > "high". *)
Theorem get_best_attribute_spec self (key : string) :
  match Entity.attributes self !! key with
  | None | Some [] => Entity.get_best_attribute self key = Ok None
  | Some xs =>
      ∃ before best after,
        xs = before ++ best :: after
        ∧ Entity.get_best_attribute self key = Ok (Some best)
        ∧ (∀ x, x ∈ before → lex_lt (best_rank x) (best_rank best))
        ∧ (∀ x, x ∈ after → ¬ lex_lt (best_rank best) (best_rank x))
  end.
Proof.
  unfold Entity.get_best_attribute.
  destruct (Entity.attributes self !! key) as [[|x xs]|]; [done | | done].
  destruct (Entity.py_max Entity.confidence_timestamp_gt (x :: xs))
    as [best|e] eqn:Hmax; [| done].
  destruct (py_max_spec _ _ confidence_timestamp_gt_rank _ _ Hmax)
    as (before & after & Heq & Hb & Ha).
  by exists before, best, after.
Qed.

(** X1. After [add_attribute] the value is stored under the key, in a
    version stamped with the time of the call.  The version list of the key
    keeps its length when the value was stored already, and is extended by
    one fresh version (version number 1, the given source and confidence)
    when it was not. *)
Theorem add_attribute_stores_value self (key : string) (value : Value)
    (source : string) (confidence : ConfidenceLevel) (now : Z) :
  let self' := Entity.add_attribute self key value source confidence now in
  (∃ a, a ∈ Entity.versions self' key
        ∧ Attribute.value a = value ∧ Attribute.timestamp a = now)
  ∧ ((∃ a, a ∈ Entity.versions self key ∧ Attribute.value a = value) →
       length (Entity.versions self' key) = length (Entity.versions self key))
  ∧ ((∀ a, a ∈ Entity.versions self key → Attribute.value a ≠ value) →
       Entity.versions self' key
       = Entity.versions self key
           ++ [Attribute.mk key value confidence source now 1]).
Proof.
  intros self'. unfold self'. rewrite versions_add_attribute.
  rewrite decide_True by done.
  destruct (list_find _ _) as [[i existing]|] eqn:Hfind.
  - apply list_find_Some in Hfind as (Hi & Hvalue & _).
    split; [| split].
    + exists (Entity.reobserve confidence now existing). split.
      * apply list_elem_of_lookup. exists i.
        apply list_lookup_insert_eq. by eapply lookup_lt_Some.
      * unfold Entity.reobserve. by destruct (confidence_value_gt _ _).
    + intros _. apply length_insert.
    + intros Hnew. destruct (Hnew existing); [| done].
      by eapply list_elem_of_lookup_2.
  - apply list_find_None in Hfind.
    split; [| split].
    + exists (Attribute.new key value source confidence now). split; [| done].
      apply elem_of_app. right. apply list_elem_of_here.
    + intros (a & Ha & Hvalue). rewrite Forall_forall in Hfind.
      by destruct (Hfind a Ha).
    + done.
Qed.

(** X2. [add_attribute] never stores a value twice under a key: if the
    values of the versions of every key are pairwise distinct, they are so
    afterwards. *)
Theorem add_attribute_values_distinct self (key : string) (value : Value)
    (source : string) (confidence : ConfidenceLevel) (now : Z) (k : string) :
  NoDup (Attribute.value <$> Entity.versions self k) →
  NoDup (Attribute.value
           <$> Entity.versions
                 (Entity.add_attribute self key value source confidence now) k).
Proof.
  intros Hnodup. rewrite versions_add_attribute.
  case_decide as Hk; [subst k | done].
  destruct (list_find _ _) as [[i existing]|] eqn:Hfind.
  - apply list_find_Some in Hfind as (Hi & Hvalue & _).
    rewrite list_fmap_insert.
    rewrite list_insert_id; [done |].
    rewrite list_lookup_fmap, Hi. simpl. f_equal.
    unfold Entity.reobserve. by destruct (confidence_value_gt _ _).
  - apply list_find_None in Hfind. rewrite Forall_forall in Hfind.
    rewrite fmap_app. apply NoDup_app. split; [done |]. split.
    + intros v (a & Hv & Ha)%list_elem_of_fmap Hin.
      apply list_elem_of_singleton in Hin. simpl in Hin.
      destruct (Hfind a Ha). congruence.
    + apply NoDup_singleton.
Qed.

End entity_method_facts.

Lemma add_attribute_values_distinct_witness :
  NoDup (Models.Attribute.value
           <$> Models.Entity.versions
                 (Models.Entity.add_attribute julian_two_companies "company" "Apple"
                    "user" Models.LOW 50) "company").
Proof.
  apply add_attribute_values_distinct.
  apply (bool_decide_unpack _). vm_compute. exact I.
Defined.

(** ** A program logic for the graph manager *)

Section triple_facts.
Import Models Graph.
Context {Value : Type} `{!EqDecision Value}.
Variable utc : nat → Z.

Lemma triple_ret {A} (pre : State Value → Prop) (a : A)
    (post : outcome A → State Value → Prop) :
  (∀ s, pre s → post (Ok a) s) → triple pre (mret a) post.
Proof. intros H s Hs. by apply H. Qed.

Lemma triple_bind {A B} (pre : State Value → Prop) (mid : A → State Value → Prop)
    (post : outcome B → State Value → Prop) (m : M Value A) (f : A → M Value B) :
  triple pre m (λ o s, match o with Ok a => mid a s | Raise e => post (Raise e) s end) →
  (∀ a, triple (mid a) (f a) post) →
  triple pre (m ≫= f) post.
Proof.
  intros Hm Hf s Hs. specialize (Hm s Hs).
  unfold mbind, M_bind. destruct (m s) as [[a|e] s1]; simpl in *; [| done].
  by apply Hf.
Qed.

Lemma triple_weaken {A} (pre pre' : State Value → Prop)
    (post post' : outcome A → State Value → Prop) (m : M Value A) :
  (∀ s, pre' s → pre s) → (∀ o s, post o s → post' o s) →
  triple pre m post → triple pre' m post'.
Proof. intros Hpre Hpost Hm s Hs. apply Hpost, Hm, Hpre, Hs. Qed.

Lemma preserves_ret {A} (inv : State Value → Prop) (a : A) : preserves inv (mret a).
Proof. by apply triple_ret. Qed.

Lemma preserves_bind {A B} (inv : State Value → Prop) (m : M Value A)
    (f : A → M Value B) :
  preserves inv m → (∀ a, preserves inv (f a)) → preserves inv (m ≫= f).
Proof.
  intros Hm Hf. apply (triple_bind inv (λ _, inv)); [| done].
  intros s Hs. specialize (Hm s Hs). by destruct (m s) as [[?|?] ?].
Qed.

Lemma preserves_for_each {A} (inv : State Value → Prop) (xs : list A)
    (body : A → M Value ()) :
  (∀ x, x ∈ xs → preserves inv (body x)) → preserves inv (for_each xs body).
Proof.
  induction xs as [|x xs IH]; intros Hbody; simpl.
  - apply preserves_ret.
  - apply preserves_bind; [apply Hbody, list_elem_of_here |].
    intros _. apply IH. intros y Hy. by apply Hbody, list_elem_of_further.
Qed.

Lemma preserves_utcnow (inv : State Value → Prop) :
  clock_free inv → preserves inv (utcnow utc).
Proof. intros Hfree s Hs. by apply Hfree. Qed.

Lemma preserves_lift {A} (inv : State Value → Prop) (o : outcome A) :
  preserves inv (lift o).
Proof. by intros s Hs. Qed.

Lemma preserves_get_entity (inv : State Value → Prop) (k : string) :
  preserves inv (get_entity k).
Proof. by intros s Hs. Qed.

(** The operations built from reads of the clock and from mutations of the
    entity stored under [k]. *)
Lemma preserves_modify_entity (inv : State Value → Prop) (k : string)
    (g : Entity.t Value → Entity.t Value) :
  (∀ s, inv s →
     inv (mkState (alter g k (entities s)) (relationships s) (clock_reads s))) →
  preserves inv (modify_entity k g).
Proof. intros H s Hs. by apply H. Qed.

End triple_facts.

Section manager_invariants.
Import Models Graph.
Context {Value : Type} `{!EqDecision Value}.
Variable utc : nat → Z.
Variable inv : State Value → Prop.
Hypothesis inv_clock_free : clock_free inv.
Hypothesis inv_step : ∀ s k g, entity_step g → inv s →
  inv (mkState (alter g k (entities s)) (relationships s) (clock_reads s)).

Lemma preserves_step (k : string) (g : Entity.t Value → Entity.t Value) :
  entity_step g → preserves inv (modify_entity k g).
Proof. intros Hg. apply preserves_modify_entity. intros s. by apply inv_step. Qed.

(** An invariant of the store that the mutations of entities and the
    insertion of a new entity keep is kept by [merge_entity]. *)
Lemma preserves_merge_entity (new_entity : Entity.t Value) (source : string) :
  (∀ s, inv s → entities s !! Entity.id new_entity = None →
     inv (mkState (<[Entity.id new_entity := new_entity]> (entities s)) (relationships s)
            (clock_reads s))) →
  preserves inv (merge_entity utc new_entity source).
Proof.
  intros inv_insert s Hs. unfold merge_entity. rewrite bind_get_entity.
  destruct (entities s !! Entity.id new_entity) as [stored|] eqn:Hstored.
  - clear Hstored. revert s Hs.
    match goal with
    | |- ∀ s, inv s → inv (?m s).2 => change (preserves inv m)
    end.
    apply preserves_bind.
    { apply preserves_for_each. intros [key attributes] _.
      apply preserves_for_each. intros attr _.
      apply preserves_bind; [by apply preserves_utcnow |].
      intros now. apply preserves_step. constructor. }
    intros _. apply preserves_bind.
    { apply preserves_for_each. intros alias _.
      apply preserves_step. constructor. }
    intros _. apply preserves_bind; [apply preserves_get_entity |].
    intros [existing|]; [| apply preserves_ret].
    apply preserves_bind.
    { destruct (truthy _ && truthy _); [| apply preserves_ret].
      apply preserves_bind; [apply preserves_lift |].
      intros v. apply preserves_step. constructor. }
    intros _. apply preserves_bind; [by apply preserves_utcnow |].
    intros now. apply preserves_bind; [apply preserves_step; constructor |].
    intros _. apply preserves_bind; [apply preserves_get_entity |].
    intros merged. apply preserves_ret.
  - rewrite bind_put_entity. simpl. by apply inv_insert.
Qed.

Lemma preserves_resolve_conflicts (entity_id : string) :
  preserves inv (resolve_conflicts entity_id).
Proof.
  unfold resolve_conflicts.
  apply preserves_bind; [apply preserves_get_entity |].
  intros [entity|]; [| apply preserves_ret].
  apply preserves_bind; [apply preserves_lift |].
  intros resolved. apply preserves_bind; [apply preserves_step; constructor |].
  intros _. apply preserves_bind; [apply preserves_get_entity |].
  intros e. apply preserves_ret.
Qed.

Lemma preserves_run_op (o : op) :
  (∀ e : Entity.t Value, (∀ s, inv s → entities s !! Entity.id e = None →
     inv (mkState (<[Entity.id e := e]> (entities s)) (relationships s)
            (clock_reads s)))) →
  preserves inv (run_op utc o).
Proof.
  intros Hinsert.
  destruct o as [new_entity source|entity_id key value source c|entity_id]; simpl.
  - apply preserves_bind; [apply preserves_merge_entity, Hinsert |].
    intros _. apply preserves_ret.
  - apply preserves_bind; [by apply preserves_utcnow |].
    intros now. apply preserves_step. constructor.
  - apply preserves_bind; [apply preserves_resolve_conflicts |].
    intros _. apply preserves_ret.
Qed.

Lemma preserves_run_ops (os : list op) :
  (∀ e : Entity.t Value, (∀ s, inv s → entities s !! Entity.id e = None →
     inv (mkState (<[Entity.id e := e]> (entities s)) (relationships s)
            (clock_reads s)))) →
  preserves inv (run_ops utc os).
Proof. intros Hinsert. apply preserves_for_each. intros o _. by apply preserves_run_op. Qed.

End manager_invariants.

Section entity_step_facts.
Import Models.
Context {Value : Type} `{!EqDecision Value}.

(** No mutation touches the fields that say what the entity is. *)
Lemma entity_step_identity (g : Entity.t Value → Entity.t Value) (e : Entity.t Value) :
  entity_step g → same_identity e (g e).
Proof.
  intros [key value source confidence now|alias|v|now|attrs]; unfold same_identity.
  - unfold Entity.add_attribute. by destruct (list_find _ _) as [[? ?]|].
  - by case_decide.
  - done.
  - done.
  - done.
Qed.

End entity_step_facts.

Section merge_entity_facts.
Import Models Graph.
Context {Value : Type} `{!EqDecision Value}.
Variable utc : nat → Z.

Lemma triple_of_preserves {A B} (inv : State Value → Prop) (m : M Value A)
    (post : outcome B → State Value → Prop) :
  preserves inv m → (∀ e s, post (Raise e) s) →
  triple inv m (λ o s, match o with Ok _ => inv s | Raise e => post (Raise e) s end).
Proof.
  intros Hm Hraise s Hs. specialize (Hm s Hs).
  destruct (m s) as [[?|?] ?]; simpl in *; [done | apply Hraise].
Qed.

Lemma triple_get_entity {A} (pre : State Value → Prop) (k : string)
    (f : option (Entity.t Value) → M Value A) (post : outcome A → State Value → Prop) :
  (∀ o, triple (λ s, pre s ∧ entities s !! k = o) (f o) post) →
  triple pre (get_entity k ≫= f) post.
Proof. intros Hf s Hs. rewrite bind_get_entity. by apply Hf. Qed.

Lemma is_Some_alter (k k' : string) (g : Entity.t Value → Entity.t Value)
    (m : gmap string (Entity.t Value)) :
  is_Some (alter g k m !! k') ↔ is_Some (m !! k').
Proof.
  rewrite lookup_alter. case_decide as Hk; [| done].
  subst k'. apply fmap_is_Some.
Qed.

(** The invariants used below. *)
Lemma stored_clock_free (k : string) :
  clock_free (λ s : State Value, is_Some (entities s !! k)).
Proof. by intros s n. Qed.

Lemma stored_step (k : string) (s : State Value) (k' : string)
    (g : Entity.t Value → Entity.t Value) :
  is_Some (entities s !! k) →
  is_Some (entities (mkState (alter g k' (entities s)) (relationships s)
                       (clock_reads s)) !! k).
Proof. intros H. simpl. by apply is_Some_alter. Qed.

(** What [merge_entity] returns is the entity that is stored under the id
    afterwards. *)
Lemma merge_entity_returns_stored (new_entity : Entity.t Value) (source : string)
    (s : State Value) (e : Entity.t Value) :
  (merge_entity utc new_entity source s).1 = Ok e →
  entities (merge_entity utc new_entity source s).2 !! Entity.id new_entity = Some e.
Proof.
  set (k := Entity.id new_entity).
  unfold merge_entity. fold k. rewrite bind_get_entity.
  destruct (entities s !! k) as [stored|] eqn:Hstored.
  - assert (Hs : is_Some (entities s !! k)) by eauto.
    clear Hstored. revert e. revert s Hs.
    set (inv := λ s : State Value, is_Some (entities s !! k)).
    set (post := λ (o : outcome (Entity.t Value)) (s : State Value),
                   ∀ e, o = Ok e → entities s !! k = Some e).
    assert (Hstep : ∀ k' g, preserves inv (modify_entity k' g)).
    { intros k' g. apply preserves_modify_entity. intros s. apply stored_step. }
    assert (Hphase : ∀ (m : M Value ()) (f : () → M Value (Entity.t Value)),
              preserves inv m → triple inv (f ()) post → triple inv (m ≫= f) post).
    { intros m f Hm Hf. apply (triple_bind inv (λ _, inv) post).
      - by apply (triple_of_preserves inv m post).
      - by intros []. }
    match goal with
    | |- ∀ s, _ → ∀ e, (?m s).1 = _ → _ => change (triple inv m post)
    end.
    apply Hphase.
    { apply preserves_for_each. intros [key attributes] _.
      apply preserves_for_each. intros attr _.
      apply preserves_bind; [apply preserves_utcnow, stored_clock_free |].
      intros now. apply Hstep. }
    apply Hphase.
    { apply preserves_for_each. intros alias _. apply Hstep. }
    intros s Hs. rewrite bind_get_entity.
    destruct Hs as [existing Hexisting]. rewrite Hexisting.
    assert (Hs : inv s) by (by exists existing). clear Hexisting. revert s Hs.
    match goal with
    | |- ∀ s, inv s → post (?m s).1 (?m s).2 => change (triple inv m post)
    end.
    apply Hphase.
    { destruct (truthy _ && truthy _); [| apply preserves_ret].
      apply preserves_bind; [apply preserves_lift |].
      intros v. apply Hstep. }
    apply (triple_bind inv (λ _, inv) post).
    { apply (triple_of_preserves inv _ post); [| done].
      apply preserves_utcnow, stored_clock_free. }
    intros now. apply Hphase; [apply Hstep |].
    intros s [final Hfinal]. rewrite bind_get_entity, Hfinal.
    intros e [= <-]. done.
  - rewrite bind_put_entity. simpl. intros [= <-]. apply lookup_insert_eq.
Qed.

End merge_entity_facts.

(** ** [merge_entity] and the store *)

Section store_facts.
Import Models Graph.
Context {Value : Type} `{!EqDecision Value}.

(** X5. [merge_entity] adds the id of the incoming entity to the keys of the
    store and no other key, leaves the relationships alone, and returns the
    entity that is stored under that id afterwards.  When the id was not
    stored, the incoming entity is stored as it is, without a read of the
    clock. *)
Theorem merge_entity_store (utc : nat → Z) (new_entity : Entity.t Value)
    (source : string) (s : State Value) :
  let r := merge_entity utc new_entity source s in
  dom (entities r.2) = {[Entity.id new_entity]} ∪ dom (entities s)
  ∧ relationships r.2 = relationships s
  ∧ (∀ e, r.1 = Ok e → entities r.2 !! Entity.id new_entity = Some e)
  ∧ (entities s !! Entity.id new_entity = None →
       r = (Ok new_entity,
            mkState (<[Entity.id new_entity := new_entity]> (entities s))
              (relationships s) (clock_reads s))).
Proof.
  intros r. unfold r.
  assert (Hnew : entities s !! Entity.id new_entity = None →
            merge_entity utc new_entity source s
            = (Ok new_entity,
               mkState (<[Entity.id new_entity := new_entity]> (entities s))
                 (relationships s) (clock_reads s))).
  { intros Hnone. unfold merge_entity. by rewrite bind_get_entity, Hnone. }
  split; [| split; [| split]]; [| | apply merge_entity_returns_stored | done].
  - destruct (entities s !! Entity.id new_entity) as [stored|] eqn:Hstored.
    + apply (preserves_merge_entity utc
               (λ s', dom (entities s') = {[Entity.id new_entity]} ∪ dom (entities s))).
      * by intros s' n.
      * intros s' k g _ Hs'. simpl. by rewrite dom_alter_L.
      * intros s' Hs' _. simpl. rewrite dom_insert_L, Hs'. set_solver.
      * apply elem_of_dom_2 in Hstored. set_solver.
    + rewrite Hnew by done. simpl. apply dom_insert_L.
  - apply (preserves_merge_entity utc (λ s', relationships s' = relationships s)).
    + by intros s' n.
    + by intros s' k g _ Hs'.
    + by intros s' Hs' _.
    + done.
Qed.

(** X6. The store stays keyed by entity id: if every entity is stored under
    its own id, it is so after any sequence of merges, attribute additions
    and conflict resolutions. *)
Theorem store_keyed_by_id (utc : nat → Z) (os : list op) (s : State Value) :
  keyed_by_id s → keyed_by_id (run_ops utc os s).2.
Proof.
  apply (preserves_run_ops utc keyed_by_id).
  - by intros s' n.
  - intros s' k g Hg Hs' k' e. simpl. rewrite lookup_alter.
    case_decide as Hk; [| apply Hs'].
    subst k'. destruct (entities s' !! k) as [e0|] eqn:He0; [| done].
    simpl. intros [= <-]. destruct (entity_step_identity g e0 Hg) as [-> _].
    by apply Hs'.
  - intros e s' Hs' _ k e'. simpl.
    destruct (decide (k = Entity.id e)) as [->|Hk].
    + rewrite lookup_insert_eq. by intros [= <-].
    + rewrite lookup_insert_ne by done. apply Hs'.
Qed.

(** X7. No operation of the manager deletes an entity or changes what it is:
    after any sequence of merges, attribute additions and conflict
    resolutions, whether or not one of them raised, an entity that was stored
    is still stored under its key with the same id, type, name, canonical
    file, confidence, creation time and sources. *)
Theorem entities_never_deleted (utc : nat → Z) (os : list op) (s : State Value)
    (k : string) (e : Entity.t Value) :
  entities s !! k = Some e →
  ∃ e', entities (run_ops utc os s).2 !! k = Some e' ∧ same_identity e e'.
Proof.
  intros He.
  assert (Hkeeps : keeps same_identity 0 (λ _, True) (run_ops utc os)).
  { apply (keeps_run_ops utc same_identity (λ _, True) 0 True); try done.
    - intros a b c (?&?&?&?&?&?&?) (?&?&?&?&?&?&?).
      unfold same_identity. repeat split; congruence.
    - intros e0 key value source confidence now _.
      apply (entity_step_identity
               (λ e, Entity.add_attribute e key value source confidence now) e0).
      constructor.
    - by apply Forall_forall. }
  destruct (run_ops utc os s) as [o s'] eqn:Hrun.
  destruct (Hkeeps s o s' (Nat.le_0_l _) Hrun) as [[_ Hev] _].
  exact (Hev k e He).
Qed.

End store_facts.

Lemma store_keyed_by_id_witness :
  keyed_by_id
    (Graph.run_ops sample_clock
       [Graph.OpMerge julian "user"; Graph.OpResolve "person_julian"]
       store_julian).2.
Proof.
  apply store_keyed_by_id.
  intros k e. unfold store_julian. simpl.
  intros [<- <-]%lookup_singleton_Some. reflexivity.
Defined.

Lemma entities_never_deleted_witness :
  ∃ e', Graph.entities
          (Graph.run_ops sample_clock
             [Graph.OpMerge julian "user"; Graph.OpResolve "person_julian"]
             store_julian).2 !! "person_julian" = Some e'
        ∧ same_identity julian_two_companies e'.
Proof. apply entities_never_deleted. reflexivity. Defined.

(** ** [add_relationship] *)

Section relationship_facts.
Import Models Graph.
Context {Value : Type} `{!EqDecision Value}.
Variable utc : nat → Z.

Lemma same_triple_relation_triple (a b : Relationship.t Value) :
  same_triple a b ↔ relation_triple a = relation_triple b.
Proof.
  unfold same_triple, relation_triple. split.
  - by intros (-> & -> & ->).
  - by intros [= -> -> ->].
Qed.

(** X8. [add_relationship] never raises and never touches the entities.  A
    relationship whose (source, target, type) is not stored yet is appended
    as it is, without a read of the clock.  Otherwise nothing is appended:
    the first stored relationship with that triple gets the time of the call
    as [updated_at] (and possibly the incoming confidence), every other
    stored relationship is left as it is, and the id, the attributes, the
    temporal context and the source of the incoming relationship are
    dropped. *)
Theorem add_relationship_spec (relationship : Relationship.t Value) (s : State Value) :
  let r := add_relationship utc relationship s in
  r.1 = Ok ()
  ∧ entities r.2 = entities s
  ∧ ((∀ x, x ∈ relationships s →
           relation_triple x ≠ relation_triple relationship) →
       r.2 = mkState (entities s) (relationships s ++ [relationship]) (clock_reads s))
  ∧ (∀ i x, list_find (λ x, relation_triple x = relation_triple relationship)
              (relationships s) = Some (i, x) →
       ∃ x', relationships r.2 = <[i := x']> (relationships s)
             ∧ Relationship.updated_at x' = utc (clock_reads s)
             ∧ Relationship.confidence x'
               = (if confidence_value_gt (Relationship.confidence relationship)
                                         (Relationship.confidence x)
                  then Relationship.confidence relationship
                  else Relationship.confidence x)
             ∧ Relationship.id x' = Relationship.id x
             ∧ relation_triple x' = relation_triple x
             ∧ Relationship.attributes x' = Relationship.attributes x
             ∧ Relationship.temporal_context x' = Relationship.temporal_context x
             ∧ Relationship.created_at x' = Relationship.created_at x
             ∧ Relationship.source x' = Relationship.source x).
Proof.
  intros r. unfold r, add_relationship.
  destruct (list_find (λ r0, same_triple r0 relationship) (relationships s))
    as [[j existing]|] eqn:Hfind; simpl.
  - apply list_find_Some in Hfind as (Hj & Hsame & Hfirst).
    split; [done |]. split; [done |]. split.
    + intros Hnew. destruct (Hnew existing); [by eapply list_elem_of_lookup_2 |].
      by apply same_triple_relation_triple.
    + intros i x (Hi & Hx & Hbefore)%list_find_Some.
      assert (i = j) as ->.
      { destruct (Nat.lt_trichotomy i j) as [Hlt|[->|Hlt]]; [| done |].
        - destruct (Hfirst i x Hi Hlt). by apply same_triple_relation_triple.
        - destruct (Hbefore j existing Hj Hlt). by apply same_triple_relation_triple. }
      rewrite Hj in Hi. injection Hi as ->.
      eexists. split; [done |].
      by destruct (confidence_value_gt _ _).
  - apply list_find_None in Hfind. rewrite Forall_forall in Hfind.
    split; [done |]. split; [done |]. split; [done |].
    intros i x (Hi & Hx & _)%list_find_Some.
    destruct (Hfind x); [by eapply list_elem_of_lookup_2 |].
    by apply same_triple_relation_triple.
Qed.

(** X9. [add_relationship] keeps at most one relationship per (source,
    target, type): if the stored relationships have pairwise distinct
    triples, they have so afterwards, and the incoming triple is among
    them. *)
Theorem add_relationship_one_per_triple (relationship : Relationship.t Value)
    (s : State Value) :
  NoDup (relation_triple <$> relationships s) →
  NoDup (relation_triple <$> relationships (add_relationship utc relationship s).2)
  ∧ relation_triple relationship
    ∈ relation_triple <$> relationships (add_relationship utc relationship s).2.
Proof.
  intros Hnodup. unfold add_relationship.
  destruct (list_find (λ r0, same_triple r0 relationship) (relationships s))
    as [[j existing]|] eqn:Hfind; simpl.
  - apply list_find_Some in Hfind as (Hj & Hsame & _).
    apply same_triple_relation_triple in Hsame.
    assert (Hmap : relation_triple
                     <$> <[j := Relationship.with_updated_at
                                  (if confidence_value_gt
                                        (Relationship.confidence relationship)
                                        (Relationship.confidence existing)
                                   then Relationship.with_confidence existing
                                          (Relationship.confidence relationship)
                                   else existing) (utc (clock_reads s))]>
                           (relationships s)
                   = relation_triple <$> relationships s).
    { rewrite list_fmap_insert. apply list_insert_id.
      rewrite list_lookup_fmap, Hj. simpl. f_equal.
      by destruct (confidence_value_gt _ _). }
    rewrite Hmap. split; [done |].
    rewrite <- Hsame. apply list_elem_of_fmap_2. by eapply list_elem_of_lookup_2.
  - apply list_find_None in Hfind. rewrite Forall_forall in Hfind.
    rewrite fmap_app. split.
    + apply NoDup_app. split; [done |]. split; [| apply NoDup_singleton].
      intros t (x & Ht & Hx)%list_elem_of_fmap Hin.
      apply list_elem_of_singleton in Hin. simpl in Hin.
      destruct (Hfind x Hx). apply same_triple_relation_triple. congruence.
    + apply elem_of_app. right. apply list_elem_of_here.
Qed.

End relationship_facts.

Lemma add_relationship_one_per_triple_witness :
  NoDup (relation_triple
           <$> Graph.relationships
                 (Graph.add_relationship sample_clock works_at_low store_works_at).2)
  ∧ relation_triple works_at_low
    ∈ relation_triple
        <$> Graph.relationships
              (Graph.add_relationship sample_clock works_at_low store_works_at).2.
Proof.
  apply add_relationship_one_per_triple.
  apply NoDup_singleton.
Defined.

(** ** [resolve_conflicts], continued *)

Section resolve_more_facts.
Import Models Graph.
Context {Value : Type} `{!EqDecision Value}.

Lemma resolve_conflicts_unfold (entity_id : string) (s : State Value) :
  resolve_conflicts entity_id s
  = match entities s !! entity_id with
    | None => (Ok None, s)
    | Some entity =>
        match resolved_attributes (Entity.attributes entity) with
        | Ok resolved =>
            (Ok (Some (Entity.with_attributes entity resolved)),
             mkState (alter (λ e, Entity.with_attributes e resolved) entity_id
                        (entities s)) (relationships s) (clock_reads s))
        | Raise e => (Raise e, s)
        end
    end.
Proof.
  unfold resolve_conflicts. rewrite bind_get_entity.
  destruct (entities s !! entity_id) as [entity|] eqn:Hentity; [| done].
  rewrite bind_lift. destruct (resolved_attributes _) as [resolved|e]; [| done].
  rewrite bind_modify_entity, bind_get_entity. simpl.
  by rewrite lookup_alter, decide_True, Hentity.
Qed.

(** X10. A successful [resolve_conflicts] keeps the attribute keys of the
    entity and leaves each with exactly one version: the first version of its
    history that is greatest for (confidence value as a string, timestamp).
    It changes nothing else in the entity, nothing in the other entities or
    in the relationships, and does not read the clock. *)
Theorem resolve_conflicts_result (entity_id : string) (s s' : State Value)
    (entity resolved : Entity.t Value) :
  entities s !! entity_id = Some entity →
  resolve_conflicts entity_id s = (Ok (Some resolved), s') →
  s' = mkState (<[entity_id := resolved]> (entities s)) (relationships s)
         (clock_reads s)
  ∧ resolved = Entity.with_attributes entity (Entity.attributes resolved)
  ∧ dom (Entity.attributes resolved) = dom (Entity.attributes entity)
  ∧ ∀ key history, Entity.attributes entity !! key = Some history →
      ∃ before best after,
        history = before ++ best :: after
        ∧ Entity.attributes resolved !! key = Some [best]
        ∧ (∀ x, x ∈ before → lex_lt (best_rank x) (best_rank best))
        ∧ (∀ x, x ∈ after → ¬ lex_lt (best_rank best) (best_rank x)).
Proof.
  intros Hentity. rewrite resolve_conflicts_unfold, Hentity.
  pose proof (resolved_attributes_spec (Entity.attributes entity)) as Hspec.
  destruct (resolved_attributes _) as [attrs|e]; [| done].
  intros [= <- <-]. split; [| split; [done | split]].
  - f_equal. apply map_eq. intros k. rewrite lookup_alter.
    destruct (decide (entity_id = k)) as [<-|Hk].
    + by rewrite lookup_insert_eq, Hentity.
    + by rewrite lookup_insert_ne.
  - apply set_eq. intros key. rewrite !elem_of_dom. simpl.
    specialize (Hspec key).
    destruct (Entity.attributes entity !! key) as [history|].
    + destruct Hspec as (best & _ & ->). split; eauto.
    + rewrite Hspec. by split; intros [? ?].
  - intros key history Hhistory. specialize (Hspec key).
    rewrite Hhistory in Hspec. destruct Hspec as (best & Hmax & Hlookup).
    destruct (py_max_spec _ _ confidence_timestamp_gt_rank _ _ Hmax)
      as (before & after & Heq & Hb & Ha).
    by exists before, best, after.
Qed.

(** A map of one-version histories is its own resolution. *)
Lemma resolved_attributes_singletons (attrs : gmap string (list (Attribute.t Value))) :
  (∀ key history, attrs !! key = Some history → ∃ a, history = [a]) →
  resolved_attributes attrs = Ok attrs.
Proof.
  intros Hsingle.
  pose proof (resolved_attributes_spec attrs) as Hspec.
  destruct (resolved_attributes attrs) as [resolved|e].
  - f_equal. apply map_eq. intros key. specialize (Hspec key).
    destruct (attrs !! key) as [history|] eqn:Hkey; [| done].
    destruct (Hsingle key history Hkey) as [a ->].
    by destruct Hspec as (best & [= <-] & ->).
  - destruct Hspec as [_ (key & Hkey)].
    by destruct (Hsingle key [] Hkey).
Qed.

(** X11. [resolve_conflicts] is idempotent: resolving again right after a
    successful resolution returns the same entity and changes nothing. *)
Theorem resolve_conflicts_idempotent (entity_id : string) (s s' : State Value)
    (result : option (Entity.t Value)) :
  resolve_conflicts entity_id s = (Ok result, s') →
  resolve_conflicts entity_id s' = (Ok result, s').
Proof.
  rewrite resolve_conflicts_unfold.
  destruct (entities s !! entity_id) as [entity|] eqn:Hentity.
  - pose proof (resolved_attributes_spec (Entity.attributes entity)) as Hspec.
    destruct (resolved_attributes _) as [attrs|e]; [| done].
    intros [= <- <-]. rewrite resolve_conflicts_unfold. simpl.
    rewrite lookup_alter, decide_True, Hentity by done. simpl.
    rewrite resolved_attributes_singletons.
    + f_equal. f_equal. apply map_eq. intros k. rewrite !lookup_alter.
      destruct (decide (entity_id = k)) as [<-|Hk]; [| done].
      rewrite decide_True by done. by rewrite Hentity.
    + intros key history Hkey. specialize (Hspec key).
      destruct (Entity.attributes entity !! key) as [old|].
      * destruct Hspec as (best & _ & Hbest). rewrite Hkey in Hbest.
        injection Hbest as ->. eauto.
      * congruence.
  - intros [= <- <-]. by rewrite resolve_conflicts_unfold, Hentity.
Qed.

(** X12. [resolve_conflicts] raises exactly when the entity is stored and one
    of its attribute keys maps to an empty list; the exception is
    [ValueError] and the state is left as it was. *)
Theorem resolve_conflicts_raises_iff (entity_id : string) (s : State Value) (e : exn) :
  ((resolve_conflicts entity_id s).1 = Raise e
   ↔ e = ValueError
     ∧ ∃ entity key, entities s !! entity_id = Some entity
                     ∧ Entity.attributes entity !! key = Some [])
  ∧ ((resolve_conflicts entity_id s).1 = Raise e →
     (resolve_conflicts entity_id s).2 = s).
Proof.
  rewrite resolve_conflicts_unfold.
  destruct (entities s !! entity_id) as [entity|] eqn:Hentity.
  - pose proof (resolved_attributes_spec (Entity.attributes entity)) as Hspec.
    destruct (resolved_attributes _) as [attrs|e']; simpl.
    + split; [| done]. split; [done |].
      intros (_ & entity' & key & [= <-] & Hkey). specialize (Hspec key).
      rewrite Hkey in Hspec. by destruct Hspec as (best & [=] & _).
    + split; [| done]. destruct Hspec as [-> (key & Hkey)]. split.
      * intros [= <-]. eauto.
      * by intros [-> _].
  - simpl. split; [| done]. split; [done |]. by intros (_ & ? & ? & [=] & _).
Qed.

End resolve_more_facts.

Lemma resolve_conflicts_result_witness :
  ∃ resolved s',
    s' = Graph.mkState (<["person_julian" := resolved]> (Graph.entities store_julian))
           (Graph.relationships store_julian) (Graph.clock_reads store_julian)
    ∧ resolved
      = Models.Entity.with_attributes julian_two_companies
          (Models.Entity.attributes resolved)
    ∧ dom (Models.Entity.attributes resolved)
      = dom (Models.Entity.attributes julian_two_companies)
    ∧ ∀ key history,
        Models.Entity.attributes julian_two_companies !! key = Some history →
        ∃ before best after,
          history = before ++ best :: after
          ∧ Models.Entity.attributes resolved !! key = Some [best]
          ∧ (∀ x, x ∈ before → lex_lt (best_rank x) (best_rank best))
          ∧ (∀ x, x ∈ after → ¬ lex_lt (best_rank best) (best_rank x)).
Proof.
  eexists _, _.
  apply (resolve_conflicts_result "person_julian" store_julian).
  - reflexivity.
  - reflexivity.
Defined.

Lemma resolve_conflicts_idempotent_witness :
  Graph.resolve_conflicts "person_julian"
    (Graph.resolve_conflicts "person_julian" store_julian).2
  = Graph.resolve_conflicts "person_julian" store_julian.
Proof.
  apply (resolve_conflicts_idempotent "person_julian" store_julian).
  reflexivity.
Defined.

(** ** [determine_canonical_locations], continued *)

Section canonical_location_facts.
Import Models Graph.
Context {Value : Type} `{!EqDecision Value}.

(** The file an entity is sent to, by type. *)
Lemma canonical_location_cases (entity : Entity.t Value) (f : string) :
  canonical_location entity = Ok (Some f) →
  (Entity.type entity = PERSON
   ∧ (f = "Professional Journey.md" ∨ f = "Personal Info.md"))
  ∨ (Entity.type entity = ORGANIZATION ∧ f = "Professional Journey.md")
  ∨ (Entity.type entity = PROJECT ∧ f = "Projects.md").
Proof.
  destruct (Entity.type entity) eqn:Hty.
  - rewrite (canonical_location_person entity Hty). intros [= <-].
    left. split; [done |]. case_decide; eauto.
  - unfold canonical_location. rewrite Hty. simpl. intros [= <-]. eauto.
  - unfold canonical_location. rewrite Hty. simpl. intros [= <-]. eauto.
  - by rewrite canonical_location_unregistered by by rewrite Hty.
  - by rewrite canonical_location_unregistered by by rewrite Hty.
  - by rewrite canonical_location_unregistered by by rewrite Hty.
  - by rewrite canonical_location_unregistered by by rewrite Hty.
  - by rewrite canonical_location_unregistered by by rewrite Hty.
  - by rewrite canonical_location_unregistered by by rewrite Hty.
  - by rewrite canonical_location_unregistered by by rewrite Hty.
Qed.

Lemma canonical_location_registered (entity : Entity.t Value) :
  is_Some (canonical_mappings (Entity.type entity)) →
  ∃ f, canonical_location entity = Ok (Some f).
Proof.
  destruct (Entity.type entity) eqn:Hty; simpl; try by intros [? [=]].
  - intros _. rewrite (canonical_location_person entity Hty). eauto.
  - intros _. unfold canonical_location. rewrite Hty. simpl. eauto.
  - intros _. unfold canonical_location. rewrite Hty. simpl. eauto.
Qed.

Lemma determine_canonical_locations_from_entries
    (entities : list (Entity.t Value)) (file_mappings result : gmap string string) :
  determine_canonical_locations_from file_mappings entities = Ok result →
  ∀ k, (∀ f, result !! k = Some f →
          file_mappings !! k = Some f
          ∨ ∃ entity, entity ∈ entities ∧ Entity.id entity = k
                      ∧ canonical_location entity = Ok (Some f))
       ∧ (is_Some (file_mappings !! k)
          ∨ (∃ entity f, entity ∈ entities ∧ Entity.id entity = k
                         ∧ canonical_location entity = Ok (Some f))
          → is_Some (result !! k)).
Proof.
  revert file_mappings.
  induction entities as [|x entities IH]; intros file_mappings; simpl.
  - intros [= <-] k. split; [eauto |].
    intros [H|(entity & ? & []%elem_of_nil & _)]. done.
  - destruct (canonical_location_ok x) as [loc Hloc]. rewrite Hloc. simpl.
    intros Hres k. destruct (IH _ Hres k) as [Hfrom Hto]. split.
    + intros f Hf. destruct (Hfrom f Hf) as [Hacc|(entity & Hin & Hid & Hcl)].
      * destruct loc as [g|]; [| by left].
        destruct (decide (Entity.id x = k)) as [Hk|Hk].
        -- rewrite <- Hk, lookup_insert_eq in Hacc. injection Hacc as ->.
           right. exists x. split; [apply list_elem_of_here | done].
        -- rewrite lookup_insert_ne in Hacc by done. by left.
      * right. exists entity. split; [by apply list_elem_of_further | done].
    + intros [Hacc|(entity & f & Hin & Hid & Hcl)].
      * apply Hto. left. destruct loc as [g|]; [| done].
        destruct (decide (Entity.id x = k)) as [Hk|Hk].
        -- rewrite <- Hk, lookup_insert_eq. eauto.
        -- by rewrite lookup_insert_ne.
      * apply elem_of_cons in Hin as [->|Hin].
        -- apply Hto. left. rewrite Hcl in Hloc. injection Hloc as <-.
           rewrite <- Hid, lookup_insert_eq. eauto.
        -- apply Hto. right. eauto.
Qed.

(** X13. [determine_canonical_locations] never raises.  The ids it maps are
    exactly those of the persons, organisations and projects in the list;
    entities of the other types get no entry; and every file it names is
    one of [Professional Journey.md], [Personal Info.md], [Projects.md]
    (never the fallback [Knowledge Base.md]). *)
Theorem determine_canonical_locations_entries (entities : list (Entity.t Value)) :
  ∃ file_mappings,
    determine_canonical_locations entities = Ok file_mappings
    ∧ (∀ k, is_Some (file_mappings !! k)
            ↔ ∃ entity, entity ∈ entities ∧ Entity.id entity = k
                        ∧ Entity.type entity ∈ [PERSON; ORGANIZATION; PROJECT])
    ∧ (∀ k f, file_mappings !! k = Some f →
              f ∈ ["Professional Journey.md"; "Personal Info.md"; "Projects.md"]).
Proof.
  destruct (determine_canonical_locations_ok entities) as [file_mappings Hres].
  exists file_mappings. split; [done |].
  pose proof (determine_canonical_locations_from_entries entities ∅ file_mappings Hres)
    as Hentries.
  split.
  - intros k. destruct (Hentries k) as [Hfrom Hto]. split.
    + intros [f Hf]. destruct (Hfrom f Hf) as [Hacc|(entity & Hin & Hid & Hcl)];
        [by rewrite lookup_empty in Hacc |].
      exists entity. split; [done |]. split; [done |].
      destruct (canonical_location_cases entity f Hcl)
        as [[-> _]|[[-> _]|[-> _]]]; set_solver.
    + intros (entity & Hin & Hid & Hty). apply Hto. right.
      destruct (canonical_location_registered entity) as [f Hf].
      { apply elem_of_cons in Hty as [->|Hty]; [by eexists |].
        apply elem_of_cons in Hty as [->|Hty]; [by eexists |].
        apply list_elem_of_singleton in Hty as ->. by eexists. }
      eauto.
  - intros k f Hf. destruct (Hentries k) as [Hfrom _].
    destruct (Hfrom f Hf) as [Hacc|(entity & Hin & Hid & Hcl)];
      [by rewrite lookup_empty in Hacc |].
    destruct (canonical_location_cases entity f Hcl)
      as [[_ [-> | ->]]|[[_ ->]|[_ ->]]]; set_solver.
Qed.

End canonical_location_facts.

(** ** The two routers *)

Section routing_totality.
Context {Value : Type} `{!EqDecision Value}.

(** C4, amended. [CanonicalLocationAgent.process], the routing operation
    that takes a status, is total: for each of the entity types and each of
    the status values it gives a destination that is not the empty string,
    and where the table holds no rule for the status and the type the
    destination is the generic one, built from the entity id alone.  The
    batch router [determine_canonical_locations] never fails either, but it
    has no fallback: it gives a destination, which is not empty, to the ids
    of the persons, organisations and projects of the list and to no other
    id. *)
Theorem route_total :
  (∀ (entity : Agents.Entity.t Value) (status : Agents.InformationStatus),
     Agents.route entity status ≠ ""
     ∧ ((Agents.routing_rules (Value := Value) status
           ≫= λ rules, rules (Agents.Entity.type entity)) = None →
        Agents.route entity status
          = "entities/generic/" +:+ Agents.Entity.id entity +:+ "/data.json"))
  ∧ (∀ entities : list (Models.Entity.t Value),
       ∃ file_mappings,
         Graph.determine_canonical_locations entities = Ok file_mappings
         ∧ (∀ k, is_Some (file_mappings !! k)
                 ↔ ∃ entity, entity ∈ entities ∧ Models.Entity.id entity = k
                             ∧ Models.Entity.type entity
                               ∈ [Models.PERSON; Models.ORGANIZATION; Models.PROJECT])
         ∧ (∀ k f, file_mappings !! k = Some f → f ≠ "")).
Proof.
  split.
  - intros entity status. unfold Agents.route, Agents.generic_location. split.
    + destruct status, (Agents.Entity.type entity); simpl; apply append_not_empty.
    + destruct status, (Agents.Entity.type entity); simpl; done.
  - intros entities.
    destruct (determine_canonical_locations_ok entities) as [file_mappings Hres].
    exists file_mappings. split; [done |].
    pose proof (determine_canonical_locations_from_entries entities ∅ file_mappings
                  Hres) as Hentries.
    split.
    + intros k. destruct (Hentries k) as [Hfrom Hto]. split.
      * intros [f Hf]. destruct (Hfrom f Hf) as [Hacc|(entity & Hin & Hid & Hcl)];
          [by rewrite lookup_empty in Hacc |].
        exists entity. split; [done |]. split; [done |].
        destruct (canonical_location_cases entity f Hcl)
          as [[-> _]|[[-> _]|[-> _]]]; set_solver.
      * intros (entity & Hin & Hid & Hty). apply Hto. right.
        destruct (canonical_location_registered entity) as [f Hf].
        { apply elem_of_cons in Hty as [->|Hty]; [by eexists |].
          apply elem_of_cons in Hty as [->|Hty]; [by eexists |].
          apply list_elem_of_singleton in Hty as ->. by eexists. }
        eauto.
    + intros k f Hf. destruct (Hentries k) as [Hfrom _].
      destruct (Hfrom f Hf) as [Hacc|(entity & Hin & Hid & Hcl)];
        [by rewrite lookup_empty in Hacc |].
      by destruct (canonical_location_cases entity f Hcl)
        as [[_ [-> | ->]]|[[_ ->]|[_ ->]]].
Qed.

End routing_totality.

Lemma route_total_witness :
  Agents.route (Agents.Entity.mk (Value := string) "location_vienna" Agents.LOCATION "Vienna" [] ∅ None
           (Agents.Confidence.mk (9 # 10) "user" 5) 5 5) Agents.PLANNED
  = "entities/generic/location_vienna/data.json".
Proof.
  apply (proj2 (proj1 route_total
    (Agents.Entity.mk (Value := string) "location_vienna" Agents.LOCATION "Vienna" [] ∅ None
       (Agents.Confidence.mk (9 # 10) "user" 5) 5 5) Agents.PLANNED)).
  reflexivity.
Defined.

(** C4, as stated, fails for the batch router: Vienna has the declared type
    [LOCATION], for which no file is registered, and
    [determine_canonical_locations] gives it no destination at all, neither
    a specific nor a generic one. *)
Lemma location_gets_no_destination :
  Models.Entity.type vienna = Models.LOCATION
  ∧ ∃ file_mappings,
      Graph.determine_canonical_locations [vienna] = Ok file_mappings
      ∧ file_mappings !! Models.Entity.id vienna = None.
Proof. split; [done |]. exists ∅. split; [reflexivity | apply lookup_empty]. Qed.

(** ** [merge_entity] into a stored entity *)

Section returns_facts.
Import Models Graph.
Context {Value : Type} `{!EqDecision Value}.
Variable utc : nat → Z.

Lemma returns_ret {A} (pre : State Value → Prop) (post : A → State Value → Prop)
    (a : A) :
  (∀ s, pre s → post a s) → returns pre (mret a) post.
Proof. intros H s Hs. exists a. split; [done | by apply H]. Qed.

Lemma returns_bind {A B} (pre : State Value → Prop) (mid : A → State Value → Prop)
    (post : B → State Value → Prop) (m : M Value A) (f : A → M Value B) :
  returns pre m mid → (∀ a, returns (mid a) (f a) post) → returns pre (m ≫= f) post.
Proof.
  intros Hm Hf s Hs. destruct (Hm s Hs) as (a & Ha & Hmid).
  unfold mbind, M_bind. destruct (m s) as [o s1]. simpl in *. subst o.
  by apply Hf.
Qed.

Lemma triple_bind_returns {A B} (pre : State Value → Prop)
    (mid : A → State Value → Prop) (post : outcome B → State Value → Prop)
    (m : M Value A) (f : A → M Value B) :
  returns pre m mid → (∀ a, triple (mid a) (f a) post) → triple pre (m ≫= f) post.
Proof.
  intros Hm Hf s Hs. destruct (Hm s Hs) as (a & Ha & Hmid).
  unfold mbind, M_bind. destruct (m s) as [o s1]. simpl in *. subst o.
  by apply Hf.
Qed.

(** A loop with an invariant that may depend on the elements done so far. *)
Lemma returns_for_each_from {A} (inv : list A → State Value → Prop) (xs done : list A)
    (body : A → M Value ()) :
  (∀ d x rest, xs = d ++ x :: rest →
     returns (inv (done ++ d)) (body x) (λ _, inv (done ++ d ++ [x]))) →
  returns (inv done) (for_each xs body) (λ _, inv (done ++ xs)).
Proof.
  revert done. induction xs as [|x xs IH]; intros done Hbody; simpl.
  - apply returns_ret. intros s. by rewrite app_nil_r.
  - apply (returns_bind _ (λ _, inv (done ++ [x]))).
    + specialize (Hbody [] x xs eq_refl). by rewrite app_nil_r in Hbody.
    + intros _. replace (done ++ x :: xs) with ((done ++ [x]) ++ xs)
        by by rewrite <- app_assoc.
      apply IH. intros d y rest ->.
      specialize (Hbody (x :: d) y rest eq_refl).
      by rewrite <- !app_assoc.
Qed.

Lemma returns_for_each {A} (inv : list A → State Value → Prop) (xs : list A)
    (body : A → M Value ()) :
  (∀ d x rest, xs = d ++ x :: rest →
     returns (inv d) (body x) (λ _, inv (d ++ [x]))) →
  returns (inv []) (for_each xs body) (λ _, inv xs).
Proof. intros Hbody. by apply (returns_for_each_from inv xs []). Qed.

Lemma returns_utcnow (pre : State Value → Prop) :
  clock_free pre → returns pre (utcnow utc) (λ _, pre).
Proof. intros Hfree s Hs. eexists. split; [done |]. by apply Hfree. Qed.

Lemma stored_with_clock_free (k : string) (P : Entity.t Value → Prop) :
  clock_free (stored_with k P).
Proof. by intros s n. Qed.

Lemma returns_modify_stored (k : string) (P Q : Entity.t Value → Prop)
    (g : Entity.t Value → Entity.t Value) :
  (∀ e, P e → Q (g e)) →
  returns (stored_with k P) (modify_entity k g) (λ _, stored_with k Q).
Proof.
  intros Hg s (e & He & HP). exists (). split; [done |].
  exists (g e). simpl. rewrite lookup_alter_eq, He. split; [done | by apply Hg].
Qed.

Lemma preserves_modify_stored (k : string) (P : Entity.t Value → Prop)
    (g : Entity.t Value → Entity.t Value) :
  (∀ e, P e → P (g e)) → preserves (stored_with k P) (modify_entity k g).
Proof.
  intros Hg s (e & He & HP).
  exists (g e). simpl. rewrite lookup_alter_eq, He. split; [done | by apply Hg].
Qed.

(** [merge_entity] is its three parts, one after the other. *)
Lemma merge_entity_phases (new_entity : Entity.t Value) (source : string) :
  merge_entity utc new_entity source
  = (existing ← get_entity (Entity.id new_entity);
     match existing with
     | None => put_entity (Entity.id new_entity) new_entity;; mret new_entity
     | Some _ =>
         merge_attributes utc (Entity.id new_entity) new_entity source;;
         merge_aliases (Entity.id new_entity) new_entity;;
         merge_embeddings utc (Entity.id new_entity) new_entity
     end).
Proof. reflexivity. Qed.

Lemma merge_entity_stored (new_entity : Entity.t Value) (source : string)
    (P P1 P2 : Entity.t Value → Prop)
    (post : outcome (Entity.t Value) → State Value → Prop) :
  returns (stored_with (Entity.id new_entity) P)
    (merge_attributes utc (Entity.id new_entity) new_entity source)
    (λ _, stored_with (Entity.id new_entity) P1) →
  returns (stored_with (Entity.id new_entity) P1)
    (merge_aliases (Entity.id new_entity) new_entity)
    (λ _, stored_with (Entity.id new_entity) P2) →
  triple (stored_with (Entity.id new_entity) P2)
    (merge_embeddings utc (Entity.id new_entity) new_entity) post →
  triple (stored_with (Entity.id new_entity) P) (merge_entity utc new_entity source) post.
Proof.
  intros H1 H2 H3 s Hs. rewrite merge_entity_phases, bind_get_entity.
  destruct Hs as (e & He & HP). rewrite He.
  assert (Hs : stored_with (Entity.id new_entity) P s) by by exists e.
  clear He HP. revert s Hs.
  match goal with
  | |- ∀ s, _ → post (?m s).1 (?m s).2 =>
      change (triple (stored_with (Entity.id new_entity) P) m post)
  end.
  apply (triple_bind_returns _ (λ _, stored_with (Entity.id new_entity) P1));
    [done |].
  intros _.
  apply (triple_bind_returns _ (λ _, stored_with (Entity.id new_entity) P2));
    [done |].
  intros _. exact H3.
Qed.

(** The loop over the incoming attributes returns and keeps what
    [add_attribute] keeps. *)
Lemma merge_attributes_returns (k : string) (new_entity : Entity.t Value)
    (source : string) (P : Entity.t Value → Prop) :
  (∀ e key attributes attr now,
     Entity.attributes new_entity !! key = Some attributes → attr ∈ attributes →
     P e →
     P (Entity.add_attribute e key (Attribute.value attr) source
          (Attribute.confidence attr) now)) →
  returns (stored_with k P) (merge_attributes utc k new_entity source)
    (λ _, stored_with k P).
Proof.
  intros Hadd. unfold merge_attributes.
  apply (returns_for_each (λ _, stored_with k P)).
  intros d [key attributes] rest Hxs.
  assert (Hkey : Entity.attributes new_entity !! key = Some attributes).
  { apply elem_of_map_to_list. rewrite Hxs. apply elem_of_app. right.
    apply list_elem_of_here. }
  apply (returns_for_each (λ _, stored_with k P)).
  intros d' attr rest' Hattrs.
  apply (returns_bind _ (λ _, stored_with k P)).
  - apply returns_utcnow, stored_with_clock_free.
  - intros now. apply returns_modify_stored. intros e.
    apply (Hadd e key attributes attr now Hkey).
    rewrite Hattrs. apply elem_of_app. right. apply list_elem_of_here.
Qed.

(** The loop over the incoming aliases returns and keeps what the addition
    of an alias keeps. *)
Lemma merge_aliases_returns (k : string) (new_entity : Entity.t Value)
    (P : Entity.t Value → Prop) :
  (∀ e l, P e → P (Entity.with_aliases e l)) →
  returns (stored_with k P) (merge_aliases k new_entity) (λ _, stored_with k P).
Proof.
  intros Halias. unfold merge_aliases.
  apply (returns_for_each (λ _, stored_with k P)).
  intros d alias rest _. apply returns_modify_stored. intros e He.
  case_decide; [done | by apply Halias].
Qed.

(** The last part keeps what the writes of [embeddings] and of [updated_at]
    keep, whether it returns or raises. *)
Lemma merge_embeddings_preserves (k : string) (new_entity : Entity.t Value)
    (P : Entity.t Value → Prop) :
  (∀ e v, P e → P (Entity.with_embeddings e v)) →
  (∀ e now, P e → P (Entity.with_updated_at e now)) →
  preserves (stored_with k P) (merge_embeddings utc k new_entity).
Proof.
  intros Hemb Hupd. unfold merge_embeddings.
  apply preserves_bind; [apply preserves_get_entity |].
  intros [existing|]; [| apply preserves_ret].
  apply preserves_bind.
  { destruct (truthy _ && truthy _); [| apply preserves_ret].
    apply preserves_bind; [apply preserves_lift |].
    intros v. apply preserves_modify_stored. intros e. apply Hemb. }
  intros _. apply preserves_bind;
    [apply preserves_utcnow, stored_with_clock_free |].
  intros now. apply preserves_bind.
  { apply preserves_modify_stored. intros e. apply Hupd. }
  intros _. apply preserves_bind; [apply preserves_get_entity |].
  intros merged. apply preserves_ret.
Qed.

End returns_facts.

Section merge_entity_stored_facts.
Import Models Graph.
Context {Value : Type} `{!EqDecision Value}.
Variable utc : nat → Z.

(** The loop over the incoming aliases: the aliases that were stored stay in
    front, the others are those of the incoming entity done so far, and no
    alias is added twice. *)
Lemma merge_aliases_spec (k : string) (new_entity : Entity.t Value) (l0 : list string) :
  returns (stored_with k (λ e, Entity.aliases e = l0)) (merge_aliases k new_entity)
    (λ _, stored_with k (λ e,
       l0 `prefix_of` Entity.aliases e
       ∧ (∀ a, a ∈ Entity.aliases e ↔ a ∈ l0 ∨ a ∈ Entity.aliases new_entity)
       ∧ (NoDup l0 → NoDup (Entity.aliases e)))).
Proof.
  set (inv := λ (done : list string), stored_with (Value := Value) k (λ e,
       l0 `prefix_of` Entity.aliases e
       ∧ (∀ a, a ∈ Entity.aliases e ↔ a ∈ l0 ∨ a ∈ done)
       ∧ (NoDup l0 → NoDup (Entity.aliases e)))).
  apply (triple_weaken (inv []) _
           (λ o s, ∃ a, o = Ok a ∧ inv (Entity.aliases new_entity) s)).
  { intros s (e & He & Hl). exists e. split; [done |]. rewrite Hl.
    split; [done |]. split; [| done].
    intros a. split; [by left |]. by intros [?|?%elem_of_nil]. }
  { done. }
  apply (returns_for_each inv). intros d alias rest _.
  apply returns_modify_stored. intros e (Hprefix & Hin & Hnodup).
  case_decide as Halias.
  - split; [done |]. split; [| done].
    intros a. rewrite elem_of_app, list_elem_of_singleton, Hin.
    split; [tauto |]. intros [?|[?| ->]]; [tauto | tauto |]. by apply Hin.
  - simpl. split; [by apply prefix_app_r |]. split.
    + intros a. rewrite !elem_of_app, list_elem_of_singleton, Hin. tauto.
    + intros H0. apply NoDup_app. split; [by apply Hnodup |].
      split; [| apply NoDup_singleton].
      intros a Ha ->%list_elem_of_singleton. done.
Qed.

(** X14. Merging into an entity that is stored already only appends aliases:
    the stored aliases stay in front in their order, the aliases afterwards
    are exactly the stored ones and the incoming ones, and no alias is
    entered twice.  This holds whether [merge_entity] returns or raises. *)
Theorem merge_entity_aliases (new_entity : Entity.t Value) (source : string)
    (s : State Value) (existing : Entity.t Value) :
  entities s !! Entity.id new_entity = Some existing →
  ∃ merged,
    entities (merge_entity utc new_entity source s).2 !! Entity.id new_entity
      = Some merged
    ∧ Entity.aliases existing `prefix_of` Entity.aliases merged
    ∧ (∀ a, a ∈ Entity.aliases merged
            ↔ a ∈ Entity.aliases existing ∨ a ∈ Entity.aliases new_entity)
    ∧ (NoDup (Entity.aliases existing) → NoDup (Entity.aliases merged)).
Proof.
  intros Hexisting.
  set (P := λ e : Entity.t Value, Entity.aliases e = Entity.aliases existing).
  set (P2 := λ e : Entity.t Value,
       Entity.aliases existing `prefix_of` Entity.aliases e
       ∧ (∀ a, a ∈ Entity.aliases e
               ↔ a ∈ Entity.aliases existing ∨ a ∈ Entity.aliases new_entity)
       ∧ (NoDup (Entity.aliases existing) → NoDup (Entity.aliases e))).
  apply (merge_entity_stored utc new_entity source P P P2
           (λ _, stored_with (Entity.id new_entity) P2)).
  - apply merge_attributes_returns. intros e key attributes attr now _ _ He.
    unfold P, Entity.add_attribute. by destruct (list_find _ _) as [[? ?]|].
  - apply merge_aliases_spec.
  - by apply merge_embeddings_preserves.
  - by exists existing.
Qed.

(** The values under a key after [add_attribute]. *)
Lemma has_value_add_attribute (e : Entity.t Value) (key : string) (value : Value)
    (source : string) (confidence : ConfidenceLevel) (now : Z) (k : string) (v : Value) :
  has_value (Entity.add_attribute e key value source confidence now) k v
  ↔ has_value e k v ∨ (k = key ∧ v = value).
Proof.
  unfold has_value. rewrite versions_add_attribute.
  case_decide as Hk; [subst k |].
  - destruct (list_find _ _) as [[i found]|] eqn:Hfind.
    + apply list_find_Some in Hfind as (Hi & Hvalue & _).
      rewrite list_fmap_insert, list_insert_id.
      * split; [by left |]. intros [?|[_ ->]]; [done |].
        apply list_elem_of_fmap. exists found. split; [done |].
        by eapply list_elem_of_lookup_2.
      * rewrite list_lookup_fmap, Hi. simpl. f_equal.
        unfold Entity.reobserve. by destruct (confidence_value_gt _ _).
    + rewrite fmap_app, elem_of_app. simpl. rewrite list_elem_of_singleton.
      tauto.
  - split; [by left |]. by intros [?|[? _]].
Qed.

(** X15. Merging into an entity that is stored already keeps every value
    that was stored and stores every incoming value, under its key, and no
    other value: afterwards a key holds a value exactly when it held it
    before or some incoming version of the key has it.  This holds whether
    [merge_entity] returns or raises. *)
Theorem merge_entity_values (new_entity : Entity.t Value) (source : string)
    (s : State Value) (existing : Entity.t Value) :
  entities s !! Entity.id new_entity = Some existing →
  ∃ merged,
    entities (merge_entity utc new_entity source s).2 !! Entity.id new_entity
      = Some merged
    ∧ ∀ key v,
        has_value merged key v
        ↔ has_value existing key v
          ∨ ∃ attributes attr,
              Entity.attributes new_entity !! key = Some attributes
              ∧ attr ∈ attributes ∧ Attribute.value attr = v.
Proof.
  intros Hexisting.
  set (k := Entity.id new_entity).
  set (inv := λ (done : list (string * list (Attribute.t Value))),
       stored_with k (λ e, ∀ key v,
         has_value e key v
         ↔ has_value existing key v
           ∨ ∃ attributes attr,
               (key, attributes) ∈ done
               ∧ attr ∈ attributes ∧ Attribute.value attr = v)).
  set (P := λ e : Entity.t Value, ∀ key v,
         has_value e key v
         ↔ has_value existing key v
           ∨ ∃ attributes attr,
               Entity.attributes new_entity !! key = Some attributes
               ∧ attr ∈ attributes ∧ Attribute.value attr = v).
  apply (merge_entity_stored utc new_entity source (λ e, e = existing) P P
           (λ _, stored_with k P)).
  - unfold merge_attributes. fold k.
    apply (triple_weaken (inv []) _
             (λ o s, ∃ a, o = Ok a
                          ∧ inv (map_to_list (Entity.attributes new_entity)) s)).
    { intros s0 (e & He & ->). exists existing. split; [done |].
      intros key v. split; [by left |].
      by intros [?|(? & ? & ?%elem_of_nil & _)]. }
    { intros o s0 (a & Ha & e & He & HP). exists a. split; [done |].
      exists e. split; [done |]. intros key v. rewrite (HP key v).
      by setoid_rewrite elem_of_map_to_list. }
    apply (returns_for_each inv). intros d [key attributes] rest _.
    set (inv' := λ (done : list (Attribute.t Value)),
         stored_with k (λ e, ∀ key' v,
           has_value e key' v
           ↔ has_value existing key' v
             ∨ (∃ attributes' attr,
                 (key', attributes') ∈ d
                 ∧ attr ∈ attributes' ∧ Attribute.value attr = v)
             ∨ (key' = key ∧ ∃ attr, attr ∈ done ∧ Attribute.value attr = v))).
    apply (triple_weaken (inv' []) _
             (λ o s, ∃ a, o = Ok a ∧ inv' attributes s)).
    { intros s0 (e & He & HP). exists e. split; [done |].
      intros key' v. rewrite (HP key' v).
      split; [tauto |]. intros [?|[?|[_ (? & ?%elem_of_nil & _)]]]; tauto. }
    { intros o s0 (a & Ha & e & He & HP). exists a. split; [done |].
      exists e. split; [done |]. intros key' v. rewrite (HP key' v).
      split.
      - intros [?|[(attributes' & attr & Hin & ? & ?)|[-> (attr & ? & ?)]]];
          [by left | |].
        + right. exists attributes', attr. rewrite elem_of_app. tauto.
        + right. exists attributes, attr. rewrite elem_of_app, list_elem_of_singleton.
          tauto.
      - intros [?|(attributes' & attr & Hin & ? & ?)]; [by left |].
        apply elem_of_app in Hin as [Hin|Hin].
        + right. left. by exists attributes', attr.
        + apply list_elem_of_singleton in Hin. injection Hin as -> ->.
          right. right. split; [done |]. by exists attr. }
    apply (returns_for_each inv'). intros d' attr rest' _.
    apply (returns_bind _ (λ _, inv' d')).
    { apply returns_utcnow, stored_with_clock_free. }
    intros now. apply returns_modify_stored. intros e HP key' v.
    rewrite has_value_add_attribute, (HP key' v).
    split.
    + intros [[?|[?|[-> (attr' & ? & ?)]]]|[-> ->]]; [tauto | tauto | |].
      * right. right. split; [done |]. exists attr'. rewrite elem_of_app. tauto.
      * right. right. split; [done |]. exists attr.
        rewrite elem_of_app, list_elem_of_singleton. tauto.
    + intros [?|[?|[-> (attr' & Hin & ?)]]]; [tauto | tauto |].
      apply elem_of_app in Hin as [Hin|Hin].
      * left. right. right. split; [done |]. by exists attr'.
      * apply list_elem_of_singleton in Hin as ->. by right.
  - by apply merge_aliases_returns.
  - by apply merge_embeddings_preserves.
  - by exists existing.
Qed.

(** [np.array(a) + np.array(b)] fails exactly on lengths that differ with
    neither of them 1. *)
Lemma np_mean_raises (a b : list Q) (e : exn) :
  np_mean a b = Raise e
  ↔ e = ValueError ∧ length a ≠ length b ∧ length a ≠ 1%nat ∧ length b ≠ 1%nat.
Proof.
  unfold np_mean. case_decide as Hlen.
  - split; [done |]. by intros (_ & ? & _).
  - destruct a as [|x [|x' a]], b as [|y [|y' b]]; simpl in *;
      (split; [intros [= <-] || done | intros (-> & ? & ? & ?)]);
      try done; repeat split; try done; lia.
Qed.

(** The last part of [merge_entity] raises exactly when the average of the
    embeddings does. *)
Lemma merge_embeddings_raises (k : string) (new_entity : Entity.t Value)
    (s : State Value) (stored : Entity.t Value) (e : exn) :
  entities s !! k = Some stored →
  (merge_embeddings utc k new_entity s).1 = Raise e
  ↔ truthy (Entity.embeddings new_entity) && truthy (Entity.embeddings stored) = true
    ∧ np_mean (default [] (Entity.embeddings stored))
              (default [] (Entity.embeddings new_entity)) = Raise e.
Proof.
  intros Hstored. unfold merge_embeddings. rewrite bind_get_entity, Hstored.
  destruct (truthy _ && truthy _).
  - destruct (np_mean _ _) as [v|e'] eqn:Hmean.
    + split; [done |]. by intros [_ ?].
    + split; [by intros [= ->] | by intros [_ [= ->]]].
  - split; [done |]. by intros [? _].
Qed.

(** X16. [merge_entity] raises in one case only: the id is stored, the
    stored and the incoming entity both have a non-empty embedding, and the
    two embeddings have different lengths, neither of which is 1.  The
    exception is then the [ValueError] of the addition of the two arrays. *)
Theorem merge_entity_raises_iff (new_entity : Entity.t Value) (source : string)
    (s : State Value) (e : exn) :
  (merge_entity utc new_entity source s).1 = Raise e
  ↔ e = ValueError
    ∧ ∃ existing a b,
        entities s !! Entity.id new_entity = Some existing
        ∧ Entity.embeddings existing = Some a
        ∧ Entity.embeddings new_entity = Some b
        ∧ a ≠ [] ∧ b ≠ []
        ∧ length a ≠ length b ∧ length a ≠ 1%nat ∧ length b ≠ 1%nat.
Proof.
  destruct (entities s !! Entity.id new_entity) as [existing|] eqn:Hexisting.
  - rewrite <- Hexisting.
    set (P := λ e' : Entity.t Value,
           Entity.embeddings e' = Entity.embeddings existing).
    refine (merge_entity_stored utc new_entity source P P P
             (λ o _, o = Raise e
                ↔ e = ValueError
                  ∧ ∃ existing a b,
                      entities s !! Entity.id new_entity = Some existing
                      ∧ Entity.embeddings existing = Some a
                      ∧ Entity.embeddings new_entity = Some b
                      ∧ a ≠ [] ∧ b ≠ []
                      ∧ length a ≠ length b
                      ∧ length a ≠ 1%nat ∧ length b ≠ 1%nat) _ _ _ s _).
    + apply merge_attributes_returns. intros e' key attributes attr now _ _ He'.
      unfold P, Entity.add_attribute. by destruct (list_find _ _) as [[? ?]|].
    + by apply merge_aliases_returns.
    + intros s2 (stored & Hstored & Hemb).
      rewrite (merge_embeddings_raises _ _ _ stored e Hstored), Hemb.
      rewrite np_mean_raises, Hexisting. split.
      * intros (Htruthy & -> & Hlen & Ha & Hb). split; [done |].
        apply andb_true_iff in Htruthy as [Hnew Hold].
        destruct (Entity.embeddings new_entity) as [[|y b]|]; try done.
        destruct (Entity.embeddings existing) as [[|x a]|] eqn:Hexemb; try done.
        exists existing, (x :: a), (y :: b). by repeat split.
      * intros (-> & existing' & a & b & [= <-] & -> & -> & Ha & Hb & Hlen & ? & ?).
        destruct a as [|x a]; [done |]. destruct b as [|y b]; [done |].
        by repeat split.
    + by exists existing.
  - rewrite merge_entity_phases, bind_get_entity, Hexisting.
    split; [done |]. by intros (_ & ? & ? & ? & [=] & _).
Qed.

End merge_entity_stored_facts.

Lemma merge_entity_aliases_witness :
  ∃ merged,
    Graph.entities (Graph.merge_entity sample_clock julian "user" store_julian).2
      !! "person_julian" = Some merged
    ∧ Models.Entity.aliases julian_two_companies `prefix_of` Models.Entity.aliases merged
    ∧ (∀ a, a ∈ Models.Entity.aliases merged
            ↔ a ∈ Models.Entity.aliases julian_two_companies
              ∨ a ∈ Models.Entity.aliases julian)
    ∧ (NoDup (Models.Entity.aliases julian_two_companies)
       → NoDup (Models.Entity.aliases merged)).
Proof. apply (merge_entity_aliases sample_clock julian "user" store_julian). reflexivity. Defined.

Lemma merge_entity_values_witness :
  ∃ merged,
    Graph.entities (Graph.merge_entity sample_clock julian "user" store_julian).2
      !! "person_julian" = Some merged
    ∧ ∀ key v,
        has_value merged key v
        ↔ has_value julian_two_companies key v
          ∨ ∃ attributes attr,
              Models.Entity.attributes julian !! key = Some attributes
              ∧ attr ∈ attributes ∧ Models.Attribute.value attr = v.
Proof. apply (merge_entity_values sample_clock julian "user" store_julian). reflexivity. Defined.

(** ** [Entity.merge_with] and the merge branch of [process] *)

Section merge_with_facts.
Import Agents.
Context {Value : Type}.

(** The properties after [merge_with], key by key. *)
Lemma merge_with_properties_lookup (self other : Entity.t Value) (now : Z) (key : string) :
  Entity.properties (Entity.merge_with self other now) !! key
  = match Entity.properties self !! key, Entity.properties other !! key with
    | Some v, Some w =>
        Some (if Qgt_bool (Confidence.value (Entity.confidence other))
                          (Confidence.value (Entity.confidence self))
              then w else v)
    | Some v, None => Some v
    | None, o => o
    end.
Proof.
  unfold Entity.merge_with. simpl. revert key.
  apply (map_fold_weak_ind (λ acc (m : gmap string Value), ∀ key,
    acc !! key
    = match Entity.properties self !! key, m !! key with
      | Some v, Some w =>
          Some (if Qgt_bool (Confidence.value (Entity.confidence other))
                            (Confidence.value (Entity.confidence self))
                then w else v)
      | Some v, None => Some v
      | None, o => o
      end)).
  - intros key. rewrite lookup_empty. by destruct (Entity.properties self !! key).
  - intros i x m acc Hi IH key.
    pose proof (IH i) as Hacc. rewrite Hi in Hacc.
    destruct (decide (i = key)) as [<-|Hne].
    + rewrite lookup_insert_eq.
      destruct (Entity.properties self !! i) as [v|] eqn:Hself; rewrite Hacc.
      * destruct (Qgt_bool _ _); [by rewrite lookup_insert_eq | done].
      * by rewrite lookup_insert_eq.
    + rewrite (lookup_insert_ne m) by done. rewrite <- (IH key).
      destruct (acc !! i); [destruct (Qgt_bool _ _) |];
        by rewrite ?lookup_insert_ne.
Qed.

(** X17. [merge_with] keeps what the entity is (id, type, canonical name,
    confidence, embeddings, creation time) and stamps it with the time of
    the call.  Its properties are those of both entities; on a key that both
    have, the other entity's value is taken exactly when the other entity,
    as a whole, is strictly more confident.  Its aliases are those of both
    entities, each one once. *)
Theorem merge_with_spec (self other : Entity.t Value) (now : Z) :
  let merged := Entity.merge_with self other now in
  Entity.properties merged
    = (if Qgt_bool (Confidence.value (Entity.confidence other))
                   (Confidence.value (Entity.confidence self))
       then Entity.properties other ∪ Entity.properties self
       else Entity.properties self ∪ Entity.properties other)
  ∧ (∀ a, a ∈ Entity.aliases merged
          ↔ a ∈ Entity.aliases self ∨ a ∈ Entity.aliases other)
  ∧ NoDup (Entity.aliases merged)
  ∧ Entity.id merged = Entity.id self
  ∧ Entity.type merged = Entity.type self
  ∧ Entity.canonical_name merged = Entity.canonical_name self
  ∧ Entity.confidence merged = Entity.confidence self
  ∧ Entity.embeddings merged = Entity.embeddings self
  ∧ Entity.created_at merged = Entity.created_at self
  ∧ Entity.updated_at merged = now.
Proof.
  intros merged. split; [| split; [| split]]; [| | | done].
  - apply map_eq. intros key. unfold merged.
    rewrite merge_with_properties_lookup.
    destruct (Qgt_bool _ _); rewrite lookup_union;
      by destruct (Entity.properties self !! key),
                  (Entity.properties other !! key).
  - intros a. unfold merged, Entity.merge_with. simpl.
    by rewrite elem_of_elements, elem_of_list_to_set, elem_of_app.
  - apply NoDup_elements.
Qed.

(** X18. When the incoming version is neither newer nor strictly more
    confident, [process] keeps the existing entity and overwrites none of
    its properties: the incoming properties are added under the keys that
    the existing entity lacks, and only there. *)
Theorem process_merge_keeps_existing (existing incoming : Entity.t Value) (now : Z) :
  Entity.updated_at incoming ≤ Entity.updated_at existing →
  (Confidence.value (Entity.confidence incoming)
     <= Confidence.value (Entity.confidence existing))%Q →
  let resolved := process existing incoming now in
  Entity.id resolved = Entity.id existing
  ∧ Entity.confidence resolved = Entity.confidence existing
  ∧ Entity.created_at resolved = Entity.created_at existing
  ∧ (∀ key v, Entity.properties existing !! key = Some v →
              Entity.properties resolved !! key = Some v)
  ∧ (∀ key, Entity.properties existing !! key = None →
            Entity.properties resolved !! key = Entity.properties incoming !! key).
Proof.
  intros Hold Hconf resolved. unfold resolved.
  rewrite process_existing_kept by done.
  split; [done |]. split; [done |]. split; [done |].
  assert (Hgt : Qgt_bool (Confidence.value (Entity.confidence incoming))
                         (Confidence.value (Entity.confidence existing)) = false).
  { unfold Qgt_bool. by rewrite (proj2 (Qle_bool_iff _ _) Hconf). }
  split.
  - intros key v Hkey. rewrite merge_with_properties_lookup, Hkey, Hgt.
    by destruct (Entity.properties incoming !! key).
  - intros key Hkey. by rewrite merge_with_properties_lookup, Hkey.
Qed.

End merge_with_facts.

Lemma process_merge_keeps_existing_witness :
  Agents.Entity.properties (Agents.process version_A version_A 30) !! "employer"
  = Some "Apple".
Proof.
  destruct (process_merge_keeps_existing version_A version_A 30)
    as (_ & _ & _ & Hkeep & _).
  - simpl. lia.
  - unfold Qle. simpl. lia.
  - by apply Hkeep.
Defined.

(** ** Ranking and slicing of search results *)

Section sorted_facts.
Context {A B : Type}.

Lemma StronglySorted_fmap_elem_of (f : A → B) (R1 : relation A) (R2 : relation B)
    (l : list A) :
  (∀ x y, x ∈ l → y ∈ l → R1 x y → R2 (f x) (f y)) →
  StronglySorted R1 l → StronglySorted R2 (f <$> l).
Proof.
  intros H Hsorted. revert H.
  induction Hsorted as [|x l Hsorted IH Hx]; intros H; simpl; constructor.
  - apply IH. intros y z Hy Hz. apply H; by apply list_elem_of_further.
  - apply Forall_fmap, Forall_forall. intros y Hy. simpl.
    rewrite Forall_forall in Hx.
    apply H; [apply list_elem_of_here | by apply list_elem_of_further | by apply Hx].
Qed.

Lemma StronglySorted_take (R : relation A) (n : nat) (l : list A) :
  StronglySorted R l → StronglySorted R (take n l).
Proof.
  intros Hsorted. rewrite <- (take_drop n l) in Hsorted.
  by apply StronglySorted_app_1_l in Hsorted.
Qed.

Lemma StronglySorted_slice_to (R : relation A) (limit : Z) (l : list A) :
  StronglySorted R l → StronglySorted R (slice_to limit l).
Proof. unfold slice_to. destruct (0 <=? limit); apply StronglySorted_take. Qed.

End sorted_facts.

Section rank_results_facts.
Import Search.

Lemma combine_key_id (combined : list (string * Combined.t)) (r : Result.t) :
  Forall (λ p, p.1 = Result.id (Combined.result p.2)) combined →
  Forall (λ p, p.1 = Result.id (Combined.result p.2)) (combine combined r).
Proof.
  induction combined as [|[doc_id entry] combined IH]; simpl.
  - intros _. by repeat constructor.
  - intros [Hhead Htail]%Forall_cons. case_decide; constructor; auto.
Qed.

Lemma combine_NoDup (combined : list (string * Combined.t)) (r : Result.t) :
  NoDup (map fst combined) → NoDup (map fst (combine combined r)).
Proof.
  intros Hnodup. rewrite combine_fst. case_decide as Hin; [done |].
  apply NoDup_app. split; [done |]. split; [| apply NoDup_singleton].
  intros x Hx Hr. apply list_elem_of_singleton in Hr. by subst x.
Qed.

Lemma fold_combine_table (results : list Result.t)
    (combined : list (string * Combined.t)) :
  Forall (λ p, p.1 = Result.id (Combined.result p.2)) combined →
  NoDup (map fst combined) →
  Forall (λ p, p.1 = Result.id (Combined.result p.2)) (fold_left combine results combined)
  ∧ NoDup (map fst (fold_left combine results combined)).
Proof.
  revert combined. induction results as [|r results IH]; intros combined; simpl;
    [done |].
  intros Hkey Hnodup. apply IH; [by apply combine_key_id | by apply combine_NoDup].
Qed.

Lemma combined_score_entry (table : list (string * Combined.t))
    (p : string * Combined.t) :
  NoDup (map fst table) → p ∈ table →
  combined_score p.1 table = Combined.score p.2.
Proof.
  induction table as [|[k entry] table IH]; simpl; [by intros _ ?%elem_of_nil |].
  intros [Hk Hnodup]%NoDup_cons [->|Hp]%elem_of_cons.
  - simpl. by rewrite decide_True.
  - rewrite decide_False; [by apply IH |].
    intros ->. apply Hk. apply list_elem_of_fmap. by exists p.
Qed.

(** The entry of a document holds the sum of the weighted scores of all the
    results with its id. *)
Lemma combined_scores_entry (results : list Result.t) (entry : Combined.t) :
  entry ∈ map snd (combined_scores results) →
  (Combined.score entry
   == weighted_sum (Result.id (Combined.result entry)) results)%Q.
Proof.
  intros ([k entry'] & -> & Hin)%list_elem_of_fmap. simpl.
  destruct (fold_combine_table results []) as [Hkey Hnodup];
    [constructor | constructor |].
  fold (combined_scores results) in Hkey, Hnodup.
  rewrite Forall_forall in Hkey. specialize (Hkey _ Hin). simpl in Hkey.
  rewrite <- Hkey, <- rank_results_accumulates.
  pose proof (combined_score_entry _ (k, entry') Hnodup Hin) as Hscore.
  simpl in Hscore. by rewrite Hscore.
Qed.

Lemma rank_results_sorted (results : list Result.t) :
  StronglySorted
    (λ a b, (weighted_sum (Result.id b) results
             <= weighted_sum (Result.id a) results)%Q)
    (rank_results results).
Proof.
  unfold rank_results.
  apply (StronglySorted_fmap_elem_of Combined.result
           (λ a b, (Combined.score b <= Combined.score a)%Q)).
  - intros x y Hx Hy Hle.
    rewrite sorted_reverse_Permutation in Hx, Hy.
    by rewrite <- (combined_scores_entry results x Hx),
               <- (combined_scores_entry results y Hy).
  - apply sorted_reverse_descending.
Qed.

(** With one result for an id, the sum is the weighted score of that
    result. *)
Lemma weighted_sum_unique (results : list Result.t) (r : Result.t) :
  NoDup (map Result.id results) → r ∈ results →
  (weighted_sum (Result.id r) results == Result.score r * weight (Result.type r))%Q.
Proof.
  induction results as [|x results IH]; simpl; [by intros _ ?%elem_of_nil |].
  intros [Hx Hnodup]%NoDup_cons [->|Hr]%elem_of_cons.
  - rewrite decide_True by done.
    assert (Hrest : ∀ l, Result.id x ∉ map Result.id l →
              weighted_sum (Result.id x) l = 0%Q).
    { clear. induction l as [|y l IHl]; simpl; [done |].
      intros [Hy Hl]%not_elem_of_cons. rewrite decide_False by done. by apply IHl. }
    rewrite (Hrest results Hx). ring.
  - rewrite decide_False; [by apply IH |].
    intros Heq. apply Hx. rewrite Heq. apply list_elem_of_fmap. by exists r.
Qed.

Lemma search_knowledge_unfold (embedder : bool)
    (semantic keyword entity : list Result.t) (search_type : string) :
  search_knowledge embedder semantic keyword entity search_type
  = take 10 (rank_results (deduplicate_results
      ((if bool_decide (search_type ∈ ["semantic"; "hybrid"]) && embedder
        then semantic else [])
       ++ (if bool_decide (search_type ∈ ["keyword"; "hybrid"]) then keyword else [])
       ++ (if bool_decide (search_type ∈ ["entity"; "hybrid"]) then entity else [])))).
Proof.
  unfold search_knowledge.
  destruct (bool_decide (search_type ∈ ["semantic"; "hybrid"]) && embedder),
    (bool_decide (search_type ∈ ["keyword"; "hybrid"])),
    (bool_decide (search_type ∈ ["entity"; "hybrid"]));
    simpl; by rewrite ?app_nil_r, <- ?app_assoc.
Qed.

(** X20. For every search type, [search_knowledge] returns at most ten
    results, all of them found by a strategy that the search type turns on
    (the semantic one only with an embedder), in descending order of their
    own weighted score.  A search type other than the four known ones gives
    no result. *)
Theorem search_knowledge_ranked (embedder : bool)
    (semantic keyword entity : list Result.t) (search_type : string) :
  let found :=
    (if bool_decide (search_type ∈ ["semantic"; "hybrid"]) && embedder
     then semantic else [])
    ++ (if bool_decide (search_type ∈ ["keyword"; "hybrid"]) then keyword else [])
    ++ (if bool_decide (search_type ∈ ["entity"; "hybrid"]) then entity else []) in
  let results := search_knowledge embedder semantic keyword entity search_type in
  (length results ≤ 10)%nat
  ∧ (∀ r, r ∈ results → r ∈ found)
  ∧ StronglySorted
      (λ a b, (Result.score b * weight (Result.type b)
               <= Result.score a * weight (Result.type a))%Q)
      results
  ∧ (search_type ∉ ["semantic"; "keyword"; "entity"; "hybrid"] → results = []).
Proof.
  intros found results. unfold results. rewrite search_knowledge_unfold. fold found.
  set (unique := deduplicate_results found).
  assert (Hunique : NoDup (map Result.id unique)
                    ∧ ∀ r, r ∈ unique → r ∈ found).
  { unfold unique, deduplicate_results. rewrite deduplicate_results_from_eq.
    destruct (dedup_from_spec Result.id ∅ found) as [Hnodup Hfirst].
    split; [done |]. intros r Hr.
    apply (first_with_key_elem_of Result.id). by apply Hfirst. }
  destruct Hunique as [Hnodup Hfound].
  assert (Hranked : ∀ r, r ∈ rank_results unique → r ∈ unique).
  { intros r. rewrite rank_results_Permutation.
    unfold deduplicate_results. rewrite deduplicate_results_from_eq. intros Hr.
    apply (first_with_key_elem_of Result.id).
    by apply (dedup_from_spec Result.id ∅ unique). }
  split; [apply firstn_le_length |]. split; [| split].
  - intros r Hr. apply Hfound, Hranked.
    eapply elem_of_sublist; [exact Hr | apply sublist_take].
  - apply StronglySorted_take.
    rewrite <- (list_fmap_id (rank_results unique)).
    apply (StronglySorted_fmap_elem_of id
             (λ a b, (weighted_sum (Result.id b) unique
                      <= weighted_sum (Result.id a) unique)%Q));
      [| apply rank_results_sorted].
    intros x y Hx Hy. simpl.
    by rewrite (weighted_sum_unique unique x Hnodup (Hranked x Hx)),
               (weighted_sum_unique unique y Hnodup (Hranked y Hy)).
  - intros Hunknown.
    assert (Hempty : found = []); [| by rewrite (eq_refl : unique = deduplicate_results found), Hempty].
    unfold found.
    rewrite !bool_decide_eq_false_2; [done | | |];
      intros Hin; apply Hunknown; set_solver.
Qed.

End rank_results_facts.

(** ** [rank_results] with the arithmetic of the interpreter *)

Section rank_results_float_facts.
Import Search.
Variable literal : Q → Q.
Variable fmul fadd : Q → Q → Q.

(** With exact arithmetic the definitions are those used above. *)
Lemma combine_float_exact (combined : list (string * Combined.t)) (r : Result.t) :
  combine_float (λ q, q) Qmult Qplus combined r = combine combined r.
Proof.
  induction combined as [|[doc_id entry] combined IH]; simpl; [done |].
  case_decide; [done |]. by rewrite IH.
Qed.

Lemma rank_results_float_exact (results : list Result.t) :
  rank_results_float (λ q, q) Qmult Qplus results = rank_results results.
Proof.
  unfold rank_results_float, rank_results, combined_scores_float, combined_scores.
  assert (H : ∀ combined,
            fold_left (combine_float (λ q, q) Qmult Qplus) results combined
            = fold_left combine results combined).
  { induction results as [|r results IH]; intros combined; simpl; [done |].
    by rewrite combine_float_exact, IH. }
  by rewrite H.
Qed.

(** The arithmetic decides the scores of the table only: its keys and its
    results are those of the table of the exact sums. *)
Lemma combine_float_shape (combined combined' : list (string * Combined.t))
    (r : Result.t) :
  (λ p, (p.1, Combined.result p.2)) <$> combined
    = (λ p, (p.1, Combined.result p.2)) <$> combined' →
  (λ p, (p.1, Combined.result p.2)) <$> combine_float literal fmul fadd combined r
    = (λ p, (p.1, Combined.result p.2)) <$> combine combined' r.
Proof.
  revert combined'.
  induction combined as [|[k entry] combined IH]; intros [|[k' entry'] combined'];
    simpl; try done.
  intros [= -> Hresult Hrest].
  case_decide; simpl; [by rewrite Hresult, Hrest |].
  rewrite Hresult. f_equal. by apply IH.
Qed.

Lemma combined_scores_float_shape (results : list Result.t) :
  (λ p, (p.1, Combined.result p.2)) <$> combined_scores_float literal fmul fadd results
  = (λ p, (p.1, Combined.result p.2)) <$> combined_scores results.
Proof.
  unfold combined_scores_float, combined_scores.
  assert (H : ∀ combined combined' : list (string * Combined.t),
            (λ p, (p.1, Combined.result p.2)) <$> combined
              = (λ p, (p.1, Combined.result p.2)) <$> combined' →
            (λ p, (p.1, Combined.result p.2))
              <$> fold_left (combine_float literal fmul fadd) results combined
            = (λ p, (p.1, Combined.result p.2))
                <$> fold_left combine results combined').
  { induction results as [|r results IH]; intros combined combined' Hshape; simpl;
      [done |].
    by apply IH, combine_float_shape. }
  by apply H.
Qed.

Lemma combined_scores_float_table (results : list Result.t) :
  Forall (λ p, p.1 = Result.id (Combined.result p.2))
    (combined_scores_float literal fmul fadd results)
  ∧ NoDup (map fst (combined_scores_float literal fmul fadd results))
  ∧ map (λ p, Combined.result p.2) (combined_scores_float literal fmul fadd results)
    = deduplicate_results results.
Proof.
  pose proof (combined_scores_float_shape results) as Hshape.
  destruct (fold_combine_table results []) as [Hkey Hnodup];
    [constructor | constructor |].
  fold (combined_scores results) in Hkey, Hnodup.
  assert (Hfst : ∀ table : list (string * Combined.t),
            fst <$> table = fst <$> ((λ p, (p.1, Combined.result p.2)) <$> table)).
  { intros table. by rewrite <- list_fmap_compose. }
  assert (Hsnd : ∀ table : list (string * Combined.t),
            (λ p, Combined.result p.2) <$> table
            = snd <$> ((λ p, (p.1, Combined.result p.2)) <$> table)).
  { intros table. by rewrite <- list_fmap_compose. }
  split; [| split].
  - apply (Forall_fmap (λ p, (p.1, Combined.result p.2))
             (λ q : string * Result.t, q.1 = Result.id q.2)).
    rewrite Hshape. by apply Forall_fmap.
  - change (NoDup (fst <$> combined_scores_float literal fmul fadd results)).
    rewrite Hfst, Hshape, <- Hfst. exact Hnodup.
  - rewrite <- combined_scores_result.
    change ((λ p, Combined.result p.2)
              <$> combined_scores_float literal fmul fadd results
            = (λ p, Combined.result p.2) <$> combined_scores results).
    by rewrite Hsnd, Hshape, <- Hsnd.
Qed.

(** One turn of the loop adds the weighted score of the result to the score
    of its document, with the rounded operations. *)
Lemma combined_score_combine_float (combined : list (string * Combined.t))
    (r : Result.t) (doc_id : string) :
  combined_score doc_id (combine_float literal fmul fadd combined r)
  = if decide (Result.id r = doc_id)
    then fadd (combined_score doc_id combined)
           (fmul (Result.score r) (weight_float literal (Result.type r)))
    else combined_score doc_id combined.
Proof.
  induction combined as [|[k entry] combined IH]; simpl.
  - by destruct (decide (Result.id r = doc_id)).
  - destruct (decide (k = Result.id r)) as [->|Hk]; simpl.
    + by destruct (decide (Result.id r = doc_id)).
    + destruct (decide (k = doc_id)) as [->|Hne]; [| apply IH].
      by rewrite decide_False by done.
Qed.

Lemma combined_scores_float_accumulated (results : list Result.t) (doc_id : string) :
  combined_score doc_id (combined_scores_float literal fmul fadd results)
  = accumulated literal fmul fadd doc_id results.
Proof.
  unfold combined_scores_float, accumulated.
  assert (H : ∀ combined : list (string * Combined.t),
            combined_score doc_id
              (fold_left (combine_float literal fmul fadd) results combined)
            = fold_left (λ acc r,
                  if decide (Result.id r = doc_id)
                  then fadd acc (fmul (Result.score r)
                                   (weight_float literal (Result.type r)))
                  else acc)
                results (combined_score doc_id combined)).
  { induction results as [|r results IH]; intros combined; simpl; [done |].
    by rewrite IH, combined_score_combine_float. }
  apply (H []).
Qed.

(** X19. [rank_results], on any list of results and with the arithmetic of
    the interpreter (the weights, products and sums rounded as Python rounds
    them), returns one result for every document id, the first one it is
    given, and orders the documents by the score that its loop accumulates
    for them: the weighted scores of all the results given for the document,
    added one after the other in the order of the results; highest first. *)
Theorem rank_results_by_total_score (results : list Result.t) :
  rank_results_float literal fmul fadd results ≡ₚ deduplicate_results results
  ∧ StronglySorted
      (λ a b, (accumulated literal fmul fadd (Result.id b) results
               <= accumulated literal fmul fadd (Result.id a) results)%Q)
      (rank_results_float literal fmul fadd results).
Proof.
  destruct (combined_scores_float_table results) as (Hkey & Hnodup & Hresults).
  unfold rank_results_float. split.
  - rewrite sorted_reverse_Permutation, <- Hresults. by rewrite map_map.
  - apply (StronglySorted_fmap_elem_of Combined.result
             (λ a b, (Combined.score b <= Combined.score a)%Q));
      [| apply sorted_reverse_descending].
    assert (Hentry : ∀ entry,
              entry ∈ map snd (combined_scores_float literal fmul fadd results) →
              Combined.score entry
              = accumulated literal fmul fadd (Result.id (Combined.result entry))
                  results).
    { intros entry ([k entry'] & -> & Hin)%list_elem_of_fmap. simpl.
      rewrite Forall_forall in Hkey. specialize (Hkey _ Hin). simpl in Hkey.
      rewrite <- Hkey, <- combined_scores_float_accumulated.
      pose proof (combined_score_entry _ (k, entry') Hnodup Hin) as Hscore.
      simpl in Hscore. by rewrite Hscore. }
    intros x y Hx Hy Hle.
    rewrite sorted_reverse_Permutation in Hx, Hy.
    by rewrite <- (Hentry x Hx), <- (Hentry y Hy).
Qed.

End rank_results_float_facts.

Section search_code_facts.
Import CodeSearch.

(** On the table that [init_database] creates the full-text query fails:
    the table has no column [metadata]. *)
Lemma search_fts_lacks_metadata : ¬ selected_columns ⊆ search_fts_columns.
Proof.
  intros Hsub.
  assert (Hin : "metadata" ∈ search_fts_columns).
  { apply Hsub. unfold selected_columns. set_solver. }
  unfold search_fts_columns in Hin. set_solver.
Qed.


End search_code_facts.

(** ** [find_overlap] and [merge_content], continued *)

Section overlap_facts.
Import Content.

Lemma length_append (a b : string) :
  String.length (a +:+ b) = (String.length a + String.length b)%nat.
Proof.
  induction a as [|ch a IH]; [done |].
  rewrite append_cons. simpl. by rewrite IH.
Qed.

Lemma slice_until_append (a b : string) : slice_until (String.length a) (a +:+ b) = a.
Proof.
  induction a as [|ch a IH]; [by destruct b |].
  rewrite append_cons. simpl. by rewrite IH.
Qed.

Lemma slice_from_append (a b : string) : slice_from (String.length a) (a +:+ b) = b.
Proof.
  induction a as [|ch a IH]; [by destruct b |].
  rewrite append_cons. simpl. by rewrite IH.
Qed.

Lemma slice_last_append (a b : string) : slice_last (String.length b) (a +:+ b) = b.
Proof.
  unfold slice_last. rewrite length_append.
  replace (String.length a + String.length b - String.length b)%nat
    with (String.length a) by lia.
  apply slice_from_append.
Qed.

Lemma length_slice_until (n : nat) (s : string) :
  (n ≤ String.length s)%nat → String.length (slice_until n s) = n.
Proof.
  revert s. induction n as [|n IH]; intros [|ch s]; simpl; try done; try lia.
  intros Hn. rewrite IH; [done | lia].
Qed.

(** The loop tries the lengths from the largest one down, so that it stops
    at the longest overlap. *)
Lemma find_overlap_from_longest (i n : nat) (text1 text2 : string) :
  (i ≤ String.length text2)%nat → (n ≤ i)%nat →
  slice_last n text1 = slice_until n text2 →
  (n ≤ String.length (find_overlap_from i text1 text2))%nat.
Proof.
  intros Hi. induction i as [|i IH]; intros Hn Heq; cbn [find_overlap_from];
    [simpl; lia |].
  case_decide as Hfound.
  - rewrite length_slice_until by done. done.
  - apply IH; [lia | | done].
    destruct (decide (n = S i)) as [->|]; [done | lia].
Qed.

(** X22. [find_overlap] returns the longest text that the first string ends
    with and the second one starts with (the empty string when there is
    none). *)
Theorem find_overlap_longest (text1 text2 : string) :
  let overlap := find_overlap text1 text2 in
  (∃ before, text1 = before +:+ overlap)
  ∧ (∃ after, text2 = overlap +:+ after)
  ∧ ∀ other before after,
      text1 = before +:+ other → text2 = other +:+ after →
      (String.length other ≤ String.length overlap)%nat.
Proof.
  intros overlap. unfold overlap.
  destruct (find_overlap_spec text1 text2) as (before & Hbefore & Hafter).
  split; [by exists before |]. split; [eauto |].
  intros other before' after' H1 H2. unfold find_overlap.
  apply find_overlap_from_longest.
  - lia.
  - rewrite H1 at 1. rewrite H2 at 1. rewrite !length_append. lia.
  - rewrite H1, H2. by rewrite slice_last_append, slice_until_append.
Qed.

(** X23. When the new content does not occur in the existing one, the
    result of [merge_content] ends with the new content.  Either the
    existing content ends with an overlap that is the start of the new
    content and more than half of it, and the overlap is written once; or
    the new content follows the existing one after the separator. *)
Theorem merge_content_appends (existing new : string) :
  contains existing new = false →
  let overlap := find_overlap existing new in
  (String.length new < 2 * String.length overlap)%nat
    ∧ (∃ before rest,
         existing = before +:+ overlap ∧ new = overlap +:+ rest
         ∧ merge_content existing new = before +:+ overlap +:+ rest)
  ∨ (2 * String.length overlap ≤ String.length new)%nat
    ∧ merge_content existing new = existing +:+ separator +:+ new.
Proof.
  intros Hcontains overlap. unfold merge_content. rewrite Hcontains.
  fold overlap. case_decide as Hhalf; [left | right; split; [lia | done]].
  split; [done |].
  destruct (find_overlap_spec existing new) as (before & Hbefore & Hnew).
  fold overlap in Hbefore, Hnew.
  exists before, (slice_from (String.length overlap) new).
  split; [done |]. split; [done |].
  rewrite Hbefore at 1. by rewrite append_assoc.
Qed.

End overlap_facts.

Lemma merge_content_appends_witness :
  let overlap := Content.find_overlap "Julian works" "works at Apple" in
  (String.length "works at Apple" < 2 * String.length overlap)%nat
    ∧ (∃ before rest,
         "Julian works" = before +:+ overlap ∧ "works at Apple" = overlap +:+ rest
         ∧ Content.merge_content "Julian works" "works at Apple"
           = before +:+ overlap +:+ rest)
  ∨ (2 * String.length overlap ≤ String.length "works at Apple")%nat
    ∧ Content.merge_content "Julian works" "works at Apple"
      = "Julian works" +:+ Content.separator +:+ "works at Apple".
Proof. apply merge_content_appends. reflexivity. Defined.

(** ** The handler [update_entity] *)

Section update_entity_facts.
Import Models Graph Server.
Context {Value : Type} `{!EqDecision Value}.
Variable utc : nat → Z.

(** [add_attribute] writes one key, with a version list that is not
    empty. *)
Lemma add_attribute_attributes (e : Entity.t Value) (key : string) (value : Value)
    (source : string) (confidence : ConfidenceLevel) (now : Z) :
  ∃ history, history ≠ []
    ∧ Entity.attributes (Entity.add_attribute e key value source confidence now)
      = <[key := history]> (Entity.attributes e).
Proof.
  unfold Entity.add_attribute.
  destruct (list_find _ _) as [[i found]|] eqn:Hfind; simpl.
  - eexists. split; [| done].
    apply list_find_Some in Hfind as (Hi & _).
    intros Hnil. apply (f_equal length) in Hnil.
    rewrite length_insert in Hnil. apply lookup_lt_Some in Hi. simpl in Hnil. lia.
  - eexists. split; [| done]. intros Hnil. by apply app_eq_nil in Hnil as [_ ?].
Qed.

(** X24. The handler [update_entity] answers 404, and changes nothing, when
    the id is not stored.  When it is stored, the handler answers with the
    stored entity or raises; it raises, with [ValueError], only when some key
    of the entity that the request does not write has an empty history; and
    when it answers, the entity has the keys it had and those of the
    request, each with exactly one version: the histories are gone. *)
Theorem update_entity_single_versions (entity_id : string)
    (attributes : gmap string Value) (source : string) (s : State Value) :
  let r := update_entity utc entity_id attributes source s in
  (entities s !! entity_id = None →
     r = (Ok (HTTPException 404 ("Entity " +:+ entity_id +:+ " not found")), s))
  ∧ ∀ entity, entities s !! entity_id = Some entity →
      (∀ e, r.1 = Raise e →
         e = ValueError
         ∧ ∃ key, Entity.attributes entity !! key = Some []
                  ∧ attributes !! key = None)
      ∧ (∀ answer, r.1 = Ok answer →
           ∃ updated,
             answer = Success (Entity.dict updated)
             ∧ entities r.2 !! entity_id = Some updated
             ∧ dom (Entity.attributes updated)
               = dom (Entity.attributes entity) ∪ dom attributes
             ∧ ∀ key history, Entity.attributes updated !! key = Some history →
                 length history = 1%nat).
Proof.
  intros r. unfold r. clear r. split.
  { intros Hnone. unfold update_entity. by rewrite bind_get_entity, Hnone. }
  intros entity Hentity. unfold update_entity. rewrite bind_get_entity, Hentity.
  set (Q := λ (done : list (string * Value)) (e : Entity.t Value),
         dom (Entity.attributes e)
         = dom (Entity.attributes entity) ∪ list_to_set done.*1
         ∧ ∀ key, Entity.attributes e !! key = Some [] →
             Entity.attributes entity !! key = Some [] ∧ key ∉ done.*1).
  set (post := λ (o : outcome (response (Entity.kwargs Value))) (s' : State Value),
         (∀ e, o = Raise e →
            e = ValueError
            ∧ ∃ key, Entity.attributes entity !! key = Some []
                     ∧ attributes !! key = None)
         ∧ (∀ answer, o = Ok answer →
              ∃ updated,
                answer = Success (Entity.dict updated)
                ∧ entities s' !! entity_id = Some updated
                ∧ dom (Entity.attributes updated)
                  = dom (Entity.attributes entity) ∪ dom attributes
                ∧ ∀ key history, Entity.attributes updated !! key = Some history →
                    length history = 1%nat)).
  assert (Hs : stored_with entity_id (Q []) s).
  { exists entity. split; [done |]. split; [| by split; [| apply not_elem_of_nil]].
    simpl. by rewrite (right_id_L ∅ (∪)). }
  clear Hentity. revert s Hs.
  match goal with
  | |- ∀ s, _ → _ ∧ _ =>
      change (triple (stored_with entity_id (Q []))
                (for_each (map_to_list attributes) (λ '(key, value),
                   now ← utcnow utc;
                   modify_entity entity_id (λ entity0,
                     Entity.add_attribute entity0 key value source HIGH now));;
                 entity0 ← resolve_conflicts entity_id;
                 match entity0 with
                 | Some entity1 => mret (Success (Entity.dict entity1))
                 | None => mret (HTTPException 500 "Internal Server Error")
                 end) post)
  end.
  apply (triple_bind_returns _
           (λ _, stored_with entity_id (Q (map_to_list attributes)))).
  - apply (returns_for_each (λ done, stored_with entity_id (Q done))).
    intros d [key value] rest _.
    apply (returns_bind _ (λ _, stored_with entity_id (Q d))).
    { apply returns_utcnow, stored_with_clock_free. }
    intros now. apply returns_modify_stored. intros e [Hdom Hempty].
    destruct (add_attribute_attributes e key value source HIGH now)
      as (history & Hhistory & Heq).
    unfold Q. rewrite Heq. split.
    + rewrite dom_insert_L, Hdom, fmap_app, list_to_set_app_L. simpl. set_solver.
    + intros k. destruct (decide (key = k)) as [<-|Hk].
      * rewrite lookup_insert_eq. by intros [= ->].
      * rewrite lookup_insert_ne by done. intros Hnil.
        destruct (Hempty k Hnil) as [? Hd]. split; [done |].
        rewrite fmap_app, elem_of_app. simpl. rewrite list_elem_of_singleton.
        intros [?|?]; [done | congruence].
  - intros _ s1 (e1 & He1 & Hdom & Hempty).
    unfold mbind, M_bind. rewrite resolve_conflicts_unfold, He1.
    pose proof (resolved_attributes_spec (Entity.attributes e1)) as Hspec.
    destruct (resolved_attributes _) as [resolved|e']; simpl.
    + split; [done |]. intros answer [= <-].
      exists (Entity.with_attributes e1 resolved). split; [done |].
      split; [simpl; by rewrite lookup_alter_eq, He1 |]. split.
      * rewrite <- (dom_list_to_map_L (map_to_list attributes)) in Hdom.
        rewrite list_to_map_to_list in Hdom. rewrite <- Hdom.
        apply set_eq. intros key. rewrite !elem_of_dom. simpl.
        specialize (Hspec key).
        destruct (Entity.attributes e1 !! key) as [history|].
        -- destruct Hspec as (best & _ & ->). split; eauto.
        -- rewrite Hspec. by split; intros [? ?].
      * intros key history. simpl. specialize (Hspec key).
        destruct (Entity.attributes e1 !! key) as [old|].
        -- destruct Hspec as (best & _ & ->). by intros [= <-].
        -- by rewrite Hspec.
    + split; [| done]. intros e [= <-].
      destruct Hspec as [-> (key & Hkey)]. split; [done |].
      destruct (Hempty key Hkey) as [? Hnot]. exists key. split; [done |].
      apply not_elem_of_dom.
      rewrite <- (list_to_map_to_list attributes), dom_list_to_map_L.
      by rewrite elem_of_list_to_set.
Qed.

End update_entity_facts.

(** ** [deduplicate_entities] *)

Section more_dedup_facts.
Context {A K : Type} `{Countable K} (key : A → K).

Lemma dedup_from_sublist (seen : gset K) (xs : list A) :
  dedup_from key seen xs `sublist_of` xs.
Proof.
  revert seen. induction xs as [|x xs IH]; intros seen; simpl; [done |].
  case_decide; [by apply sublist_cons | by apply sublist_skip].
Qed.

Lemma dedup_from_covers (seen : gset K) (xs : list A) (e : A) :
  e ∈ xs → key e ∈ seen ∨ ∃ r, r ∈ dedup_from key seen xs ∧ key r = key e.
Proof.
  revert seen. induction xs as [|x xs IH]; intros seen; [by intros ?%elem_of_nil |].
  simpl. intros [->|He]%elem_of_cons.
  - case_decide as Hseen; [by left |].
    right. exists x. split; [apply list_elem_of_here | done].
  - case_decide as Hseen; [by apply IH |].
    destruct (IH ({[key x]} ∪ seen) He) as [Hin|(r & Hr & Hkey)].
    + apply elem_of_union in Hin as [Hx%elem_of_singleton|Hin]; [| by left].
      right. exists x. split; [apply list_elem_of_here | done].
    + right. exists r. split; [by apply list_elem_of_further | done].
Qed.

End more_dedup_facts.

Section deduplicate_entities_facts.
Import Search.
Variable lower : string → string.

Lemma canonical_named (entity : EntityDict.t) :
  is_Some (EntityDict.name entity) →
  canonical lower entity = Ok (canonical_key lower entity).
Proof. intros [name Hname]. unfold canonical, canonical_key. by rewrite Hname. Qed.

(** The comparison of the confidences only changes the dict [seen], which is
    not returned: the list [unique] gets the first entity of every key. *)
Lemma deduplicate_entities_from_named (seen : gmap string EntityDict.t)
    (unique entities : list EntityDict.t) :
  (∀ e, e ∈ entities → is_Some (EntityDict.name e)) →
  deduplicate_entities_from lower seen unique entities
  = Ok (unique ++ dedup_from (canonical_key lower) (dom seen) entities).
Proof.
  revert seen unique.
  induction entities as [|x entities IH]; intros seen unique Hnamed; simpl.
  - by rewrite app_nil_r.
  - rewrite canonical_named by apply Hnamed, list_elem_of_here. simpl.
    assert (Hrest : ∀ e, e ∈ entities → is_Some (EntityDict.name e)).
    { intros e He. by apply Hnamed, list_elem_of_further. }
    destruct (seen !! canonical_key lower x) as [existing|] eqn:Hseen.
    + rewrite decide_True by by apply elem_of_dom.
      destruct (Agents.Qgt_bool _ _); rewrite IH by done; [| done].
      rewrite dom_insert_L.
      replace ({[canonical_key lower x]} ∪ dom seen) with (dom seen); [done |].
      apply elem_of_dom_2 in Hseen. set_solver.
    + rewrite decide_False by by apply not_elem_of_dom.
      rewrite IH by done. by rewrite dom_insert_L, <- app_assoc.
Qed.

Lemma deduplicate_entities_from_unnamed (seen : gmap string EntityDict.t)
    (unique entities : list EntityDict.t) :
  (∃ e, e ∈ entities ∧ EntityDict.name e = None) →
  deduplicate_entities_from lower seen unique entities = Raise KeyError.
Proof.
  revert seen unique.
  induction entities as [|x entities IH]; intros seen unique (e & He & Hname);
    [by apply elem_of_nil in He |].
  simpl. unfold canonical at 1.
  destruct (EntityDict.name x) as [name|] eqn:Hx; [| done]. simpl.
  assert (Hrest : ∃ e, e ∈ entities ∧ EntityDict.name e = None).
  { apply elem_of_cons in He as [->|He]; [congruence | eauto]. }
  destruct (seen !! _); [destruct (Agents.Qgt_bool _ _) |]; by apply IH.
Qed.

(** X25. On entities that all have a name, [deduplicate_entities] returns,
    in their order, the first entity of every canonical key (the canonical
    name, or else the name, in lower case): a later entity with the same key
    is dropped whatever its confidence.  If some entity has no name, the
    call raises [KeyError], also when that entity has a canonical name. *)
Theorem deduplicate_entities_first_wins (entities : list EntityDict.t) :
  ((∀ e, e ∈ entities → is_Some (EntityDict.name e)) →
     ∃ unique,
       deduplicate_entities lower entities = Ok unique
       ∧ unique `sublist_of` entities
       ∧ NoDup (canonical_key lower <$> unique)
       ∧ (∀ r, r ∈ unique → first_with_key (canonical_key lower) entities r)
       ∧ (∀ e, e ∈ entities →
            ∃ r, r ∈ unique ∧ canonical_key lower r = canonical_key lower e))
  ∧ ((∃ e, e ∈ entities ∧ EntityDict.name e = None) →
       deduplicate_entities lower entities = Raise KeyError).
Proof.
  split; [| apply deduplicate_entities_from_unnamed].
  intros Hnamed. unfold deduplicate_entities.
  rewrite deduplicate_entities_from_named by done. simpl. rewrite dom_empty_L.
  eexists. split; [done |].
  destruct (dedup_from_spec (canonical_key lower) ∅ entities) as [Hnodup Hfirst].
  split; [apply dedup_from_sublist |]. split; [done |]. split.
  - intros r Hr. by apply Hfirst.
  - intros e He.
    destruct (dedup_from_covers (canonical_key lower) ∅ entities e He)
      as [Hin|Hr]; [by apply elem_of_empty in Hin | done].
Qed.

End deduplicate_entities_facts.

Lemma deduplicate_entities_first_wins_witness :
  ∃ unique,
    Search.deduplicate_entities lowercase [apple_inc; apple_upper] = Ok unique
    ∧ unique `sublist_of` [apple_inc; apple_upper]
    ∧ NoDup (canonical_key lowercase <$> unique)
    ∧ (∀ r, r ∈ unique →
         first_with_key (canonical_key lowercase) [apple_inc; apple_upper] r)
    ∧ (∀ e, e ∈ [apple_inc; apple_upper] →
         ∃ r, r ∈ unique ∧ canonical_key lowercase r = canonical_key lowercase e).
Proof.
  apply (proj1 (deduplicate_entities_first_wins lowercase [apple_inc; apple_upper])).
  intros e He. apply elem_of_cons in He as [->|He]; [by eexists |].
  apply list_elem_of_singleton in He as ->. by eexists.
Defined.

(** ** [_semantic_search] and [search_by_error] *)

Section semantic_search_facts.
Import CodeSearch.
Variable similarity : list Byte.byte → outcome Q.

Lemma semantic_results_spec (table_name : string) (rows : list (Z * list Byte.byte))
    (results : list Result.t) :
  semantic_results similarity table_name rows = Ok results →
  ∀ r, r ∈ results →
    Result.type r = table_name ∧ Result.text r = None ∧ Result.metadata r = None
    ∧ (1 # 2 < Result.score r)%Q
    ∧ ∃ embedding_bytes,
        (Result.id r, embedding_bytes) ∈ rows ∧ embedding_bytes ≠ []
        ∧ similarity embedding_bytes = Ok (Result.score r).
Proof.
  revert results. induction rows as [|[row_id bytes] rows IH]; intros results; simpl.
  - intros [= <-] r Hr. by apply elem_of_nil in Hr.
  - destruct bytes as [|b bytes].
    + intros Hres r Hr. destruct (IH results Hres r Hr)
        as (? & ? & ? & ? & embedding_bytes & ? & ? & ?).
      repeat split; try done. exists embedding_bytes.
      split; [by apply list_elem_of_further | done].
    + destruct (similarity (b :: bytes)) as [score|e] eqn:Hscore; [| done]. simpl.
      destruct (semantic_results similarity table_name rows) as [rest|e] eqn:Hrest;
        [| done].
      simpl. intros [= <-] r Hr.
      assert (Hold : r ∈ rest →
                Result.type r = table_name ∧ Result.text r = None
                ∧ Result.metadata r = None ∧ (1 # 2 < Result.score r)%Q
                ∧ ∃ embedding_bytes,
                    (Result.id r, embedding_bytes) ∈ (row_id, b :: bytes) :: rows
                    ∧ embedding_bytes ≠ []
                    ∧ similarity embedding_bytes = Ok (Result.score r)).
      { intros Hin. destruct (IH rest eq_refl r Hin)
          as (? & ? & ? & ? & embedding_bytes & ? & ? & ?).
        repeat split; try done. exists embedding_bytes.
        split; [by apply list_elem_of_further | done]. }
      destruct (Agents.Qgt_bool score (5 # 10)) eqn:Hgt; [| by apply Hold].
      apply elem_of_cons in Hr as [->|Hr]; [| by apply Hold].
      simpl. repeat split; try done.
      * unfold Agents.Qgt_bool in Hgt. apply negb_true_iff in Hgt.
        apply Qnot_le_lt. intros Hle.
        assert (Hle' : (score <= 5 # 10)%Q).
        { unfold Qle in *. simpl in *. lia. }
        apply Qle_bool_iff in Hle'. congruence.
      * exists (b :: bytes). split; [apply list_elem_of_here | done].
Qed.

(** X27. When [_semantic_search] returns, every result carries the name of
    the table, the id of a row with a non-empty embedding and, as its score,
    the similarity of that embedding, which is greater than 0.5; the results
    have no text and no metadata; they are in descending order of score;
    and with a limit that is not negative there are at most that many. *)
Theorem semantic_search_spec (table_name : string) (rows : list (Z * list Byte.byte))
    (limit : Z) (results : list Result.t) :
  semantic_search similarity table_name rows limit = Ok results →
  (∀ r, r ∈ results →
     Result.type r = table_name ∧ Result.text r = None ∧ Result.metadata r = None
     ∧ (1 # 2 < Result.score r)%Q
     ∧ ∃ embedding_bytes,
         (Result.id r, embedding_bytes) ∈ rows ∧ embedding_bytes ≠ []
         ∧ similarity embedding_bytes = Ok (Result.score r))
  ∧ StronglySorted (λ a b, (Result.score b <= Result.score a)%Q) results
  ∧ (0 ≤ limit → Z.of_nat (length results) ≤ limit).
Proof.
  unfold semantic_search.
  destruct (semantic_results similarity table_name rows) as [found|e] eqn:Hfound;
    [| done].
  simpl. intros [= <-]. split; [| split].
  - intros r Hr. apply (semantic_results_spec table_name rows found Hfound).
    rewrite <- (sorted_reverse_Permutation Result.score).
    eapply elem_of_sublist; [exact Hr | apply slice_to_sublist].
  - apply StronglySorted_slice_to, sorted_reverse_descending.
  - intros Hlimit. unfold slice_to. rewrite (proj2 (Z.leb_le _ _) Hlimit).
    pose proof (firstn_le_length (Z.to_nat limit)
                  (sorted_reverse Result.score found)). lia.
Qed.

End semantic_search_facts.

Lemma semantic_search_spec_witness :
  let similarity := λ _ : list Byte.byte, Ok (9 # 10)%Q in
  let rows := [(7, [Byte.x01]); (8, [])] in
  let results := [semantic_hit] in
  (∀ r, r ∈ results →
     CodeSearch.Result.type r = "code_examples"
     ∧ CodeSearch.Result.text r = None ∧ CodeSearch.Result.metadata r = None
     ∧ (1 # 2 < CodeSearch.Result.score r)%Q
     ∧ ∃ embedding_bytes,
         (CodeSearch.Result.id r, embedding_bytes) ∈ rows ∧ embedding_bytes ≠ []
         ∧ similarity embedding_bytes = Ok (CodeSearch.Result.score r))
  ∧ StronglySorted
      (λ a b, (CodeSearch.Result.score b <= CodeSearch.Result.score a)%Q) results
  ∧ (0 ≤ 20 → Z.of_nat (length results) ≤ 20).
Proof.
  intros similarity rows results.
  apply (semantic_search_spec similarity "code_examples" rows 20 results).
  reflexivity.
Defined.

Section error_search_facts.
Import CodeSearch ErrorSearch.
Variable lower : string → string.
Variable findall : string → list string.
Hypothesis lower_empty : lower "" = "".
Hypothesis lower_not_empty : ∀ s, lower s = "" → s = "".

Lemma contains_empty (sub : string) : sub ≠ "" → Content.contains "" sub = false.
Proof. by destruct sub. Qed.

(** A result without text is relevant to no error message. *)
Lemma is_error_relevant_no_text (result : Result.t) (error_message : string) :
  Result.text result = None →
  is_error_relevant lower findall result error_message = false.
Proof.
  intros Htext. unfold is_error_relevant. rewrite Htext. simpl. rewrite lower_empty.
  apply orb_false_iff. split.
  - reflexivity.
  - apply not_true_iff_false. intros (term & Hterm & Hin)%existsb_exists.
    apply list_elem_of_In in Hterm.
    apply list_elem_of_filter in Hterm as [[_ Hlen] _].
    rewrite contains_empty in Hin; [done |].
    intros Hempty. apply lower_not_empty in Hempty. subst term. simpl in Hlen. lia.
Qed.

(** X26. On the database that [init_database] creates, [search_by_error]
    raises [OperationalError] for every error message: its hybrid call of
    [search_code] selects a column that the full-text table does not have.
    [_is_error_relevant] holds of no result without text, as the results of
    [_semantic_search] are; so that, on a table that has the column, where
    [search_by_error] returns, every result it returns is built from a row
    of the full-text index, and none is a semantic hit. *)
Theorem search_by_error_outcome (fts_columns : list string) (fts_rows : list Row.t)
    (embeddings_available query_embedding : bool)
    (code_examples api_references : list Result.t) (error_message : string) :
  search_by_error lower findall search_fts_columns fts_rows embeddings_available
    query_embedding code_examples api_references error_message
  = Raise OperationalError
  ∧ (∀ result, Result.text result = None →
       is_error_relevant lower findall result error_message = false)
  ∧ (∀ results,
       search_by_error lower findall fts_columns fts_rows embeddings_available
         query_embedding code_examples api_references error_message
       = Ok results →
       selected_columns ⊆ fts_columns
       ∧ ((∀ r, r ∈ code_examples ++ api_references → Result.text r = None) →
          ∀ r, r ∈ results → ∃ row, row ∈ fts_rows ∧ r = of_row row)).
Proof.
  assert (Hhybrid : "hybrid" ∈ ["keyword"; "hybrid"])
    by apply list_elem_of_further, list_elem_of_here.
  split; [| split].
  - unfold search_by_error.
    destruct (search_code_cases search_fts_columns fts_rows embeddings_available
                query_embedding code_examples api_references "hybrid" 20)
      as [[Hsub _]|(_ & _ & ->)]; [| done].
    destruct search_fts_lacks_metadata. by apply Hsub.
  - intros result. apply is_error_relevant_no_text.
  - intros results. unfold search_by_error.
    destruct (search_code_cases fts_columns fts_rows embeddings_available
                query_embedding code_examples api_references "hybrid" 20)
      as [[Hsub ->]|(_ & _ & ->)]; [| done].
    simpl. intros [= <-]. split; [by apply Hsub |].
    intros Hsemantic r.
    rewrite list_elem_of_In, filter_In, <- list_elem_of_In. intros [Hr Hrelevant].
    destruct (search_code_results
                (map of_row fts_rows
                   ++ (if embeddings_available && query_embedding
                       then code_examples ++ api_references else [])) 20)
      as (_ & Hfirst & _).
    apply Hfirst, (first_with_key_elem_of (λ r, (Result.type r, Result.id r)))
      in Hr.
    apply elem_of_app in Hr as [Hrow|Hsem].
    + apply list_elem_of_fmap in Hrow as (row & -> & Hrow). by exists row.
    + assert (Htext : Result.text r = None).
      { apply Hsemantic. by destruct (embeddings_available && query_embedding);
          [| apply elem_of_nil in Hsem]. }
      by rewrite is_error_relevant_no_text in Hrelevant.
Qed.

End error_search_facts.

Lemma search_by_error_outcome_witness :
  ErrorSearch.search_by_error lowercase (λ _, ["KeyError"])
    CodeSearch.search_fts_columns [error_row] true true [semantic_hit] []
    "KeyError: 'name'"
  = Raise OperationalError
  ∧ ErrorSearch.is_error_relevant lowercase (λ _, ["KeyError"]) semantic_hit
      "KeyError: 'name'" = false.
Proof.
  destruct (search_by_error_outcome lowercase (λ _, ["KeyError"]) eq_refl
              (λ s, match s with
                    | "" => λ _, eq_refl
                    | String _ _ => λ H, ltac:(discriminate H)
                    end)
              CodeSearch.search_fts_columns [error_row] true true [semantic_hit] []
              "KeyError: 'name'")
    as (Hraises & Hrelevant & _).
  split; [exact Hraises | by apply Hrelevant].
Defined.

(** ** [get_confidence_for_action] *)

Section memory_facts.
Import Agents.
Context {Value : Type} `{!EqDecision Value}.

(** X28. [get_confidence_for_action] never divides by zero, and its value
    is a confidence: greater than 0 and at most 1.  It is 0.5 for an action
    without a recorded success, and the share of the action among all the
    recorded successes otherwise. *)
Theorem get_confidence_for_action_bounds (success_patterns : list (gmap string Value))
    (action : Value) :
  ∃ q, get_confidence_for_action success_patterns action = Quotient q
       ∧ (0 < q)%Q ∧ (q <= 1)%Q
       ∧ ((∀ p, p ∈ success_patterns → p !! "action" ≠ Some action) → q = (1 # 2)%Q)
       ∧ ((∃ p, p ∈ success_patterns ∧ p !! "action" = Some action) →
            (q * inject_Z (Z.of_nat (length success_patterns))
             == inject_Z (Z.of_nat
                  (length (filter (λ p, p !! "action" = Some action)
                             success_patterns))))%Q).
Proof.
  unfold get_confidence_for_action.
  pose proof (length_filter (λ p, p !! "action" = Some action) success_patterns)
    as Hlen.
  remember (filter (λ p, p !! "action" = Some action) success_patterns)
    as successes eqn:Hsuccesses.
  destruct successes as [|p rest].
  - exists (1 # 2)%Q. split; [done |]. split; [done |]. split; [done |].
    split; [done |]. intros (p & Hp & Haction).
    assert (Hin : p ∈ filter (λ p, p !! "action" = Some action) success_patterns)
      by by apply list_elem_of_filter.
    rewrite <- Hsuccesses in Hin. by apply elem_of_nil in Hin.
  - assert (Hp : p ∈ filter (λ p, p !! "action" = Some action) success_patterns).
    { rewrite <- Hsuccesses. apply list_elem_of_here. }
    apply list_elem_of_filter in Hp as [Haction Hp].
    unfold true_div. simpl in Hlen.
    rewrite decide_False by lia.
    eexists. split; [done |].
    assert (Hpos : Z.pos (Pos.of_nat (length success_patterns))
                   = Z.of_nat (length success_patterns)).
    { rewrite <- positive_nat_Z, Nat2Pos.id by lia. done. }
    split; [| split; [| split]].
    + unfold Qlt. simpl. lia.
    + unfold Qle. simpl. rewrite Hpos. simpl in *. lia.
    + intros Hnone. by destruct (Hnone p).
    + intros _. unfold Qeq, Qmult, inject_Z. cbn [Qnum Qden].
      rewrite Pos2Z.inj_mul, Hpos. lia.
Qed.

End memory_facts.

(** ** Destinations of [CanonicalLocationAgent.process] do not collide *)

Section route_injective_facts.
Import Agents.
Context {Value : Type}.

Lemma route_kind (entity : Entity.t Value) (status : InformationStatus) :
  route entity status
  = kind_prefix (kind_of (Entity.type entity) status)
      +:+ Entity.id entity +:+ kind_suffix (kind_of (Entity.type entity) status).
Proof. unfold route. by destruct status, (Entity.type entity). Qed.

Lemma append_inj_length (a b u v : string) :
  a +:+ u = b +:+ v → String.length u = String.length v → a = b ∧ u = v.
Proof.
  revert b. induction a as [|c a IH]; intros [|c' b]; rewrite ?append_cons,
    ?append_empty_l.
  - done.
  - intros -> Hlen. simpl in Hlen. rewrite length_append in Hlen. lia.
  - intros <- Hlen. simpl in Hlen. rewrite length_append in Hlen. lia.
  - intros [= -> Heq] Hlen. destruct (IH b Heq Hlen) as [-> ->]. done.
Qed.

(** X29. Two entities are sent to the same destination only if they have
    the same id and fall under the same rule (the same registered type and
    status, or the generic fallback for both): distinct entities never share
    a destination. *)
Theorem route_injective (e1 e2 : Entity.t Value) (s1 s2 : InformationStatus) :
  route e1 s1 = route e2 s2 →
  Entity.id e1 = Entity.id e2
  ∧ kind_of (Entity.type e1) s1 = kind_of (Entity.type e2) s2.
Proof.
  rewrite !route_kind.
  destruct (kind_of (Entity.type e1) s1), (kind_of (Entity.type e2) s2);
    unfold kind_prefix, kind_suffix;
    rewrite !append_cons, !append_empty_l; intros Heq; simplify_eq;
    match goal with
    | H : _ +:+ _ = _ +:+ _ |- _ =>
        apply append_inj_length in H as [? ?]; [| done]
    end;
    by simplify_eq.
Qed.

End route_injective_facts.

Lemma route_injective_witness :
  Agents.Entity.id version_A = Agents.Entity.id version_B
  ∧ kind_of (Agents.Entity.type version_A) Agents.CURRENT
    = kind_of (Agents.Entity.type version_B) Agents.CURRENT.
Proof. apply route_injective. reflexivity. Defined.

(** ** [query_knowledge] *)

Section query_facts.
Import Models Graph.
Context {Value : Type} `{!EqDecision Value}.

Lemma StronglySorted_sublist {A} (R : relation A) (l1 l2 : list A) :
  l1 `sublist_of` l2 → StronglySorted R l2 → StronglySorted R l1.
Proof.
  induction 1 as [|x l1 l2 Hsub IH|x l1 l2 Hsub IH]; [done | |].
  - intros [Hsorted Hx]%StronglySorted_inv. constructor; [by apply IH |].
    rewrite Forall_forall in *. intros y Hy. apply Hx.
    by eapply elem_of_sublist.
  - intros [Hsorted _]%StronglySorted_inv. by apply IH.
Qed.

Lemma entity_scores_spec (similarity : list Q → outcome Q)
    (items : list (string * Entity.t Value)) (scores : list (Entity.t Value * Q)) :
  entity_scores similarity items = Ok scores →
  ∀ e q, (e, q) ∈ scores →
    (∃ k, (k, e) ∈ items)
    ∧ truthy (Entity.embeddings e) = true
    ∧ similarity (default [] (Entity.embeddings e)) = Ok q.
Proof.
  revert scores. induction items as [|[k entity] items IH]; intros scores; simpl.
  - intros [= <-] e q He. by apply elem_of_nil in He.
  - destruct (truthy (Entity.embeddings entity)) eqn:Htruthy.
    + destruct (similarity _) as [score|err] eqn:Hscore; [| done]. simpl.
      destruct (entity_scores similarity items) as [rest|err] eqn:Hrest; [| done].
      simpl. intros [= <-] e q [[= -> ->]|He]%elem_of_cons.
      * split; [| done]. exists k. apply list_elem_of_here.
      * destruct (IH rest eq_refl e q He) as ([k' Hk'] & ? & ?).
        split; [| done]. exists k'. by apply list_elem_of_further.
    + intros Hscores e q He.
      destruct (IH scores Hscores e q He) as ([k' Hk'] & ? & ?).
      split; [| done]. exists k'. by apply list_elem_of_further.
Qed.

Lemma determine_canonical_locations_files (entities : list (Entity.t Value))
    (file_mappings : gmap string string) (k f : string) :
  determine_canonical_locations entities = Ok file_mappings →
  file_mappings !! k = Some f →
  f ∈ ["Professional Journey.md"; "Personal Info.md"; "Projects.md"].
Proof.
  intros Hres Hf.
  destruct (determine_canonical_locations_from_entries entities ∅ file_mappings Hres k)
    as [Hfrom _].
  destruct (Hfrom f Hf) as [Hacc|(entity & Hin & Hid & Hcl)];
    [by rewrite lookup_empty in Hacc |].
  destruct (canonical_location_cases entity f Hcl)
    as [[_ [-> | ->]]|[[_ ->]|[_ ->]]]; set_solver.
Qed.

(** X30. [query_knowledge] changes nothing in the graph.  The entities it
    returns are stored entities with a non-empty embedding whose similarity
    with the query is greater than 0.3, in descending order of similarity,
    at most [max_results] of them when that number is not negative.  The
    relationships it returns are the stored relationships that start or end
    at a returned entity (none when related information is not asked for).
    The suggested files are distinct and are among [Professional
    Journey.md], [Personal Info.md] and [Projects.md]. *)
Theorem query_knowledge_spec (similarity : list Q → outcome Q) (max_results : Z)
    (include_related : bool) (s s' : State Value) (r : query_results) :
  query_knowledge similarity max_results include_related s = (Ok r, s') →
  s' = s
  ∧ ∃ scored : list (Entity.t Value * Q),
      results_entities r = (λ x, Entity.dict x.1) <$> scored
      ∧ (∀ e q, (e, q) ∈ scored →
           (∃ k, entities s !! k = Some e)
           ∧ truthy (Entity.embeddings e) = true
           ∧ similarity (default [] (Entity.embeddings e)) = Ok q
           ∧ (3 # 10 < q)%Q)
      ∧ StronglySorted (λ a b, (b.2 <= a.2)%Q) scored
      ∧ (0 ≤ max_results → Z.of_nat (length scored) ≤ max_results)
      ∧ (∀ rel, rel ∈ results_relationships r
                ↔ include_related = true ∧ rel ∈ relationships s
                  ∧ ∃ x, x ∈ scored
                         ∧ (Relationship.source_entity_id rel = Entity.id x.1
                            ∨ Relationship.target_entity_id rel = Entity.id x.1))
      ∧ NoDup (results_suggested_files r)
      ∧ ∀ f, f ∈ results_suggested_files r →
          f ∈ ["Professional Journey.md"; "Personal Info.md"; "Projects.md"].
Proof.
  unfold query_knowledge.
  destruct (entity_scores similarity (map_to_list (entities s)))
    as [scores|err] eqn:Hscores; [| done]. simpl.
  set (sorted := sorted_reverse snd scores).
  set (scored := filter (λ x : Entity.t Value * Q, Qle_bool x.2 (3 # 10) = false)
                   (slice_to max_results sorted)).
  destruct (determine_canonical_locations scored.*1) as [file_mappings|err] eqn:Hfiles;
    [| done].
  simpl. intros [= <- <-]. split; [done |]. exists scored. simpl.
  assert (Hsub : scored `sublist_of` sorted).
  { etrans; [apply sublist_filter | apply slice_to_sublist]. }
  split; [by rewrite <- list_fmap_compose |]. split; [| split; [| split; [| split]]].
  - intros e q He.
    assert (Hgt : (3 # 10 < q)%Q).
    { apply list_elem_of_filter in He as [Hle _]. simpl in Hle.
      apply Qnot_le_lt. intros H. apply Qle_bool_iff in H. congruence. }
    assert (Hin : (e, q) ∈ scores).
    { rewrite <- (sorted_reverse_Permutation snd). by eapply elem_of_sublist. }
    destruct (entity_scores_spec similarity _ _ Hscores e q Hin) as ([k Hk] & ? & ?).
    split; [| done]. exists k. by apply elem_of_map_to_list.
  - eapply StronglySorted_sublist; [exact Hsub |]. apply sorted_reverse_descending.
  - intros Hlimit.
    pose proof (length_filter (λ x : Entity.t Value * Q, Qle_bool x.2 (3 # 10) = false)
                  (slice_to max_results sorted)) as Hlen.
    fold scored in Hlen.
    assert (Z.of_nat (length (slice_to max_results sorted)) ≤ max_results); [| lia].
    unfold slice_to. rewrite (proj2 (Z.leb_le _ _) Hlimit).
    pose proof (firstn_le_length (Z.to_nat max_results) sorted). lia.
  - intros rel. destruct include_related.
    + rewrite list_elem_of_filter, !elem_of_list_to_set.
      split.
      * intros [Htouch Hrel]. split; [done |]. split; [done |].
        destruct Htouch as [Hin|Hin];
          apply list_elem_of_fmap in Hin as (e & -> & He);
          apply list_elem_of_fmap in He as (x & -> & Hx); eauto.
      * intros (_ & Hrel & x & Hx & Htouch). split; [| done].
        destruct Htouch as [->| ->]; [left | right];
          apply list_elem_of_fmap; exists x.1; (split; [done |]);
          apply list_elem_of_fmap; by exists x.
    + split; [by intros ?%elem_of_nil | by intros [? _]].
  - split; [apply NoDup_elements |].
    intros f. rewrite elem_of_elements, elem_of_list_to_set.
    intros ([k f'] & -> & Hin%elem_of_map_to_list)%list_elem_of_fmap. simpl.
    by eapply determine_canonical_locations_files.
Qed.

End query_facts.

Lemma query_knowledge_spec_witness :
  ∃ r scored,
    Graph.results_entities r = (λ x, Models.Entity.dict x.1) <$> scored
    ∧ (∀ e q, (e, q) ∈ scored →
         (∃ k, Graph.entities store_ada !! k = Some e)
         ∧ Graph.truthy (Models.Entity.embeddings e) = true
         ∧ (λ _ : list Q, Ok (9 # 10)%Q) (default [] (Models.Entity.embeddings e))
           = Ok q
         ∧ (3 # 10 < q)%Q)
    ∧ StronglySorted (λ a b, (b.2 <= a.2)%Q) scored
    ∧ (0 ≤ 10 → Z.of_nat (length scored) ≤ 10)
    ∧ (∀ rel, rel ∈ Graph.results_relationships r
              ↔ true = true ∧ rel ∈ Graph.relationships store_ada
                ∧ ∃ x, x ∈ scored
                       ∧ (Models.Relationship.source_entity_id rel
                            = Models.Entity.id x.1
                          ∨ Models.Relationship.target_entity_id rel
                            = Models.Entity.id x.1))
    ∧ NoDup (Graph.results_suggested_files r)
    ∧ ∀ f, f ∈ Graph.results_suggested_files r →
        f ∈ ["Professional Journey.md"; "Personal Info.md"; "Projects.md"].
Proof.
  destruct (query_knowledge_spec (λ _, Ok (9 # 10)%Q) 10 true store_ada store_ada
              (Graph.mk_query_results [Models.Entity.dict ada] []
                 ["Professional Journey.md"]))
    as [_ (scored & H)].
  - vm_compute. reflexivity.
  - by eexists _, scored.
Defined.
